(** * Section properties: polygon algebra, clipping and the plastic solver

    A shallow embedding of [src/utils/sectionCalculations.ts], of the
    DXF importer [src/utils/dxfImport.ts] and of the shape templates
    [src/utils/shapeTemplates.ts].

    Numbers.  The code is embedded twice.  In the first embedding a
    JavaScript [number] is idealised as an exact rational ([Q]): every
    arithmetic operation is the exact one, comparisons are the boolean
    tests of [QArith], and the thresholds [1e-12] and [1e-10] are the
    rationals of that value.  Results are therefore compared with [==]
    ([Qeq]).  [Math.sqrt] and [Math.atan2] have no rational counterpart;
    they are parameters of the elastic engine.  The two infinite start
    values of the extreme scans are kept by the type [ext].  The branch
    structure of the code, its guards and its algebra are proved on this
    embedding.

    The second embedding, [Binary64], is the same code on binary64
    floats.  The code is evaluated on it where the exact embedding
    cannot follow: sums that overflow and differences that cancel.
    What it shows bounds the statements made on the first: a statement
    about computed values is made for coordinates of a magnitude at
    which binary64 departs from the exact value by rounding only. *)

From Stdlib Require Import QArith Qabs Qminmax Lqa Lia List Bool Arith.
From Stdlib Require Import QMicromega Qpower Permutation Sorted.
From Stdlib Require String.
From Stdlib Require Floats.
Import ListNotations.
Import String.StringSyntax.
Delimit Scope string_scope with string.

Local Open Scope Q_scope.

(** The thresholds [1e-12] and [1e-10] of the source. *)
Abbreviation eps12 := (1 # 1000000000000)%Q.
Abbreviation eps10 := (1 # 10000000000)%Q.

(** * Part I.  The embedding of the source *)

(** ** Data model (types/geometry) *)

Record Point : Type := mkPoint { x : Q; y : Q }.

Record CrossSection : Type := mkCrossSection {
  outerBoundary : list Point;
  holes : list (list Point)
}.

Record ElasticProperties : Type := mkElastic {
  area : Q;
  centroidX : Q;
  centroidY : Q;
  Ix : Q;
  Iy : Q;
  Ixy : Q;
  Ix_principal : Q;
  Iy_principal : Q;
  theta_principal : Q;
  Sx_top : Q;
  Sx_bot : Q;
  Sy_left : Q;
  Sy_right : Q;
  rx : Q;
  ry : Q
}.

Record PlasticProperties : Type := mkPlastic {
  pnaX : Q;
  pnaY : Q;
  Zx : Q;
  Zy : Q
}.

Record SectionProperties : Type := mkSectionProperties {
  elastic : ElasticProperties;
  plastic : PlasticProperties
}.

Inductive Direction : Type := horizontal | vertical.
Inductive Side : Type := below | above.

(** A running extreme of a scan: [-Infinity], a number, or [Infinity]. *)
Inductive ext : Type :=
| MinusInfinity
| Finite (q : Q)
| PlusInfinity.

(** [a < b] on extended numbers. *)
Definition ext_ltb (a b : ext) : bool :=
  match a, b with
  | MinusInfinity, MinusInfinity => false
  | MinusInfinity, _ => true
  | Finite _, MinusInfinity => false
  | Finite p, Finite q => Qlt_bool p q
  | Finite _, PlusInfinity => true
  | PlusInfinity, _ => false
  end.

(** ** Polygon algebra *)

Definition origin : Point := {| x := 0; y := 0 |}.

(** The pairs [(vertices[i], vertices[(i + 1) % n])] for [i = 0 .. n-1],
    in the order every loop of the source visits them. *)
Definition cyclic_pairs (vertices : list Point) : list (Point * Point) :=
  let n := length vertices in
  map (fun i => (nth i vertices origin, nth ((i + 1) mod n) vertices origin))
      (seq 0 n).

Definition signedPolygonArea (vertices : list Point) : Q :=
  let n := length vertices in
  if (n <? 3)%nat then 0
  else
    let area :=
      fold_left
        (fun area '(vi, vj) => area + x vi * y vj - x vj * y vi)
        (cyclic_pairs vertices) 0 in
    area / 2.

Definition polygonArea (vertices : list Point) : Q :=
  Qabs (signedPolygonArea vertices).

Definition polygonCentroid (vertices : list Point) : Point :=
  let n := length vertices in
  if (n <? 3)%nat then {| x := 0; y := 0 |}
  else
    let A := signedPolygonArea vertices in
    if Qlt_bool (Qabs A) eps12 then {| x := 0; y := 0 |}
    else
      let '(cx, cy) :=
        fold_left
          (fun '(cx, cy) '(vi, vj) =>
             let cross := x vi * y vj - x vj * y vi in
             (cx + (x vi + x vj) * cross, cy + (y vi + y vj) * cross))
          (cyclic_pairs vertices) (0, 0) in
      {| x := cx / (6 * A); y := cy / (6 * A) |}.

Definition polygonIxOrigin (vertices : list Point) : Q :=
  let n := length vertices in
  if (n <? 3)%nat then 0
  else
    let Ix :=
      fold_left
        (fun Ix '(vi, vj) =>
           let cross := x vi * y vj - x vj * y vi in
           Ix + (y vi ^ 2 + y vi * y vj + y vj ^ 2) * cross)
        (cyclic_pairs vertices) 0 in
    Ix / 12.

Definition polygonIyOrigin (vertices : list Point) : Q :=
  let n := length vertices in
  if (n <? 3)%nat then 0
  else
    let Iy :=
      fold_left
        (fun Iy '(vi, vj) =>
           let cross := x vi * y vj - x vj * y vi in
           Iy + (x vi ^ 2 + x vi * x vj + x vj ^ 2) * cross)
        (cyclic_pairs vertices) 0 in
    Iy / 12.

Definition polygonIxyOrigin (vertices : list Point) : Q :=
  let n := length vertices in
  if (n <? 3)%nat then 0
  else
    let Ixy :=
      fold_left
        (fun Ixy '(vi, vj) =>
           let cross := x vi * y vj - x vj * y vi in
           Ixy + (x vi * y vj + 2 * x vi * y vi + 2 * x vj * y vj
                  + x vj * y vi) * cross)
        (cyclic_pairs vertices) 0 in
    Ixy / 24.

(** [[...vertices].reverse()] is a reversed copy; as a value it is [rev]. *)
Definition ensureCCW (vertices : list Point) : list Point :=
  let area := signedPolygonArea vertices in
  if Qlt_bool area 0 then rev vertices else vertices.

Definition ensureCW (vertices : list Point) : list Point :=
  let area := signedPolygonArea vertices in
  if Qlt_bool 0 area then rev vertices else vertices.

Definition zeroElasticProps : ElasticProperties :=
  {| area := 0; centroidX := 0; centroidY := 0;
     Ix := 0; Iy := 0; Ixy := 0;
     Ix_principal := 0; Iy_principal := 0; theta_principal := 0;
     Sx_top := 0; Sx_bot := 0; Sy_left := 0; Sy_right := 0;
     rx := 0; ry := 0 |}.

(** ** Polygon clipper *)

Definition isInside (point : Point) (cutValue : Q)
           (direction : Direction) (keepSide : Side) : bool :=
  let val :=
    match direction with horizontal => y point | vertical => x point end in
  match keepSide with
  | below => Qle_bool val cutValue
  | above => Qle_bool cutValue val
  end.

Definition intersect (p1 p2 : Point) (cutValue : Q) (direction : Direction)
  : Point :=
  match direction with
  | horizontal =>
      if Qlt_bool (Qabs (y p2 - y p1)) eps12 then p1
      else
        let t := (cutValue - y p1) / (y p2 - y p1) in
        {| x := x p1 + t * (x p2 - x p1); y := cutValue |}
  | vertical =>
      if Qlt_bool (Qabs (x p2 - x p1)) eps12 then p1
      else
        let t := (cutValue - x p1) / (x p2 - x p1) in
        {| x := cutValue; y := y p1 + t * (y p2 - y p1) |}
  end.

(** One turn of the loop of [clipPolygon]; [output.push p] is [output ++ [p]]. *)
Definition clipStep (cutValue : Q) (direction : Direction) (keepSide : Side)
           (output : list Point) (edge : Point * Point) : list Point :=
  let '(current, next) := edge in
  let currentInside := isInside current cutValue direction keepSide in
  let nextInside := isInside next cutValue direction keepSide in
  if currentInside then
    let output := output ++ [current] in
    if negb nextInside
    then output ++ [intersect current next cutValue direction]
    else output
  else if nextInside
       then output ++ [intersect current next cutValue direction]
       else output.

Definition clipPolygon (vertices : list Point) (cutValue : Q)
           (direction : Direction) (keepSide : Side) : list Point :=
  if (length vertices <? 3)%nat then []
  else fold_left (clipStep cutValue direction keepSide)
                 (cyclic_pairs vertices) [].

(** ** Helpers of the plastic engine *)

Definition computeNetArea (outer : list Point) (holes : list (list Point)) : Q :=
  fold_left (fun area hole => area - polygonArea hole) holes (polygonArea outer).

Definition computeAreaOneSide (outer : list Point) (holes : list (list Point))
           (cutValue : Q) (direction : Direction) (side : Side) : Q :=
  let outerClipped := clipPolygon outer cutValue direction side in
  fold_left
    (fun area hole =>
       let holeClipped := clipPolygon hole cutValue direction side in
       area - polygonArea holeClipped)
    holes (polygonArea outerClipped).

Definition firstMomentAboutAxis (vertices : list Point) (axisValue : Q)
           (direction : Direction) : Q :=
  if (length vertices <? 3)%nat then 0
  else
    let A := polygonArea vertices in
    let c := polygonCentroid vertices in
    match direction with
    | horizontal => A * (y c - axisValue)
    | vertical => A * (x c - axisValue)
    end.

Definition computePlasticModulus (outer : list Point) (holes : list (list Point))
           (pna : Q) (direction : Direction) : Q :=
  let outerAbove := clipPolygon outer pna direction above in
  let outerBelow := clipPolygon outer pna direction below in
  let '(momentAbove, momentBelow) :=
    fold_left
      (fun '(momentAbove, momentBelow) hole =>
         let holeAbove := clipPolygon hole pna direction above in
         let holeBelow := clipPolygon hole pna direction below in
         (momentAbove - firstMomentAboutAxis holeAbove pna direction,
          momentBelow - firstMomentAboutAxis holeBelow pna direction))
      holes
      (firstMomentAboutAxis outerAbove pna direction,
       firstMomentAboutAxis outerBelow pna direction) in
  Qabs momentAbove + Qabs momentBelow.

(** ** The bisection search for the plastic neutral axis

    The loop [for (iter = 0; iter < 100; iter++)] is a recursion on the
    number of turns still allowed.  Besides the value the source returns,
    the run records how many turns were started and whether the
    convergence test ended it; [findPNA] is the value alone. *)

Record PNASearch : Type := mkPNASearch {
  pna_value : Q;
  pna_iterations : nat;
  pna_converged : bool
}.

Section Bisection.
Variables (outer : list Point) (holes : list (list Point)).
Variables (totalArea : Q) (direction : Direction).

Definition halfArea : Q := totalArea / 2.

Definition areaBelowAt (mid : Q) : Q :=
  computeAreaOneSide outer holes mid direction below.

(** The test [Math.abs(areaBelow - halfArea) < totalArea * 1e-10]. *)
Definition convergedAt (mid : Q) : bool :=
  Qlt_bool (Qabs (areaBelowAt mid - halfArea)) (totalArea * eps10).

(** The bracket after one turn that did not converge. *)
Definition narrow (br : Q * Q) : Q * Q :=
  let '(lo, hi) := br in
  let mid := (lo + hi) / 2 in
  if Qlt_bool (areaBelowAt mid) halfArea then (mid, hi) else (lo, mid).

Fixpoint findPNA_loop (remaining : nat) (iter : nat) (lo hi : Q) : PNASearch :=
  match remaining with
  | O => {| pna_value := (lo + hi) / 2;
            pna_iterations := iter;
            pna_converged := false |}
  | S remaining' =>
      let mid := (lo + hi) / 2 in
      let areaBelow := areaBelowAt mid in
      if Qlt_bool (Qabs (areaBelow - halfArea)) (totalArea * eps10) then
        {| pna_value := mid;
           pna_iterations := S iter;
           pna_converged := true |}
      else if Qlt_bool areaBelow halfArea
           then findPNA_loop remaining' (S iter) mid hi
           else findPNA_loop remaining' (S iter) lo mid
  end.

Definition findPNA_run (minVal maxVal : Q) : PNASearch :=
  findPNA_loop 100 0 minVal maxVal.

(** The bracket after [k] turns none of which converged, as the
    specification describes the search. *)
Fixpoint bracket (k : nat) (minVal maxVal : Q) : Q * Q :=
  match k with
  | O => (minVal, maxVal)
  | S k' => narrow (bracket k' minVal maxVal)
  end.

Definition midpoint (br : Q * Q) : Q := (fst br + snd br) / 2.

End Bisection.

Definition findPNA (outer : list Point) (holes : list (list Point))
           (totalArea minVal maxVal : Q) (direction : Direction) : Q :=
  pna_value (findPNA_run outer holes totalArea direction minVal maxVal).

(** ** Plastic properties engine *)

(** One turn of the bounding-box scan of [computePlasticProperties] on
    [(yMin, yMax, xMin, xMax)]. *)
Definition boundingStep (acc : ext * ext * ext * ext) (v : Point)
  : ext * ext * ext * ext :=
  let '(yMin, yMax, xMin, xMax) := acc in
  (if ext_ltb (Finite (y v)) yMin then Finite (y v) else yMin,
   if ext_ltb yMax (Finite (y v)) then Finite (y v) else yMax,
   if ext_ltb (Finite (x v)) xMin then Finite (x v) else xMin,
   if ext_ltb xMax (Finite (x v)) then Finite (x v) else xMax).

(** The scan, started at [(Infinity, -Infinity, Infinity, -Infinity)]. *)
Definition boundingBox (allVerts : list Point) : ext * ext * ext * ext :=
  fold_left boundingStep allVerts
            (PlusInfinity, MinusInfinity, PlusInfinity, MinusInfinity).

Definition computePlasticProperties (section : CrossSection) : PlasticProperties :=
  let outer := ensureCCW (outerBoundary section) in
  let holes := map ensureCW (holes section) in
  let totalArea := computeNetArea outer holes in
  if Qlt_bool totalArea eps12 then
    {| pnaX := 0; pnaY := 0; Zx := 0; Zy := 0 |}
  else
    let allVerts := concat (outer :: holes) in
    match boundingBox allVerts with
    | (Finite yMin, Finite yMax, Finite xMin, Finite xMax) =>
        let pnaX := findPNA outer holes totalArea yMin yMax horizontal in
        let Zx := computePlasticModulus outer holes pnaX horizontal in
        let pnaY := findPNA outer holes totalArea xMin xMax vertical in
        let Zy := computePlasticModulus outer holes pnaY vertical in
        {| pnaX := pnaX; pnaY := pnaY; Zx := Zx; Zy := Zy |}
    | _ =>
        (* An extreme is still infinite only when there is no vertex at
           all; the area test above excludes it
           (see [boundingBox_finite_of_area]). *)
        {| pnaX := 0; pnaY := 0; Zx := 0; Zy := 0 |}
    end.

(** ** Elastic properties engine *)

(** The extreme-fibre scan of [computeElasticProperties], started at
    [(-Infinity, Infinity, -Infinity, Infinity)]:
    the result is [(yMax, yMin, xMax, xMin)], distances from the centroid. *)
Definition extremeFibers (centroidX centroidY : Q) (allVertices : list Point)
  : ext * ext * ext * ext :=
  fold_left
    (fun '(yMax, yMin, xMax, xMin) v =>
       let dy := y v - centroidY in
       let dx := x v - centroidX in
       (if ext_ltb yMax (Finite dy) then Finite dy else yMax,
        if ext_ltb (Finite dy) yMin then Finite dy else yMin,
        if ext_ltb xMax (Finite dx) then Finite dx else xMax,
        if ext_ltb (Finite dx) xMin then Finite dx else xMin))
    allVertices
    (MinusInfinity, PlusInfinity, MinusInfinity, PlusInfinity).

(** [Math.abs] on an extreme. *)
Definition ext_abs (e : ext) : ext :=
  match e with
  | Finite q => Finite (Qabs q)
  | MinusInfinity | PlusInfinity => PlusInfinity
  end.

(** [Math.abs(d) > 1e-12 ? I / Math.abs(d) : 0]; a finite moment divided
    by [Infinity] is [0]. *)
Definition sectionModulus (I : Q) (d : ext) : Q :=
  if ext_ltb (Finite eps12) (ext_abs d) then
    match ext_abs d with
    | Finite a => I / a
    | MinusInfinity | PlusInfinity => 0
    end
  else 0.

(** The composite quantities up to the principal moments, shared by the
    statements below: net area, centroid and centroidal moments. *)
Record Composite : Type := mkComposite {
  c_area : Q;
  c_centroidX : Q;
  c_centroidY : Q;
  c_Ix : Q;
  c_Iy : Q;
  c_Ixy : Q
}.

Definition elasticNetArea (outer : list Point) (holes : list (list Point)) : Q :=
  let outerArea := polygonArea outer in
  let holeAreas := map polygonArea holes in
  outerArea - fold_left (fun sum a => sum + a) holeAreas 0.

Definition composite (outer : list Point) (holes : list (list Point)) : Composite :=
  let outerArea := polygonArea outer in
  let holeAreas := map polygonArea holes in
  let area := outerArea - fold_left (fun sum a => sum + a) holeAreas 0 in
  let outerCentroid := polygonCentroid outer in
  let '(Qx, Qy) :=
    fold_left
      (fun '(Qx, Qy) '(hole, holeArea) =>
         let hc := polygonCentroid hole in
         (Qx - holeArea * y hc, Qy - holeArea * x hc))
      (combine holes holeAreas)
      (outerArea * y outerCentroid, outerArea * x outerCentroid) in
  let centroidX := Qy / area in
  let centroidY := Qx / area in
  let '(IxOrigin, IyOrigin, IxyOrigin) :=
    fold_left
      (fun '(IxOrigin, IyOrigin, IxyOrigin) hole =>
         (IxOrigin - Qabs (polygonIxOrigin hole),
          IyOrigin - Qabs (polygonIyOrigin hole),
          IxyOrigin - polygonIxyOrigin hole))
      holes
      (Qabs (polygonIxOrigin outer), Qabs (polygonIyOrigin outer),
       polygonIxyOrigin outer) in
  {| c_area := area;
     c_centroidX := centroidX;
     c_centroidY := centroidY;
     c_Ix := IxOrigin - area * centroidY ^ 2;
     c_Iy := IyOrigin - area * centroidX ^ 2;
     c_Ixy := IxyOrigin - area * centroidX * centroidY |}.

Section Elastic.
(** [Math.sqrt] and [Math.atan2]. *)
Variable Math_sqrt : Q -> Q.
Variable Math_atan2 : Q -> Q -> Q.

(** The engine after winding normalisation. *)
Definition elasticOfNormalised (outer : list Point) (holes : list (list Point))
  : ElasticProperties :=
  let area := elasticNetArea outer holes in
  if Qlt_bool area eps12 then zeroElasticProps
  else
    let cmp := composite outer holes in
    let centroidX := c_centroidX cmp in
    let centroidY := c_centroidY cmp in
    let Ix := c_Ix cmp in
    let Iy := c_Iy cmp in
    let Ixy := c_Ixy cmp in
    let Iavg := (Ix + Iy) / 2 in
    let Idiff := (Ix - Iy) / 2 in
    let R := Math_sqrt (Idiff ^ 2 + Ixy ^ 2) in
    let Ix_principal := Iavg + R in
    let Iy_principal := Iavg - R in
    let theta_principal :=
      if Qlt_bool eps12 (Qabs Ixy) then Math_atan2 (- Ixy) Idiff / 2 else 0 in
    let allVertices := concat (outer :: holes) in
    let '(yMax, yMin, xMax, xMin) :=
      extremeFibers centroidX centroidY allVertices in
    let Sx_top := sectionModulus Ix yMax in
    let Sx_bot := sectionModulus Ix yMin in
    let Sy_right := sectionModulus Iy xMax in
    let Sy_left := sectionModulus Iy xMin in
    let rx := Math_sqrt (Ix / area) in
    let ry := Math_sqrt (Iy / area) in
    {| area := area;
       centroidX := centroidX;
       centroidY := centroidY;
       Ix := Ix;
       Iy := Iy;
       Ixy := Ixy;
       Ix_principal := Ix_principal;
       Iy_principal := Iy_principal;
       theta_principal := theta_principal;
       Sx_top := Sx_top;
       Sx_bot := Sx_bot;
       Sy_left := Sy_left;
       Sy_right := Sy_right;
       rx := rx;
       ry := ry |}.

Definition computeElasticProperties (section : CrossSection) : ElasticProperties :=
  let outer := ensureCCW (outerBoundary section) in
  let holes := map ensureCW (holes section) in
  elasticOfNormalised outer holes.

Definition computeSectionProperties (section : CrossSection) : SectionProperties :=
  let elastic := computeElasticProperties section in
  let plastic := computePlasticProperties section in
  {| elastic := elastic; plastic := plastic |}.

End Elastic.

(** ** Inputs the model is run on *)

Definition pt (a b : Q) : Point := {| x := a; y := b |}.

(** The rectangle (0,0),(10,0),(10,8),(0,8) without holes. *)
Definition rect_10x8 : CrossSection :=
  {| outerBoundary := [pt 0 0; pt 10 0; pt 10 8; pt 0 8]; holes := [] |}.

(** A rational stand-in for [Math.sqrt] when the model is run: the
    floor of the square root of the integer part. *)
Definition floor_sqrt (q : Q) : Q :=
  inject_Z (Z.sqrt (Qnum q / Zpos (Qden q))).

Definition no_atan2 (_ _ : Q) : Q := 0.

(** * Part I, continued.  The embedding of [src/utils/dxfImport.ts]

    The importer reads the entities a DXF parser returns and turns them
    into one cross-section.  The parser ([DxfParser.parseSync]) is not
    part of the repository: it is a parameter, with what the importer
    can observe of a call as its result.  [Math.sqrt], [Math.atan2],
    [Math.cos], [Math.sin] and [Math.PI] are parameters as well.  The
    texts of the warnings and errors are told apart by a constructor
    each. *)

Module DxfImport.

(** A vertex of a polyline entity, [{x, y, bulge?}]: [position] holds
    the fields [x] and [y]. *)
Record RawVertex : Type := mkRawVertex {
  position : Point;
  bulge : option Q
}.

(** The values of [entity.type] the importer tells apart. *)
Inductive EntityType : Type :=
| LWPOLYLINE | POLYLINE | LINE | CIRCLE | ARC | OtherEntity.

(** [DxfEntity]; the fields [startAngle] and [endAngle] are never read. *)
Record DxfEntity : Type := mkDxfEntity {
  type : EntityType;
  vertices : option (list RawVertex);
  shape : option bool;
  center : option Point;
  radius : option Q
}.

Record DxfData : Type := mkDxfData {
  entities : option (list DxfEntity)
}.

(** What a call of the parser does: it throws [e] ([Some] of its message
    when [e instanceof Error]), or returns data or [null]. *)
Inductive ParseOutcome : Type :=
| Throws (message : option String.string)
| Returns (dxf : option DxfData).

Inductive Warning : Type :=
| LineEntitiesFound
| ArcEntityFound
| OpenPolylineDetected
(** [Found n closed regions ... n - 1 smaller region(s) ...] *)
| ClosedRegionsFound (n : nat).

Inductive ErrorText : Type :=
| FailedToParse
| NoClosedPolylines
(** [DXF parsing error: message], or [Unknown error] for [None] *)
| ParsingError (message : option String.string).

Record DxfImportResult : Type := mkDxfImportResult {
  success : bool;
  sections : list CrossSection;
  warnings : list Warning;
  error : option ErrorText
}.

(** An entry of [polylineAreas]. *)
Record PolylineArea : Type := mkPolylineArea {
  index : nat;
  area : Q
}.

Definition computeSignedArea (vertices : list Point) : Q :=
  let area :=
    fold_left
      (fun area '(vi, vj) => area + x vi * y vj - x vj * y vi)
      (cyclic_pairs vertices) 0 in
  area / 2.

(** [Array.prototype.sort(compareFn)]: a stable sort, here by insertion;
    [a] stays before [b] unless [compareFn(a, b) > 0]. *)
Fixpoint insertSorted {A : Type} (compareFn : A -> A -> Q) (a : A)
         (l : list A) : list A :=
  match l with
  | [] => [a]
  | b :: l' =>
      if Qlt_bool 0 (compareFn a b) then b :: insertSorted compareFn a l'
      else a :: l
  end.

Definition sort {A : Type} (compareFn : A -> A -> Q) (l : list A) : list A :=
  fold_right (insertSorted compareFn) [] l.

Section Importer.
Variable Math_sqrt : Q -> Q.
Variable Math_atan2 : Q -> Q -> Q.
Variables Math_cos Math_sin : Q -> Q.
Variable Math_PI : Q.
Variable parseSync : String.string -> ParseOutcome.

Definition generateCircleVertices (cx cy r : Q) (n : nat) : list Point :=
  map (fun i =>
         let angle :=
           (2 * Math_PI * inject_Z (Z.of_nat i)) / inject_Z (Z.of_nat n) in
         {| x := cx + r * Math_cos angle; y := cy + r * Math_sin angle |})
      (seq 0 n).

Definition bulgeToArcPoints (x1 y1 x2 y2 bulge : Q) (numSegments : nat)
  : list Point :=
  let dx := x2 - x1 in
  let dy := y2 - y1 in
  let dist := Math_sqrt (dx * dx + dy * dy) in
  if Qlt_bool dist eps10 then [{| x := x1; y := y1 |}; {| x := x2; y := y2 |}]
  else
    let sagitta := (dist / 2) * Qabs bulge in
    let radius := ((dist / 2) ^ 2 + sagitta ^ 2) / (2 * sagitta) in
    let mx := (x1 + x2) / 2 in
    let my := (y1 + y2) / 2 in
    let nx := (- dy) / dist in
    let ny := dx / dist in
    let sign := if Qlt_bool 0 bulge then 1 else - (1) in
    let d := radius - sagitta in
    let cx := mx + sign * d * nx in
    let cy := my + sign * d * ny in
    let startAngle := Math_atan2 (y1 - cy) (x1 - cx) in
    let endAngle := Math_atan2 (y2 - cy) (x2 - cx) in
    let sweep := endAngle - startAngle in
    let sweep :=
      if Qlt_bool 0 bulge && Qlt_bool sweep 0 then sweep + 2 * Math_PI
      else sweep in
    let sweep :=
      if Qlt_bool bulge 0 && Qlt_bool 0 sweep then sweep - 2 * Math_PI
      else sweep in
    map (fun i =>
           let t := inject_Z (Z.of_nat i) / inject_Z (Z.of_nat numSegments) in
           let angle := startAngle + t * sweep in
           {| x := cx + radius * Math_cos angle;
              y := cy + radius * Math_sin angle |})
        (seq 0 (numSegments + 1)).

(** The test [v.bulge && Math.abs(v.bulge) > 0.001]: a missing bulge and
    the bulge 0 are falsy. *)
Definition hasBulge (v : RawVertex) : bool :=
  match bulge v with
  | Some b => negb (Qeq_bool b 0) && Qlt_bool (1 # 1000) (Qabs b)
  | None => false
  end.

Definition noVertex : RawVertex := {| position := origin; bulge := None |}.

(** One turn of the loop of [extractPolylineVertices]. *)
Definition extractStep (rawVerts : list RawVertex) (vertices : list Point)
           (i : nat) : list Point :=
  let v := nth i rawVerts noVertex in
  let vertices := vertices ++ [{| x := x (position v); y := y (position v) |}] in
  match bulge v with
  | Some b =>
      if negb (Qeq_bool b 0) && Qlt_bool (1 # 1000) (Qabs b) then
        let nextV := nth ((i + 1) mod length rawVerts) rawVerts noVertex in
        let arcPts :=
          bulgeToArcPoints (x (position v)) (y (position v))
                           (x (position nextV)) (y (position nextV)) b 16 in
        vertices
        ++ map (fun j => nth j arcPts origin) (seq 1 (length arcPts - 2))
      else vertices
  | None => vertices
  end.

(** [extractPolylineVertices(entity, warnings)] returns the vertices;
    what it pushes onto [warnings] is returned with them. *)
Definition extractPolylineVertices (entity : DxfEntity)
           (warnings : list Warning) : list Point * list Warning :=
  let rawVerts := match vertices entity with Some vs => vs | None => [] end in
  let vertices :=
    fold_left (extractStep rawVerts) (seq 0 (length rawVerts)) [] in
  let isShape := match shape entity with Some b => b | None => false end in
  if negb isShape && (3 <=? length vertices)%nat then
    let first := nth 0 vertices origin in
    let last := nth (length vertices - 1) vertices origin in
    let dist :=
      Math_sqrt ((x first - x last) ^ 2 + (y first - y last) ^ 2) in
    if Qlt_bool (1 # 100) dist
    then (vertices, warnings ++ [OpenPolylineDetected])
    else (vertices, warnings)
  else (vertices, warnings).

(** One turn of the loop over the entities, on [(polylines, warnings)]. *)
Definition entityStep (acc : list (list Point) * list Warning)
           (entity : DxfEntity) : list (list Point) * list Warning :=
  let '(polylines, warnings) := acc in
  match type entity with
  | LWPOLYLINE | POLYLINE =>
      let '(vertices, warnings) := extractPolylineVertices entity warnings in
      if (3 <=? length vertices)%nat
      then (polylines ++ [vertices], warnings)
      else (polylines, warnings)
  | LINE => (polylines, warnings ++ [LineEntitiesFound])
  | CIRCLE =>
      match center entity, radius entity with
      | Some c, Some r =>
          if negb (Qeq_bool r 0)
          then (polylines ++ [generateCircleVertices (x c) (y c) r 64],
                warnings)
          else (polylines, warnings)
      | _, _ => (polylines, warnings)
      end
  | ARC => (polylines, warnings ++ [ArcEntityFound])
  | OtherEntity => (polylines, warnings)
  end.

(** The polylines and warnings collected from the entities. *)
Definition collect (ents : list DxfEntity) : list (list Point) * list Warning :=
  fold_left entityStep ents ([], []).

Definition parseDxfFile (content : String.string) : DxfImportResult :=
  match parseSync content with
  | Throws message =>
      {| success := false; sections := []; warnings := [];
         error := Some (ParsingError message) |}
  | Returns None
  | Returns (Some {| entities := None |}) =>
      {| success := false; sections := []; warnings := [];
         error := Some FailedToParse |}
  | Returns (Some {| entities := Some ents |}) =>
      let '(polylines, warnings) := collect ents in
      if (length polylines =? 0)%nat then
        {| success := false; sections := []; warnings := warnings;
           error := Some NoClosedPolylines |}
      else
        let polylineAreas :=
          map (fun '(i, p) =>
                 {| index := i; area := Qabs (computeSignedArea p) |})
              (combine (seq 0 (length polylines)) polylines) in
        let polylineAreas :=
          sort (fun a b => area b - area a) polylineAreas in
        let outerIdx :=
          index (nth 0 polylineAreas {| index := 0; area := 0 |}) in
        let holeIndices := map index (skipn 1 polylineAreas) in
        let sections :=
          [{| outerBoundary := nth outerIdx polylines [];
              holes := map (fun i => nth i polylines []) holeIndices |}] in
        let warnings :=
          if (1 <? length polylines)%nat
          then warnings ++ [ClosedRegionsFound (length polylines)]
          else warnings in
        {| success := true; sections := sections; warnings := warnings;
           error := None |}
  end.

End Importer.

End DxfImport.

(** * Part I, continued.  The rectangle helper of the tests *)

(** [makeRect(x0, y0, x1, y1)] of the test suite: the rectangle from
    [(x0, y0)] to [(x1, y1)], counter-clockwise when [x0 < x1] and
    [y0 < y1]. *)
Definition makeRect (x0 y0 x1 y1 : Q) : list Point :=
  [{| x := x0; y := y0 |};
   {| x := x1; y := y0 |};
   {| x := x1; y := y1 |};
   {| x := x0; y := y1 |}].

(** * Part I, continued.  The embedding of [src/utils/shapeTemplates.ts]

    A template holds the ranges of its parameters and the function that
    generates the geometry.  The parameters come as a record keyed by
    name ([Record<string, number>]), here a function from names to
    numbers; the texts shown to the user ([name], [description], [label],
    [unit]) are left out.  [Math.cos], [Math.sin] and [Math.PI] are
    parameters. *)

Module ShapeTemplates.

Inductive ShapeType : Type :=
| rectangle | hollow_rectangle | circle | hollow_circle | t_shape
| l_shape | c_shape | wide_flange | double_angle | stacked_rectangles.

Record ShapeParameter : Type := mkShapeParameter {
  key : String.string;
  min : Q;
  max : Q;
  step : Q;
  defaultValue : Q
}.

Record ShapeTemplate : Type := mkShapeTemplate {
  type : ShapeType;
  parameters : list ShapeParameter;
  generateGeometry : (String.string -> Q) -> CrossSection
}.

Section Templates.
Variables Math_cos Math_sin : Q -> Q.
Variable Math_PI : Q.

(** [circleVertices(cx, cy, r, n = 64)]. *)
Definition circleVertices (cx cy r : Q) (n : nat) : list Point :=
  map (fun i =>
         let angle :=
           (2 * Math_PI * inject_Z (Z.of_nat i)) / inject_Z (Z.of_nat n) in
         {| x := cx + r * Math_cos angle; y := cy + r * Math_sin angle |})
      (seq 0 n).

Definition rectangleTemplate : ShapeTemplate :=
  {| type := rectangle;
     parameters :=
       [{| key := "b"%string; min := 1 # 10; max := 100; step := 1 # 8;
           defaultValue := 6 |};
        {| key := "h"%string; min := 1 # 10; max := 100; step := 1 # 8;
           defaultValue := 8 |}];
     generateGeometry := fun params =>
       let b := params "b"%string in
       let h := params "h"%string in
       {| outerBoundary :=
            [{| x := 0; y := 0 |}; {| x := b; y := 0 |};
             {| x := b; y := h |}; {| x := 0; y := h |}];
          holes := [] |} |}.

Definition hollowRectangleTemplate : ShapeTemplate :=
  {| type := hollow_rectangle;
     parameters :=
       [{| key := "B"%string; min := 1 # 2; max := 100; step := 1 # 8;
           defaultValue := 8 |};
        {| key := "H"%string; min := 1 # 2; max := 100; step := 1 # 8;
           defaultValue := 10 |};
        {| key := "t"%string; min := 1 # 16; max := 10; step := 1 # 16;
           defaultValue := 1 # 2 |}];
     generateGeometry := fun params =>
       let B := params "B"%string in
       let H := params "H"%string in
       let t := params "t"%string in
       let tClamped := Qmin t (Qmin B H / 2 - (1 # 100)) in
       {| outerBoundary :=
            [{| x := 0; y := 0 |}; {| x := B; y := 0 |};
             {| x := B; y := H |}; {| x := 0; y := H |}];
          holes :=
            [[{| x := tClamped; y := tClamped |};
              {| x := B - tClamped; y := tClamped |};
              {| x := B - tClamped; y := H - tClamped |};
              {| x := tClamped; y := H - tClamped |}]] |} |}.

Definition circleTemplate : ShapeTemplate :=
  {| type := circle;
     parameters :=
       [{| key := "d"%string; min := 1 # 10; max := 100; step := 1 # 8;
           defaultValue := 8 |}];
     generateGeometry := fun params =>
       let r := params "d"%string / 2 in
       {| outerBoundary := circleVertices r r r 64; holes := [] |} |}.

Definition hollowCircleTemplate : ShapeTemplate :=
  {| type := hollow_circle;
     parameters :=
       [{| key := "D"%string; min := 1 # 2; max := 100; step := 1 # 8;
           defaultValue := 10 |};
        {| key := "t"%string; min := 1 # 16; max := 10; step := 1 # 16;
           defaultValue := 1 # 2 |}];
     generateGeometry := fun params =>
       let R := params "D"%string / 2 in
       let tClamped := Qmin (params "t"%string) (R - (1 # 100)) in
       let r := R - tClamped in
       {| outerBoundary := circleVertices R R R 64;
          holes := [circleVertices R R r 64] |} |}.

Definition tShapeTemplate : ShapeTemplate :=
  {| type := t_shape;
     parameters :=
       [{| key := "bf"%string; min := 1 # 2; max := 100; step := 1 # 8;
           defaultValue := 8 |};
        {| key := "tf"%string; min := 1 # 10; max := 20; step := 1 # 16;
           defaultValue := 3 # 4 |};
        {| key := "hw"%string; min := 1 # 2; max := 100; step := 1 # 8;
           defaultValue := 8 |};
        {| key := "tw"%string; min := 1 # 10; max := 20; step := 1 # 16;
           defaultValue := 1 # 2 |}];
     generateGeometry := fun params =>
       let bf := params "bf"%string in
       let tf := params "tf"%string in
       let hw := params "hw"%string in
       let tw := params "tw"%string in
       let totalH := hw + tf in
       let webLeft := (bf - tw) / 2 in
       let webRight := webLeft + tw in
       {| outerBoundary :=
            [{| x := webLeft; y := 0 |};
             {| x := webRight; y := 0 |};
             {| x := webRight; y := hw |};
             {| x := bf; y := hw |};
             {| x := bf; y := totalH |};
             {| x := 0; y := totalH |};
             {| x := 0; y := hw |};
             {| x := webLeft; y := hw |}];
          holes := [] |} |}.

Definition lShapeTemplate : ShapeTemplate :=
  {| type := l_shape;
     parameters :=
       [{| key := "b"%string; min := 1 # 2; max := 100; step := 1 # 8;
           defaultValue := 6 |};
        {| key := "h"%string; min := 1 # 2; max := 100; step := 1 # 8;
           defaultValue := 6 |};
        {| key := "t"%string; min := 1 # 10; max := 20; step := 1 # 16;
           defaultValue := 1 # 2 |}];
     generateGeometry := fun params =>
       let b := params "b"%string in
       let h := params "h"%string in
       let t := params "t"%string in
       {| outerBoundary :=
            [{| x := 0; y := 0 |};
             {| x := b; y := 0 |};
             {| x := b; y := t |};
             {| x := t; y := t |};
             {| x := t; y := h |};
             {| x := 0; y := h |}];
          holes := [] |} |}.

Definition cShapeTemplate : ShapeTemplate :=
  {| type := c_shape;
     parameters :=
       [{| key := "H"%string; min := 1; max := 100; step := 1 # 8;
           defaultValue := 10 |};
        {| key := "bf"%string; min := 1 # 2; max := 50; step := 1 # 8;
           defaultValue := 3 |};
        {| key := "tf"%string; min := 1 # 10; max := 10; step := 1 # 16;
           defaultValue := 1 # 2 |};
        {| key := "tw"%string; min := 1 # 10; max := 10; step := 1 # 16;
           defaultValue := 3 # 8 |}];
     generateGeometry := fun params =>
       let H := params "H"%string in
       let bf := params "bf"%string in
       let tf := params "tf"%string in
       let tw := params "tw"%string in
       {| outerBoundary :=
            [{| x := 0; y := 0 |};
             {| x := bf; y := 0 |};
             {| x := bf; y := tf |};
             {| x := tw; y := tf |};
             {| x := tw; y := H - tf |};
             {| x := bf; y := H - tf |};
             {| x := bf; y := H |};
             {| x := 0; y := H |}];
          holes := [] |} |}.

Definition wideFlangeTemplate : ShapeTemplate :=
  {| type := wide_flange;
     parameters :=
       [{| key := "d"%string; min := 2; max := 100; step := 1 # 8;
           defaultValue := 12 |};
        {| key := "bf"%string; min := 1; max := 50; step := 1 # 8;
           defaultValue := 8 |};
        {| key := "tf"%string; min := 1 # 10; max := 10; step := 1 # 16;
           defaultValue := 3 # 4 |};
        {| key := "tw"%string; min := 1 # 10; max := 10; step := 1 # 16;
           defaultValue := 1 # 2 |}];
     generateGeometry := fun params =>
       let d := params "d"%string in
       let bf := params "bf"%string in
       let tf := params "tf"%string in
       let tw := params "tw"%string in
       let webLeft := (bf - tw) / 2 in
       let webRight := webLeft + tw in
       {| outerBoundary :=
            [{| x := 0; y := 0 |};
             {| x := bf; y := 0 |};
             {| x := bf; y := tf |};
             {| x := webRight; y := tf |};
             {| x := webRight; y := d - tf |};
             {| x := bf; y := d - tf |};
             {| x := bf; y := d |};
             {| x := 0; y := d |};
             {| x := 0; y := d - tf |};
             {| x := webLeft; y := d - tf |};
             {| x := webLeft; y := tf |};
             {| x := 0; y := tf |}];
          holes := [] |} |}.

Definition doubleAngleTemplate : ShapeTemplate :=
  {| type := double_angle;
     parameters :=
       [{| key := "b"%string; min := 1 # 2; max := 50; step := 1 # 8;
           defaultValue := 4 |};
        {| key := "h"%string; min := 1 # 2; max := 50; step := 1 # 8;
           defaultValue := 4 |};
        {| key := "t"%string; min := 1 # 10; max := 10; step := 1 # 16;
           defaultValue := 3 # 8 |};
        {| key := "g"%string; min := 0; max := 10; step := 1 # 16;
           defaultValue := 3 # 4 |}];
     generateGeometry := fun params =>
       let b := params "b"%string in
       let h := params "h"%string in
       let t := params "t"%string in
       let g := params "g"%string in
       let totalW := 2 * b + g in
       if Qlt_bool g (1 # 1000) then
         {| outerBoundary :=
              [{| x := 0; y := 0 |};
               {| x := totalW; y := 0 |};
               {| x := totalW; y := t |};
               {| x := b + t; y := t |};
               {| x := b + t; y := h |};
               {| x := b - t; y := h |};
               {| x := b - t; y := t |};
               {| x := 0; y := t |}];
            holes := [] |}
       else
         let outerBoundary :=
           [{| x := 0; y := 0 |};
            {| x := totalW; y := 0 |};
            {| x := totalW; y := h |};
            {| x := 0; y := h |}] in
         let hole1 :=
           [{| x := 0; y := t |};
            {| x := b - t; y := t |};
            {| x := b - t; y := h |};
            {| x := 0; y := h |}] in
         let hole2 :=
           [{| x := b; y := 0 |};
            {| x := b + g; y := 0 |};
            {| x := b + g; y := h |};
            {| x := b; y := h |}] in
         let hole3 :=
           [{| x := b + g + t; y := t |};
            {| x := totalW; y := t |};
            {| x := totalW; y := h |};
            {| x := b + g + t; y := h |}] in
         {| outerBoundary := outerBoundary;
            holes := [hole1; hole2; hole3] |} |}.

Definition stackedRectanglesTemplate : ShapeTemplate :=
  {| type := stacked_rectangles;
     parameters :=
       [{| key := "b1"%string; min := 1 # 10; max := 100; step := 1 # 8;
           defaultValue := 10 |};
        {| key := "h1"%string; min := 1 # 10; max := 100; step := 1 # 8;
           defaultValue := 2 |};
        {| key := "b2"%string; min := 1 # 10; max := 100; step := 1 # 8;
           defaultValue := 6 |};
        {| key := "h2"%string; min := 1 # 10; max := 100; step := 1 # 8;
           defaultValue := 8 |}];
     generateGeometry := fun params =>
       let b1 := params "b1"%string in
       let h1 := params "h1"%string in
       let b2 := params "b2"%string in
       let h2 := params "h2"%string in
       let maxW := Qmax b1 b2 in
       let x1L := (maxW - b1) / 2 in
       let x1R := x1L + b1 in
       let x2L := (maxW - b2) / 2 in
       let x2R := x2L + b2 in
       if Qlt_bool (Qabs (b1 - b2)) (1 # 1000) then
         {| outerBoundary :=
              [{| x := x1L; y := 0 |};
               {| x := x1R; y := 0 |};
               {| x := x1R; y := h1 + h2 |};
               {| x := x1L; y := h1 + h2 |}];
            holes := [] |}
       else
         {| outerBoundary :=
              [{| x := x1L; y := 0 |};
               {| x := x1R; y := 0 |};
               {| x := x1R; y := h1 |};
               {| x := x2R; y := h1 |};
               {| x := x2R; y := h1 + h2 |};
               {| x := x2L; y := h1 + h2 |};
               {| x := x2L; y := h1 |};
               {| x := x1L; y := h1 |}];
            holes := [] |} |}.

Definition shapeTemplates : list ShapeTemplate :=
  [rectangleTemplate; hollowRectangleTemplate; circleTemplate;
   hollowCircleTemplate; tShapeTemplate; lShapeTemplate; cShapeTemplate;
   wideFlangeTemplate; doubleAngleTemplate; stackedRectanglesTemplate].

End Templates.

End ShapeTemplates.

(** * Part I, continued.  [src/utils/sectionCalculations.ts] in binary64

    The second embedding keeps a JavaScript [number] as what it is, an
    IEEE 754 binary64 value (the primitive [float]): every operation
    rounds to nearest, overflows to an infinity and propagates NaN as
    the source does, and a comparison with NaN is false.  The functions
    are those of the first embedding, line by line, with the arithmetic
    of [PrimFloat] in place of the exact one; the two infinite start
    values of the scans are the floats themselves.  [x ** 2] is the
    product [x * x], [Math.sqrt] the correctly rounded square root, and
    [Math.atan2] stays a parameter.  The code is run on this embedding
    where magnitude matters: overflow and cancellation. *)

Module Binary64.

Import Corelib.Floats.PrimFloat.
#[local] Set Warnings "-inexact-float".
Local Open Scope float_scope.

Record Point : Type := mkPoint { x : float; y : float }.

Record CrossSection : Type := mkCrossSection {
  outerBoundary : list Point;
  holes : list (list Point)
}.

Record ElasticProperties : Type := mkElastic {
  area : float;
  centroidX : float;
  centroidY : float;
  Ix : float;
  Iy : float;
  Ixy : float;
  Ix_principal : float;
  Iy_principal : float;
  theta_principal : float;
  Sx_top : float;
  Sx_bot : float;
  Sy_left : float;
  Sy_right : float;
  rx : float;
  ry : float
}.

Record PlasticProperties : Type := mkPlastic {
  pnaX : float;
  pnaY : float;
  Zx : float;
  Zy : float
}.

Definition origin : Point := {| x := 0; y := 0 |}.

Definition cyclic_pairs (vertices : list Point) : list (Point * Point) :=
  let n := length vertices in
  map (fun i => (nth i vertices origin, nth ((i + 1) mod n) vertices origin))
      (seq 0 n).

Definition signedPolygonArea (vertices : list Point) : float :=
  let n := length vertices in
  if (n <? 3)%nat then 0
  else
    let area :=
      fold_left
        (fun area '(vi, vj) => area + x vi * y vj - x vj * y vi)
        (cyclic_pairs vertices) 0 in
    area / 2.

Definition polygonArea (vertices : list Point) : float :=
  abs (signedPolygonArea vertices).

Definition polygonCentroid (vertices : list Point) : Point :=
  let n := length vertices in
  if (n <? 3)%nat then {| x := 0; y := 0 |}
  else
    let A := signedPolygonArea vertices in
    if abs A <? 1e-12 then {| x := 0; y := 0 |}
    else
      let '(cx, cy) :=
        fold_left
          (fun '(cx, cy) '(vi, vj) =>
             let cross := x vi * y vj - x vj * y vi in
             (cx + (x vi + x vj) * cross, cy + (y vi + y vj) * cross))
          (cyclic_pairs vertices) (0, 0) in
      {| x := cx / (6 * A); y := cy / (6 * A) |}.

Definition polygonIxOrigin (vertices : list Point) : float :=
  let n := length vertices in
  if (n <? 3)%nat then 0
  else
    let Ix :=
      fold_left
        (fun Ix '(vi, vj) =>
           let cross := x vi * y vj - x vj * y vi in
           Ix + (y vi * y vi + y vi * y vj + y vj * y vj) * cross)
        (cyclic_pairs vertices) 0 in
    Ix / 12.

Definition polygonIyOrigin (vertices : list Point) : float :=
  let n := length vertices in
  if (n <? 3)%nat then 0
  else
    let Iy :=
      fold_left
        (fun Iy '(vi, vj) =>
           let cross := x vi * y vj - x vj * y vi in
           Iy + (x vi * x vi + x vi * x vj + x vj * x vj) * cross)
        (cyclic_pairs vertices) 0 in
    Iy / 12.

Definition polygonIxyOrigin (vertices : list Point) : float :=
  let n := length vertices in
  if (n <? 3)%nat then 0
  else
    let Ixy :=
      fold_left
        (fun Ixy '(vi, vj) =>
           let cross := x vi * y vj - x vj * y vi in
           Ixy + (x vi * y vj + 2 * x vi * y vi + 2 * x vj * y vj
                  + x vj * y vi) * cross)
        (cyclic_pairs vertices) 0 in
    Ixy / 24.

Definition ensureCCW (vertices : list Point) : list Point :=
  let area := signedPolygonArea vertices in
  if area <? 0 then rev vertices else vertices.

Definition ensureCW (vertices : list Point) : list Point :=
  let area := signedPolygonArea vertices in
  if 0 <? area then rev vertices else vertices.

Definition zeroElasticProps : ElasticProperties :=
  {| area := 0; centroidX := 0; centroidY := 0;
     Ix := 0; Iy := 0; Ixy := 0;
     Ix_principal := 0; Iy_principal := 0; theta_principal := 0;
     Sx_top := 0; Sx_bot := 0; Sy_left := 0; Sy_right := 0;
     rx := 0; ry := 0 |}.

Definition isInside (point : Point) (cutValue : float)
           (direction : Direction) (keepSide : Side) : bool :=
  let val :=
    match direction with horizontal => y point | vertical => x point end in
  match keepSide with
  | below => val <=? cutValue
  | above => cutValue <=? val
  end.

Definition intersect (p1 p2 : Point) (cutValue : float) (direction : Direction)
  : Point :=
  match direction with
  | horizontal =>
      if abs (y p2 - y p1) <? 1e-12 then p1
      else
        let t := (cutValue - y p1) / (y p2 - y p1) in
        {| x := x p1 + t * (x p2 - x p1); y := cutValue |}
  | vertical =>
      if abs (x p2 - x p1) <? 1e-12 then p1
      else
        let t := (cutValue - x p1) / (x p2 - x p1) in
        {| x := cutValue; y := y p1 + t * (y p2 - y p1) |}
  end.

Definition clipStep (cutValue : float) (direction : Direction)
           (keepSide : Side) (output : list Point) (edge : Point * Point)
  : list Point :=
  let '(current, next) := edge in
  let currentInside := isInside current cutValue direction keepSide in
  let nextInside := isInside next cutValue direction keepSide in
  if currentInside then
    let output := output ++ [current] in
    if negb nextInside
    then output ++ [intersect current next cutValue direction]
    else output
  else if nextInside
       then output ++ [intersect current next cutValue direction]
       else output.

Definition clipPolygon (vertices : list Point) (cutValue : float)
           (direction : Direction) (keepSide : Side) : list Point :=
  if (length vertices <? 3)%nat then []
  else fold_left (clipStep cutValue direction keepSide)
                 (cyclic_pairs vertices) [].

Definition computeNetArea (outer : list Point) (holes : list (list Point))
  : float :=
  fold_left (fun area hole => area - polygonArea hole) holes (polygonArea outer).

Definition computeAreaOneSide (outer : list Point) (holes : list (list Point))
           (cutValue : float) (direction : Direction) (side : Side) : float :=
  let outerClipped := clipPolygon outer cutValue direction side in
  fold_left
    (fun area hole =>
       let holeClipped := clipPolygon hole cutValue direction side in
       area - polygonArea holeClipped)
    holes (polygonArea outerClipped).

Definition firstMomentAboutAxis (vertices : list Point) (axisValue : float)
           (direction : Direction) : float :=
  if (length vertices <? 3)%nat then 0
  else
    let A := polygonArea vertices in
    let c := polygonCentroid vertices in
    match direction with
    | horizontal => A * (y c - axisValue)
    | vertical => A * (x c - axisValue)
    end.

Definition computePlasticModulus (outer : list Point)
           (holes : list (list Point)) (pna : float) (direction : Direction)
  : float :=
  let outerAbove := clipPolygon outer pna direction above in
  let outerBelow := clipPolygon outer pna direction below in
  let '(momentAbove, momentBelow) :=
    fold_left
      (fun '(momentAbove, momentBelow) hole =>
         let holeAbove := clipPolygon hole pna direction above in
         let holeBelow := clipPolygon hole pna direction below in
         (momentAbove - firstMomentAboutAxis holeAbove pna direction,
          momentBelow - firstMomentAboutAxis holeBelow pna direction))
      holes
      (firstMomentAboutAxis outerAbove pna direction,
       firstMomentAboutAxis outerBelow pna direction) in
  abs momentAbove + abs momentBelow.

(** The loop of [findPNA], as a recursion on the turns still allowed. *)
Fixpoint findPNA_loop (outer : list Point) (holes : list (list Point))
         (totalArea : float) (direction : Direction)
         (remaining : nat) (lo hi : float) : float :=
  match remaining with
  | O => (lo + hi) / 2
  | S remaining' =>
      let halfArea := totalArea / 2 in
      let mid := (lo + hi) / 2 in
      let areaBelow := computeAreaOneSide outer holes mid direction below in
      if abs (areaBelow - halfArea) <? totalArea * 1e-10 then mid
      else if areaBelow <? halfArea
           then findPNA_loop outer holes totalArea direction remaining' mid hi
           else findPNA_loop outer holes totalArea direction remaining' lo mid
  end.

Definition findPNA (outer : list Point) (holes : list (list Point))
           (totalArea minVal maxVal : float) (direction : Direction) : float :=
  findPNA_loop outer holes totalArea direction 100 minVal maxVal.

(** The bounding-box scan on [(yMin, yMax, xMin, xMax)]. *)
Definition boundingBox (allVerts : list Point)
  : float * float * float * float :=
  fold_left
    (fun '(yMin, yMax, xMin, xMax) v =>
       (if y v <? yMin then y v else yMin,
        if yMax <? y v then y v else yMax,
        if x v <? xMin then x v else xMin,
        if xMax <? x v then x v else xMax))
    allVerts (infinity, neg_infinity, infinity, neg_infinity).

Definition computePlasticProperties (section : CrossSection)
  : PlasticProperties :=
  let outer := ensureCCW (outerBoundary section) in
  let holes := map ensureCW (holes section) in
  let totalArea := computeNetArea outer holes in
  if totalArea <? 1e-12 then
    {| pnaX := 0; pnaY := 0; Zx := 0; Zy := 0 |}
  else
    let allVerts := concat (outer :: holes) in
    let '(yMin, yMax, xMin, xMax) := boundingBox allVerts in
    let pnaX := findPNA outer holes totalArea yMin yMax horizontal in
    let Zx := computePlasticModulus outer holes pnaX horizontal in
    let pnaY := findPNA outer holes totalArea xMin xMax vertical in
    let Zy := computePlasticModulus outer holes pnaY vertical in
    {| pnaX := pnaX; pnaY := pnaY; Zx := Zx; Zy := Zy |}.

(** The extreme-fibre scan on [(yMax, yMin, xMax, xMin)]. *)
Definition extremeFibers (centroidX centroidY : float)
           (allVertices : list Point) : float * float * float * float :=
  fold_left
    (fun '(yMax, yMin, xMax, xMin) v =>
       let dy := y v - centroidY in
       let dx := x v - centroidX in
       (if yMax <? dy then dy else yMax,
        if dy <? yMin then dy else yMin,
        if xMax <? dx then dx else xMax,
        if dx <? xMin then dx else xMin))
    allVertices (neg_infinity, infinity, neg_infinity, infinity).

Definition sectionModulus (I d : float) : float :=
  if 1e-12 <? abs d then I / abs d else 0.

Definition computeElasticProperties (Math_atan2 : float -> float -> float)
           (section : CrossSection) : ElasticProperties :=
  let outer := ensureCCW (outerBoundary section) in
  let holes := map ensureCW (holes section) in
  let outerArea := polygonArea outer in
  let holeAreas := map polygonArea holes in
  let area := outerArea - fold_left (fun sum a => sum + a) holeAreas 0 in
  if area <? 1e-12 then zeroElasticProps
  else
    let outerCentroid := polygonCentroid outer in
    let '(Qx, Qy) :=
      fold_left
        (fun '(Qx, Qy) '(hole, holeArea) =>
           let hc := polygonCentroid hole in
           (Qx - holeArea * y hc, Qy - holeArea * x hc))
        (combine holes holeAreas)
        (outerArea * y outerCentroid, outerArea * x outerCentroid) in
    let centroidX := Qy / area in
    let centroidY := Qx / area in
    let '(IxOrigin, IyOrigin, IxyOrigin) :=
      fold_left
        (fun '(IxOrigin, IyOrigin, IxyOrigin) hole =>
           (IxOrigin - abs (polygonIxOrigin hole),
            IyOrigin - abs (polygonIyOrigin hole),
            IxyOrigin - polygonIxyOrigin hole))
        holes
        (abs (polygonIxOrigin outer), abs (polygonIyOrigin outer),
         polygonIxyOrigin outer) in
    let Ix := IxOrigin - area * (centroidY * centroidY) in
    let Iy := IyOrigin - area * (centroidX * centroidX) in
    let Ixy := IxyOrigin - area * centroidX * centroidY in
    let Iavg := (Ix + Iy) / 2 in
    let Idiff := (Ix - Iy) / 2 in
    let R := sqrt (Idiff * Idiff + Ixy * Ixy) in
    let Ix_principal := Iavg + R in
    let Iy_principal := Iavg - R in
    let theta_principal :=
      if 1e-12 <? abs Ixy then Math_atan2 (- Ixy) Idiff / 2 else 0 in
    let allVertices := concat (outer :: holes) in
    let '(yMax, yMin, xMax, xMin) :=
      extremeFibers centroidX centroidY allVertices in
    {| area := area;
       centroidX := centroidX;
       centroidY := centroidY;
       Ix := Ix;
       Iy := Iy;
       Ixy := Ixy;
       Ix_principal := Ix_principal;
       Iy_principal := Iy_principal;
       theta_principal := theta_principal;
       Sx_top := sectionModulus Ix yMax;
       Sx_bot := sectionModulus Ix yMin;
       Sy_left := sectionModulus Iy xMin;
       Sy_right := sectionModulus Iy xMax;
       rx := sqrt (Ix / area);
       ry := sqrt (Iy / area) |}.

Record SectionProperties : Type := mkSectionProperties {
  elastic : ElasticProperties;
  plastic : PlasticProperties
}.

Definition computeSectionProperties (Math_atan2 : float -> float -> float)
           (section : CrossSection) : SectionProperties :=
  let elastic := computeElasticProperties Math_atan2 section in
  let plastic := computePlasticProperties section in
  {| elastic := elastic; plastic := plastic |}.

(** Inputs the embedding is run on. *)
Definition pt (a b : float) : Point := {| x := a; y := b |}.

Definition makeRect (x0 y0 x1 y1 : float) : list Point :=
  [pt x0 y0; pt x1 y0; pt x1 y1; pt x0 y1].

Definition solid (outer : list Point) : CrossSection :=
  {| outerBoundary := outer; holes := [] |}.

Definition no_atan2 (_ _ : float) : float := 0.



(** The triangle (0.1, 0.2), (1.3, 0.4), (0.7, 1.9), of area 0.96, moved
    by [(o, o)]. *)
Definition triangle_at (o : float) : list Point :=
  [pt (o + 0.1) (o + 0.2); pt (o + 1.3) (o + 0.4); pt (o + 0.7) (o + 1.9)].

(** A quadrilateral 1e13 wide and 1e-12 high, with a vertex on the x
    axis and an edge that rises onto it by 4e-13. *)
Definition wide_quad : list Point :=
  [pt 0 (-5e-13); pt 1e13 (-4e-13); pt 5e12 0; pt 0 5e-13].

End Binary64.

(** * Part II.  Definitions used by the statements *)

(** ** Sums along open and closed vertex paths *)

Definition cross (p q : Point) : Q := x p * y q - x q * y p.

Definition Qsum (l : list Q) : Q := fold_right Qplus 0 l.

(** Sum of [f] over the consecutive pairs of an open path. *)
Fixpoint pathSum (f : Point -> Point -> Q) (l : list Point) : Q :=
  match l with
  | [] => 0
  | a :: t =>
      match t with
      | [] => 0
      | b :: _ => f a b + pathSum f t
      end
  end.

(** Sum of [f] over the pairs a loop of the source visits. *)
Definition closedSum (f : Point -> Point -> Q) (V : list Point) : Q :=
  Qsum (map (fun e => f (fst e) (snd e)) (cyclic_pairs V)).

Definition antisymmetric (f : Point -> Point -> Q) : Prop :=
  forall a b, f a b == - f b a.

(** ** Net area and degenerate sections *)



(** ** Guarded section moduli *)




(** ** Outcome of the bisection search *)

(** The convergence test at the midpoint of the bracket of turn [k]. *)
Definition convergedAtTurn (outer : list Point) (holes : list (list Point))
           (totalArea : Q) (direction : Direction) (minVal maxVal : Q)
           (k : nat) : bool :=
  convergedAt outer holes totalArea direction
    (midpoint (bracket outer holes totalArea direction k minVal maxVal)).

(** What a run reports, in the words of the specification: either turn
    [k] is the first whose midpoint passes the convergence test and the
    run stops there with that midpoint, or no turn below the cap passes
    it and the run ends after [cap] turns with the midpoint of the last
    bracket. *)
Definition searchOutcome (outer : list Point) (holes : list (list Point))
           (totalArea : Q) (direction : Direction) (minVal maxVal : Q)
           (cap : nat) (r : PNASearch) : Prop :=
  (pna_converged r = true /\
   exists k, pna_iterations r = S k /\ (S k <= cap)%nat /\
             (forall j, (j < k)%nat ->
                        convergedAtTurn outer holes totalArea direction
                                        minVal maxVal j = false) /\
             convergedAtTurn outer holes totalArea direction
                             minVal maxVal k = true /\
             pna_value r
             = midpoint (bracket outer holes totalArea direction k minVal maxVal))
  \/
  (pna_converged r = false /\
   pna_iterations r = cap /\
   (forall j, (j < cap)%nat ->
              convergedAtTurn outer holes totalArea direction
                              minVal maxVal j = false) /\
   pna_value r
   = midpoint (bracket outer holes totalArea direction cap minVal maxVal)).

(** ** Bounding box and vertex ranges *)

(** What the scan knows after the vertices [seen]: nothing when there is
    none, and otherwise four finite extremes, each the coordinate of a
    vertex seen, the minimum not above the maximum. *)
Definition boxOf (seen : list Point) (acc : ext * ext * ext * ext) : Prop :=
  match acc with
  | (Finite yMin, Finite yMax, Finite xMin, Finite xMax) =>
      yMin <= yMax /\ xMin <= xMax /\
      (exists v, In v seen /\ y v = yMin) /\
      (exists v, In v seen /\ y v = yMax) /\
      (exists v, In v seen /\ x v = xMin) /\
      (exists v, In v seen /\ x v = xMax)
  | (PlusInfinity, MinusInfinity, PlusInfinity, MinusInfinity) => seen = []
  | _ => False
  end.

(** All vertices of a section, outer boundary first. *)
Definition allVertices (section : CrossSection) : list Point :=
  concat (outerBoundary section :: holes section).






(** ** The range of binary64 *)


(** Every vertex coordinate of the polygon is at most [bound] in
    magnitude. *)
Definition polygonWithin (bound : Q) (V : list Point) : Prop :=
  Forall (fun v => Qabs (x v) <= bound /\ Qabs (y v) <= bound) V.


(** ** Fragments of a clipped polygon *)

(** The coordinate a cut in direction [dir] compares. *)
Definition coord (dir : Direction) (p : Point) : Q :=
  match dir with horizontal => y p | vertical => x p end.

(** The points one turn of the loop of [clipPolygon] pushes. *)
Definition emitted (c : Q) (dir : Direction) (side : Side)
           (edge : Point * Point) : list Point :=
  let '(current, next) := edge in
  if isInside current c dir side then
    if negb (isInside next c dir side)
    then [current; intersect current next c dir]
    else [current]
  else if isInside next c dir side
       then [intersect current next c dir]
       else [].

(** The edges of the open path [a :: t]. *)
Fixpoint edgesOf (a : Point) (t : list Point) : list (Point * Point) :=
  match t with
  | [] => []
  | b :: t' => (a, b) :: edgesOf b t'
  end.

(** The clipper computes an intersection on the edge for one of the two
    sides. *)
Definition edgeCut (c : Q) (dir : Direction) (edge : Point * Point) : bool :=
  let '(p, q) := edge in
  negb (eqb (isInside p c dir below) (isInside q c dir below))
  || negb (eqb (isInside p c dir above) (isInside q c dir above)).

(** The test [Math.abs(p2 - p1) < 1e-12] of [intersect] on the cut
    coordinate. *)
Definition edgeNearParallel (dir : Direction) (edge : Point * Point) : bool :=
  let '(p, q) := edge in
  Qlt_bool (Qabs (coord dir q - coord dir p)) eps12.

(** The edge does not take the near-parallel branch of [intersect] when
    an intersection is computed on it. *)
Definition edgeRegular (c : Q) (dir : Direction) (edge : Point * Point) : bool :=
  negb (edgeCut c dir edge && edgeNearParallel dir edge).

(** No edge of the polygon on which an intersection is computed takes the
    near-parallel branch of [intersect]. *)
Definition noDegenerateCut (V : list Point) (c : Q) (dir : Direction) : bool :=
  forallb (edgeRegular c dir) (cyclic_pairs V).

(** The cross product of two points taken relative to the point [r]. *)
Definition lineMoment (r a b : Point) : Q :=
  (x a - x r) * (y b - y r) - (x b - x r) * (y a - y r).

(** A point on the cut line. *)
Definition basePoint (c : Q) (dir : Direction) : Point :=
  match dir with
  | horizontal => {| x := 0; y := c |}
  | vertical => {| x := c; y := 0 |}
  end.

(** The part of the edge's moment that lies on the kept side. *)
Definition keptMoment (r : Point) (c : Q) (dir : Direction) (side : Side)
           (edge : Point * Point) : Q :=
  let '(p, q) := edge in
  let X := intersect p q c dir in
  match isInside p c dir side, isInside q c dir side with
  | true, true => lineMoment r p q
  | true, false => lineMoment r p X
  | false, true => lineMoment r X q
  | false, false => 0
  end.

(** The point lies on the cut line. *)
Definition onLine (c : Q) (dir : Direction) (p : Point) : Prop :=
  coord dir p == c.

(** What the clipper has pushed along the open path [a :: t], followed by
    the last vertex of the path when that vertex is kept. *)
Definition keptPath (c : Q) (dir : Direction) (side : Side)
           (a : Point) (t : list Point) : list Point :=
  flat_map (emitted c dir side) (edgesOf a t)
  ++ (if isInside (last t a) c dir side then [last t a] else []).

(** ** Simple polygons *)

(** Twice the signed area of the triangle [a b p]. *)
Definition orient (a b p : Point) : Q :=
  (x b - x a) * (y p - y a) - (y b - y a) * (x p - x a).

(** [p] lies on the closed segment [a b]. *)
Definition onSegment (a b p : Point) : bool :=
  Qeq_bool (orient a b p) 0
  && Qle_bool (Qmin (x a) (x b)) (x p) && Qle_bool (x p) (Qmax (x a) (x b))
  && Qle_bool (Qmin (y a) (y b)) (y p) && Qle_bool (y p) (Qmax (y a) (y b)).

(** The closed segments [a b] and [p q] have a point in common. *)
Definition segmentsMeet (a b p q : Point) : bool :=
  (Qlt_bool (orient p q a * orient p q b) 0
   && Qlt_bool (orient a b p * orient a b q) 0)
  || onSegment p q a || onSegment p q b
  || onSegment a b p || onSegment a b q.

(** Edges [i] and [j] of a polygon with [n] edges share a vertex. *)
Definition adjacentEdges (n i j : nat) : bool :=
  Nat.eqb ((i + 1) mod n) j || Nat.eqb ((j + 1) mod n) i.

(** Edges [i < j] of the polygon meet only as the edges of a simple
    polygon may: not at all when they are not neighbours, and only in
    their common vertex when they are. *)
Definition edgesCompatible (V : list Point) (i j : nat) : bool :=
  let n := length V in
  let a := nth i V origin in
  let b := nth ((i + 1) mod n) V origin in
  let p := nth j V origin in
  let q := nth ((j + 1) mod n) V origin in
  if adjacentEdges n i j then
    if Nat.eqb ((i + 1) mod n) j
    then negb (onSegment a b q) && negb (onSegment p q a)
    else negb (onSegment a b p) && negb (onSegment p q b)
  else negb (segmentsMeet a b p q).

(** A simple polygon: at least three vertices, and a boundary that
    neither crosses nor touches itself. *)
Definition simplePolygon (V : list Point) : bool :=
  let n := length V in
  (3 <=? n)%nat
  && forallb (fun i => forallb (fun j => (j <=? i)%nat || edgesCompatible V i j)
                               (seq 0 n))
             (seq 0 n).

(** Every vertex lies on the side [sgn] of every edge ([sgn] is 1 for a
    counter-clockwise and -1 for a clockwise polygon). *)
Definition convexWith (sgn : Q) (V : list Point) : bool :=
  forallb
    (fun e => forallb (fun v => Qle_bool 0 (sgn * orient (fst e) (snd e) v)) V)
    (cyclic_pairs V).

(** A convex polygon, in either winding. *)
Definition convexPolygon (V : list Point) : bool :=
  convexWith 1 V || convexWith (- (1)) V.

(** C2 as it is stated: for every simple polygon and every cut, the
    areas of the two fragments add up to the area of the polygon. *)
Definition fragments_partition_area : Prop :=
  forall V c dir,
    simplePolygon V = true ->
    polygonArea (clipPolygon V c dir below)
    + polygonArea (clipPolygon V c dir above)
    == polygonArea V.

(** A quadrilateral with an edge that rises by 5e-13 onto the line
    y = 1. *)
Definition grazed_quad : list Point :=
  [pt 0 0; pt 2 (1999999999999 # 2000000000000); pt 1 1; pt 0 2].

(** A quadrilateral 1e13 wide and 1e-12 high, with a vertex on the x
    axis and an edge that rises onto it by 4e-13. *)
Definition wide_quad : list Point :=
  [pt 0 (-5 # 10000000000000); pt 10000000000000 (-4 # 10000000000000);
   pt 5000000000000 0; pt 0 (5 # 10000000000000)].

(** A self-crossing quadrilateral: two triangles wound against each
    other, meeting at (1,1). *)
Definition bowtie : list Point := [pt 0 0; pt 2 2; pt 2 0; pt 0 2].

(** ** The bounding box encloses the vertices *)

(** What the scan knows about the vertices [seen]: each lies between the
    extremes found so far. *)
Definition encloses (seen : list Point) (acc : ext * ext * ext * ext) : Prop :=
  match acc with
  | (Finite yMin, Finite yMax, Finite xMin, Finite xMax) =>
      forall v, In v seen -> yMin <= y v <= yMax /\ xMin <= x v <= xMax
  | _ => seen = []
  end.

(** ** Sections for the statements on winding *)


(** ** Summands of the centroid and moment loops *)

Definition centroidTermX (a b : Point) : Q := (x a + x b) * cross a b.
Definition centroidTermY (a b : Point) : Q := (y a + y b) * cross a b.

Definition ixTerm (a b : Point) : Q :=
  (y a ^ 2 + y a * y b + y b ^ 2) * cross a b.

Definition iyTerm (a b : Point) : Q :=
  (x a ^ 2 + x a * x b + x b ^ 2) * cross a b.

Definition ixyTerm (a b : Point) : Q :=
  (x a * y b + 2 * x a * y a + 2 * x b * y b + x b * y a) * cross a b.

(** ** The DXF importer *)

(** [p] may stand before [q] in a list ordered by falling area. *)
Definition notSmaller (p q : list Point) : Prop :=
  polygonArea q <= polygonArea p.

(** The test [v.bulge && Math.abs(v.bulge) > 0.001] of the importer. *)
Definition hasBulge (v : DxfImport.RawVertex) : bool :=
  match DxfImport.bulge v with
  | Some b => negb (Qeq_bool b 0) && Qlt_bool (1 # 1000) (Qabs b)
  | None => false
  end.

(** A polyline entity without bulges that is marked as closed. *)
Definition closedPolyline (vs : list Point) : DxfImport.DxfEntity :=
  {| DxfImport.type := DxfImport.LWPOLYLINE;
     DxfImport.vertices :=
       Some (map (fun p => {| DxfImport.position := p;
                              DxfImport.bulge := None |}) vs);
     DxfImport.shape := Some true;
     DxfImport.center := None;
     DxfImport.radius := None |}.

(** The entities of a drawing with a 4 x 2 rectangle, a line and the
    10 x 8 rectangle, in this order, and a parser that finds them. *)
Definition two_rectangles_entities : list DxfImport.DxfEntity :=
  [closedPolyline [pt 3 3; pt 7 3; pt 7 5; pt 3 5];
   {| DxfImport.type := DxfImport.LINE;
      DxfImport.vertices := None;
      DxfImport.shape := None;
      DxfImport.center := None;
      DxfImport.radius := None |};
   closedPolyline [pt 0 0; pt 10 0; pt 10 8; pt 0 8]].

Definition two_rectangles (_ : String.string) : DxfImport.ParseOutcome :=
  DxfImport.Returns
    (Some {| DxfImport.entities := Some two_rectangles_entities |}).

(** A stand-in for [Math.cos] and [Math.sin] when the model is run. *)
Definition no_trig (_ : Q) : Q := 0.

(** Three vertices that each carry the bulge 1, and the polyline entity
    made of them. *)
Definition bulgedTriangle_vertices : list DxfImport.RawVertex :=
  map (fun p => {| DxfImport.position := p; DxfImport.bulge := Some 1 |})
      [pt 0 0; pt 2 0; pt 1 1].

Definition bulgedTriangle : DxfImport.DxfEntity :=
  {| DxfImport.type := DxfImport.LWPOLYLINE;
     DxfImport.vertices := Some bulgedTriangle_vertices;
     DxfImport.shape := Some true;
     DxfImport.center := None;
     DxfImport.radius := None |}.

(** ** Shape templates *)

(** Every parameter lies in the range its template declares. *)
Definition inRange (t : ShapeTemplates.ShapeTemplate)
           (params : String.string -> Q) : Prop :=
  Forall (fun p => ShapeTemplates.min p <= params (ShapeTemplates.key p)
                   /\ params (ShapeTemplates.key p) <= ShapeTemplates.max p)
         (ShapeTemplates.parameters t).

(** The parameters [b] and [h] set to the given numbers. *)
Definition params_b_h (b h : Q) (k : String.string) : Q :=
  if String.eqb k "b" then b else if String.eqb k "h" then h else 0.

(** ** Hollow rectangles *)

(** A rectangle of width [B] and height [H] at the origin with a
    concentric rectangular hole that leaves a wall of thickness [t]: the
    geometry of the hollow-rectangle template, and of the hollow section
    of the tests. *)
Definition hollowRect (B H t : Q) : CrossSection :=
  {| outerBoundary := makeRect 0 0 B H;
     holes := [makeRect t t (B - t) (H - t)] |}.

(** The parameters [B], [H] and [t] set to the given numbers. *)
Definition params_B_H_t (B H t : Q) (k : String.string) : Q :=
  if String.eqb k "B" then B
  else if String.eqb k "H" then H
  else if String.eqb k "t" then t
  else 0.

(** ** Wide flanges *)

(** The outline of the wide-flange template: depth [d], flange width
    [bf], flange thickness [tf], and a web from [wl] to [wr]. *)
Definition wideFlange (d bf tf wl wr : Q) : list Point :=
  [{| x := 0; y := 0 |};
   {| x := bf; y := 0 |};
   {| x := bf; y := tf |};
   {| x := wr; y := tf |};
   {| x := wr; y := d - tf |};
   {| x := bf; y := d - tf |};
   {| x := bf; y := d |};
   {| x := 0; y := d |};
   {| x := 0; y := d - tf |};
   {| x := wl; y := d - tf |};
   {| x := wl; y := tf |};
   {| x := 0; y := tf |}].

(** The parameters [d], [bf], [tf] and [tw] set to the given numbers. *)
Definition params_d_bf_tf_tw (d bf tf tw : Q) (k : String.string) : Q :=
  if String.eqb k "d" then d
  else if String.eqb k "bf" then bf
  else if String.eqb k "tf" then tf
  else if String.eqb k "tw" then tw
  else 0.

(** * Part III.  The engines on a store of arrays and points

    To speak about mutation, arrays and the Points held in arrays are
    objects of a store, named by locations.  An array holds locations, so
    two arrays may share a Point and two variables may name one array.
    The only writes of the source are [reverse()] and [push()]; objects
    that are built, returned and never stored in an array (the centroid,
    the property records, the arrays of numbers) stay values, and the
    primitives that only read an array are the pure functions above
    applied to its current contents.  Part IV shows that the engines on
    the store leave every object of the caller as it is, and return what
    the engines of Part I return on the section the store holds. *)

(** The pure functions whose names the store versions take over. *)
Abbreviation pure_intersect := intersect.
Abbreviation pure_ensureCCW := ensureCCW.
Abbreviation pure_ensureCW := ensureCW.
Abbreviation pure_clipStep := clipStep.
Abbreviation pure_clipPolygon := clipPolygon.
Abbreviation pure_computeAreaOneSide := computeAreaOneSide.
Abbreviation pure_computePlasticModulus := computePlasticModulus.
Abbreviation pure_findPNA_loop := findPNA_loop.
Abbreviation pure_findPNA := findPNA.
Abbreviation pure_computePlasticProperties := computePlasticProperties.
Abbreviation pure_computeElasticProperties := computeElasticProperties.
Abbreviation pure_computeSectionProperties := computeSectionProperties.

Module Store.

Definition loc : Type := nat.

Inductive obj : Type :=
| OPoint (p : Point)
| OArray (elems : list loc).

Definition store : Type := list obj.

(** Computations that read and write the store. *)
Definition M (A : Type) : Type := store -> A * store.

Definition ret {A : Type} (a : A) : M A := fun h => (a, h).

Definition bind {A B : Type} (m : M A) (k : A -> M B) : M B :=
  fun h => let '(a, h') := m h in k a h'.

Notation "x <- m ;; k" := (bind m (fun x => k))
  (at level 61, m at next level, right associativity).
Notation "m ;;; k" := (bind m (fun _ => k))
  (at level 61, right associativity).

Fixpoint mapM {A B : Type} (f : A -> M B) (l : list A) : M (list B) :=
  match l with
  | [] => ret []
  | a :: l' => b <- f a ;; bs <- mapM f l' ;; ret (b :: bs)
  end.

Fixpoint foldM {A B : Type} (f : B -> A -> M B) (l : list A) (acc : B) : M B :=
  match l with
  | [] => ret acc
  | a :: l' => acc' <- f acc a ;; foldM f l' acc'
  end.

(** *** Primitives *)

(** A new object, at the first unused location. *)
Definition alloc (o : obj) : M loc := fun h => (length h, h ++ [o]).

Fixpoint setAt (r : loc) (o : obj) (h : store) : store :=
  match h, r with
  | [], _ => []
  | _ :: h', O => o :: h'
  | o' :: h', S r' => o' :: setAt r' o h'
  end.

Definition elementsIn (h : store) (r : loc) : list loc :=
  match nth_error h r with
  | Some (OArray elems) => elems
  | _ => []
  end.

Definition pointIn (h : store) (l : loc) : Point :=
  match nth_error h l with
  | Some (OPoint p) => p
  | _ => origin
  end.

Definition polygonIn (h : store) (r : loc) : list Point :=
  map (pointIn h) (elementsIn h r).

(** The elements of an array. *)
Definition elementsOf (r : loc) : M (list loc) := fun h => (elementsIn h r, h).

(** The fields of a Point. *)
Definition pointAt (l : loc) : M Point := fun h => (pointIn h l, h).

(** The current contents of an array of Points. *)
Definition polygonOf (r : loc) : M (list Point) := fun h => (polygonIn h r, h).

(** Overwrite the elements of the array at [r]. *)
Definition setElements (r : loc) (elems : list loc) : M unit :=
  fun h => (tt, setAt r (OArray elems) h).

(** [arr.reverse()]: reverses the array in place and returns it. *)
Definition reverse (r : loc) : M loc :=
  elems <- elementsOf r ;; setElements r (rev elems) ;;; ret r.

(** [arr.push(l)]. *)
Definition push (r : loc) (l : loc) : M unit :=
  elems <- elementsOf r ;; setElements r (elems ++ [l]).

(** [[...arr]]: a new array with the same elements. *)
Definition spread (r : loc) : M loc :=
  elems <- elementsOf r ;; alloc (OArray elems).

(** [arr.map(f)] for an [f] that returns an array or a Point. *)
Definition mapArray (f : loc -> M loc) (r : loc) : M loc :=
  elems <- elementsOf r ;; rs <- mapM f elems ;; alloc (OArray rs).

(** [[first, ...rest].flat()]. *)
Definition flatWith (first : loc) (rest : loc) : M loc :=
  restElems <- elementsOf rest ;;
  nested <- alloc (OArray (first :: restElems)) ;;
  arrays <- elementsOf nested ;;
  parts <- mapM elementsOf arrays ;;
  alloc (OArray (concat parts)).

(** The contents of an array of arrays of Points. *)
Definition polygonsOf (r : loc) : M (list (list Point)) :=
  arrays <- elementsOf r ;; mapM polygonOf arrays.

(** *** Winding normalisation *)

Definition ensureCCW (vertices : loc) : M loc :=
  vs <- polygonOf vertices ;;
  let area := signedPolygonArea vs in
  if Qlt_bool area 0
  then copy <- spread vertices ;; reverse copy
  else ret vertices.

Definition ensureCW (vertices : loc) : M loc :=
  vs <- polygonOf vertices ;;
  let area := signedPolygonArea vs in
  if Qlt_bool 0 area
  then copy <- spread vertices ;; reverse copy
  else ret vertices.

(** *** Clipper *)

(** [intersect] returns a new Point, also when it copies [p1]. *)
Definition intersect (p1 p2 : loc) (cutValue : Q) (direction : Direction)
  : M loc :=
  a <- pointAt p1 ;; b <- pointAt p2 ;;
  alloc (OPoint (pure_intersect a b cutValue direction)).

(** One turn of the loop of [clipPolygon] on the array [output]. *)
Definition clipStep (output : loc) (cutValue : Q) (direction : Direction)
           (keepSide : Side) (edge : loc * loc) : M unit :=
  let '(current, next) := edge in
  cur <- pointAt current ;;
  nxt <- pointAt next ;;
  let currentInside := isInside cur cutValue direction keepSide in
  let nextInside := isInside nxt cutValue direction keepSide in
  if currentInside then
    push output current ;;;
    if negb nextInside
    then X <- intersect current next cutValue direction ;; push output X
    else ret tt
  else if nextInside
       then X <- intersect current next cutValue direction ;; push output X
       else ret tt.

(** The index pairs [(i, (i + 1) % n)] read off an array of locations. *)
Definition cyclic_locs (elems : list loc) : list (loc * loc) :=
  let n := length elems in
  map (fun i => (nth i elems 0%nat, nth ((i + 1) mod n) elems 0%nat))
      (seq 0 n).

Definition clipPolygon (vertices : loc) (cutValue : Q)
           (direction : Direction) (keepSide : Side) : M loc :=
  elems <- elementsOf vertices ;;
  if (length elems <? 3)%nat then alloc (OArray [])
  else
    output <- alloc (OArray []) ;;
    foldM (fun _ edge => clipStep output cutValue direction keepSide edge)
          (cyclic_locs elems) tt ;;;
    ret output.

(** *** Plastic engine *)

Definition computeAreaOneSide (outer : loc) (holes : loc)
           (cutValue : Q) (direction : Direction) (side : Side) : M Q :=
  outerClipped <- clipPolygon outer cutValue direction side ;;
  outerVs <- polygonOf outerClipped ;;
  holeArrays <- elementsOf holes ;;
  foldM
    (fun area hole =>
       holeClipped <- clipPolygon hole cutValue direction side ;;
       holeVs <- polygonOf holeClipped ;;
       ret (area - polygonArea holeVs))
    holeArrays (polygonArea outerVs).

Definition computePlasticModulus (outer : loc) (holes : loc)
           (pna : Q) (direction : Direction) : M Q :=
  outerAbove <- clipPolygon outer pna direction above ;;
  outerBelow <- clipPolygon outer pna direction below ;;
  aboveVs <- polygonOf outerAbove ;;
  belowVs <- polygonOf outerBelow ;;
  holeArrays <- elementsOf holes ;;
  moments <-
    foldM
      (fun '(momentAbove, momentBelow) hole =>
         holeAbove <- clipPolygon hole pna direction above ;;
         holeBelow <- clipPolygon hole pna direction below ;;
         habove <- polygonOf holeAbove ;;
         hbelow <- polygonOf holeBelow ;;
         ret (momentAbove - firstMomentAboutAxis habove pna direction,
              momentBelow - firstMomentAboutAxis hbelow pna direction))
      holeArrays
      (firstMomentAboutAxis aboveVs pna direction,
       firstMomentAboutAxis belowVs pna direction) ;;
  ret (Qabs (fst moments) + Qabs (snd moments)).

Fixpoint findPNA_loop (outer holes : loc) (totalArea : Q)
         (direction : Direction) (remaining : nat) (lo hi : Q) : M Q :=
  match remaining with
  | O => ret ((lo + hi) / 2)
  | S remaining' =>
      let mid := (lo + hi) / 2 in
      areaBelow <- computeAreaOneSide outer holes mid direction below ;;
      if Qlt_bool (Qabs (areaBelow - halfArea totalArea)) (totalArea * eps10)
      then ret mid
      else if Qlt_bool areaBelow (halfArea totalArea)
           then findPNA_loop outer holes totalArea direction remaining' mid hi
           else findPNA_loop outer holes totalArea direction remaining' lo mid
  end.

Definition findPNA (outer holes : loc) (totalArea minVal maxVal : Q)
           (direction : Direction) : M Q :=
  findPNA_loop outer holes totalArea direction 100 minVal maxVal.

(** A cross-section as the caller holds it: the outer boundary array and
    the array of hole arrays. *)
Record SectionRef : Type := mkSectionRef {
  outerRef : loc;
  holesRef : loc
}.

Definition computePlasticProperties (section : SectionRef) : M PlasticProperties :=
  outer <- ensureCCW (outerRef section) ;;
  holes <- mapArray ensureCW (holesRef section) ;;
  outerVs <- polygonOf outer ;;
  holesVs <- polygonsOf holes ;;
  let totalArea := computeNetArea outerVs holesVs in
  if Qlt_bool totalArea eps12 then
    ret {| pnaX := 0; pnaY := 0; Zx := 0; Zy := 0 |}
  else
    allVerts <- flatWith outer holes ;;
    verts <- polygonOf allVerts ;;
    match boundingBox verts with
    | (Finite yMin, Finite yMax, Finite xMin, Finite xMax) =>
        pnaX <- findPNA outer holes totalArea yMin yMax horizontal ;;
        Zx <- computePlasticModulus outer holes pnaX horizontal ;;
        pnaY <- findPNA outer holes totalArea xMin xMax vertical ;;
        Zy <- computePlasticModulus outer holes pnaY vertical ;;
        ret {| pnaX := pnaX; pnaY := pnaY; Zx := Zx; Zy := Zy |}
    | _ => ret {| pnaX := 0; pnaY := 0; Zx := 0; Zy := 0 |}
    end.

(** *** Elastic engine and facade *)

Section Elastic.
Variable Math_sqrt : Q -> Q.
Variable Math_atan2 : Q -> Q -> Q.

(** After normalisation the elastic engine only reads; its one array
    expression, [[outer, ...holes].flat()], builds new arrays. *)
Definition computeElasticProperties (section : SectionRef) : M ElasticProperties :=
  outer <- ensureCCW (outerRef section) ;;
  holes <- mapArray ensureCW (holesRef section) ;;
  outerVs <- polygonOf outer ;;
  holesVs <- polygonsOf holes ;;
  if Qlt_bool (elasticNetArea outerVs holesVs) eps12 then ret zeroElasticProps
  else
    flatWith outer holes ;;;
    ret (elasticOfNormalised Math_sqrt Math_atan2 outerVs holesVs).

Definition computeSectionProperties (section : SectionRef) : M SectionProperties :=
  elastic <- computeElasticProperties section ;;
  plastic <- computePlasticProperties section ;;
  ret {| elastic := elastic; plastic := plastic |}.

End Elastic.

(** A store holding the 10 x 8 rectangle: four Points, the outer array
    and the empty array of holes. *)
Definition rect_store : store :=
  [OPoint (pt 0 0); OPoint (pt 10 0); OPoint (pt 10 8); OPoint (pt 0 8);
   OArray [0; 1; 2; 3]%nat; OArray []].

Definition rect_ref : SectionRef := {| outerRef := 4%nat; holesRef := 5%nat |}.

(** The same rectangle given clockwise, so that [ensureCCW] reverses. *)
Definition cw_store : store :=
  [OPoint (pt 0 0); OPoint (pt 10 0); OPoint (pt 10 8); OPoint (pt 0 8);
   OArray [3; 2; 1; 0]%nat; OArray []].

(** *** Frames *)

(** [m] leaves the first [n] locations as they are and never shrinks the
    store, whenever the store has at least [n] locations. *)
Definition stable {A : Type} (n : nat) (m : M A) : Prop :=
  forall h,
    (n <= length h)%nat ->
    (length h <= length (snd (m h)))%nat /\
    forall l, (l < n)%nat -> nth_error (snd (m h)) l = nth_error h l.

(** [m] returns a location at or above [n]. *)
Definition fresh (n : nat) (m : M loc) : Prop :=
  forall h, (n <= length h)%nat -> (n <= fst (m h))%nat.

(** *** Reading a store as values *)

(** [h'] has every object of [h] at its location. *)
Definition extends (h h' : store) : Prop :=
  (length h <= length h')%nat /\
  forall l, (l < length h)%nat -> nth_error h' l = nth_error h l.

(** The array at [r] exists and all its elements exist. *)
Definition closedArray (h : store) (r : loc) : Prop :=
  (r < length h)%nat /\ forall l, In l (elementsIn h r) -> (l < length h)%nat.

(** In [h], the array [outer] holds the polygon [O] and the array [holes]
    holds arrays with the polygons [Hs]. *)
Definition represents (h : store) (outer holes : loc)
           (O : list Point) (Hs : list (list Point)) : Prop :=
  closedArray h outer /\
  polygonIn h outer = O /\
  (holes < length h)%nat /\
  (forall a, In a (elementsIn h holes) -> closedArray h a) /\
  map (polygonIn h) (elementsIn h holes) = Hs.

(** The arrays a section reference names exist, with all the Points and
    hole arrays they hold. *)
Definition wellFormed (h : store) (section : SectionRef) : Prop :=
  closedArray h (outerRef section) /\
  (holesRef section < length h)%nat /\
  forall a, In a (elementsIn h (holesRef section)) -> closedArray h a.

(** The cross-section a reference denotes. *)
Definition sectionIn (h : store) (section : SectionRef) : CrossSection :=
  {| outerBoundary := polygonIn h (outerRef section);
     holes := map (polygonIn h) (elementsIn h (holesRef section)) |}.

(** The store the clipper works on: the caller's store, the output array
    and the Points made by [intersect]. *)
Definition clipStore (h : store) (outs : list loc) (xs : list Point) : store :=
  h ++ OArray outs :: map OPoint xs.

(** The Point a location other than the output array denotes in
    [clipStore h outs xs]. *)
Definition clipPoint (h : store) (xs : list Point) (l : loc) : Point :=
  if (l <? length h)%nat then pointIn h l
  else nth (l - length h - 1) xs origin.

(** The output array holds locations of Points, and read as Points it
    is [P]. *)
Definition clipInvariant (h : store) (outs : list loc) (xs : list Point)
           (P : list Point) : Prop :=
  map (clipPoint h xs) outs = P /\
  forall l, In l outs ->
            l <> length h /\ (l < length h + 1 + length xs)%nat.

End Store.

(** * Part IV.  Proofs *)

(** ** Boolean tests *)

Lemma Qlt_bool_true (a b : Q) : Qlt_bool a b = true -> a < b.
Proof. apply Qlt_bool_iff. Qed.

Lemma Qlt_bool_false (a b : Q) : Qlt_bool a b = false -> b <= a.
Proof.
  intros H. apply Qnot_lt_le. intros Hlt.
  apply Qlt_bool_iff in Hlt. congruence.
Qed.

Lemma Qlt_bool_intro (a b : Q) : a < b -> Qlt_bool a b = true.
Proof. apply Qlt_bool_iff. Qed.

Lemma Qlt_bool_elim_false (a b : Q) : b <= a -> Qlt_bool a b = false.
Proof.
  intros H. destruct (Qlt_bool a b) eqn:E; [|reflexivity].
  apply Qlt_bool_true in E. lra.
Qed.

Lemma Qle_bool_false (a b : Q) : Qle_bool a b = false -> b < a.
Proof.
  intros H. apply Qnot_le_lt. intros Hle.
  apply Qle_bool_iff in Hle. congruence.
Qed.

Lemma short_ltb (A : Type) (l : list A) :
  (length l < 3)%nat -> (length l <? 3)%nat = true.
Proof. intros H. apply Nat.ltb_lt. exact H. Qed.

(** ** Sums along open and closed vertex paths *)

Lemma nth_map_seq (A : Type) (f : nat -> A) (n i : nat) (d : A) :
  (i < n)%nat -> nth i (map f (seq 0 n)) d = f i.
Proof.
  intros Hi.
  rewrite nth_indep with (d' := f 0%nat)
    by (rewrite length_map, length_seq; exact Hi).
  rewrite (map_nth f (seq 0 n) 0%nat i), seq_nth by exact Hi.
  reflexivity.
Qed.

Lemma cyclic_pairs_combine (V : list Point) :
  cyclic_pairs V = combine V (tl V ++ firstn 1 V).
Proof.
  destruct V as [|a l]; [reflexivity|].
  unfold cyclic_pairs. cbn [tl firstn].
  set (n := length (a :: l)).
  apply nth_ext with (d := (origin, origin)) (d' := (origin, origin)).
  - rewrite length_map, length_seq, length_combine, length_app.
    subst n. cbn [length]. lia.
  - intros i Hi. rewrite length_map, length_seq in Hi.
    rewrite combine_nth
      by (rewrite length_app; subst n; cbn [length]; lia).
    rewrite nth_map_seq by exact Hi.
    f_equal.
    subst n. cbn [length] in *.
    destruct (Nat.eq_dec (i + 1) (S (length l))) as [E|E].
    + rewrite E, Nat.Div0.mod_same. cbn [nth].
      replace i with (length l + 0)%nat by lia.
      rewrite app_nth2_plus. reflexivity.
    + rewrite Nat.mod_small by lia.
      replace (i + 1)%nat with (S i) by lia. cbn [nth].
      rewrite app_nth1 by lia. reflexivity.
Qed.

Lemma fold_left_Qsum (A : Type) (step : Q -> A -> Q) (g : A -> Q) :
  (forall acc e, step acc e == acc + g e) ->
  forall l acc, fold_left step l acc == acc + Qsum (map g l).
Proof.
  intros Hstep l. unfold Qsum.
  induction l as [|e l IH]; intros acc; cbn [fold_left map fold_right].
  - ring.
  - rewrite IH, Hstep. ring.
Qed.

Lemma closedSum_cons_path (f : Point -> Point -> Q) (l : list Point) :
  forall a b,
    Qsum (map (fun e => f (fst e) (snd e)) (combine (a :: l) (l ++ [b])))
    == pathSum f (a :: l) + f (last (a :: l) origin) b.
Proof.
  induction l as [|c l IH]; intros a b.
  - cbn [app combine map Qsum fold_right fst snd pathSum last]. ring.
  - change (combine (a :: c :: l) ((c :: l) ++ [b]))
      with ((a, c) :: combine (c :: l) (l ++ [b])).
    cbn [map Qsum fold_right fst snd].
    fold (Qsum (map (fun e => f (fst e) (snd e)) (combine (c :: l) (l ++ [b])))).
    rewrite IH.
    change (pathSum f (a :: c :: l)) with (f a c + pathSum f (c :: l)).
    change (last (a :: c :: l) origin) with (last (c :: l) origin).
    ring.
Qed.

Lemma closedSum_path (f : Point -> Point -> Q) (V : list Point) :
  V <> [] ->
  closedSum f V == pathSum f V + f (last V origin) (hd origin V).
Proof.
  intros HV. destruct V as [|a l]; [congruence|].
  unfold closedSum. rewrite cyclic_pairs_combine. cbn [tl firstn hd].
  apply closedSum_cons_path.
Qed.

Lemma closedSum_nil (f : Point -> Point -> Q) : closedSum f [] == 0.
Proof. reflexivity. Qed.

Lemma antisymmetric_diag (f : Point -> Point -> Q) (a : Point) :
  antisymmetric f -> f a a == 0.
Proof. intros H. specialize (H a a). lra. Qed.

Lemma cross_antisymmetric : antisymmetric cross.
Proof. intros a b. unfold cross. ring. Qed.

Lemma closedSum_short (f : Point -> Point -> Q) (V : list Point) :
  antisymmetric f -> (length V < 3)%nat -> closedSum f V == 0.
Proof.
  intros Hf HV.
  destruct V as [|a [|b [|c l]]]; [reflexivity| | |cbn in HV; lia].
  - rewrite closedSum_path by discriminate.
    cbn [pathSum last hd]. rewrite (antisymmetric_diag f a Hf). ring.
  - rewrite closedSum_path by discriminate.
    cbn [pathSum last hd]. rewrite (Hf a b). ring.
Qed.

Lemma pathSum_snoc (f : Point -> Point -> Q) (l : list Point) (a b : Point) :
  pathSum f (l ++ [a; b]) == pathSum f (l ++ [a]) + f a b.
Proof.
  induction l as [|c l IH].
  - cbn [app pathSum]. ring.
  - destruct l as [|d l].
    + cbn [app pathSum]. ring.
    + change (pathSum f ((c :: d :: l) ++ [a; b]))
        with (f c d + pathSum f ((d :: l) ++ [a; b])).
      change (pathSum f ((c :: d :: l) ++ [a]))
        with (f c d + pathSum f ((d :: l) ++ [a])).
      rewrite IH. ring.
Qed.

Lemma pathSum_rev (f : Point -> Point -> Q) (l : list Point) :
  antisymmetric f -> pathSum f (rev l) == - pathSum f l.
Proof.
  intros Hf. induction l as [|a l IH].
  - cbn. ring.
  - destruct l as [|b l].
    + cbn. ring.
    + change (rev (a :: b :: l)) with ((rev l ++ [b]) ++ [a]).
      rewrite <- app_assoc. cbn [app].
      rewrite pathSum_snoc.
      change (rev l ++ [b]) with (rev (b :: l)).
      rewrite IH.
      change (pathSum f (a :: b :: l)) with (f a b + pathSum f (b :: l)).
      rewrite (Hf b a). ring.
Qed.

Lemma hd_rev_last (l : list Point) : hd origin (rev l) = last l origin.
Proof.
  induction l as [|z l _] using rev_ind; [reflexivity|].
  rewrite rev_unit, last_last. reflexivity.
Qed.

Lemma last_rev_hd (l : list Point) : last (rev l) origin = hd origin l.
Proof.
  destruct l as [|a l]; [reflexivity|].
  cbn [rev hd]. apply last_last.
Qed.

Lemma closedSum_rev (f : Point -> Point -> Q) (V : list Point) :
  antisymmetric f -> closedSum f (rev V) == - closedSum f V.
Proof.
  intros Hf. destruct V as [|a l].
  - cbn. ring.
  - assert (Hne : rev (a :: l) <> []).
    { cbn [rev]. intros E. apply app_eq_nil in E. destruct E; discriminate. }
    rewrite (closedSum_path f (rev (a :: l)) Hne).
    rewrite (closedSum_path f (a :: l)) by discriminate.
    rewrite pathSum_rev by exact Hf.
    rewrite hd_rev_last, last_rev_hd.
    rewrite (Hf (hd origin (a :: l)) (last (a :: l) origin)). ring.
Qed.

(** The shoelace loop is half the closed sum of cross products, also
    below three vertices, where both are zero. *)
Lemma signedPolygonArea_closed (V : list Point) :
  signedPolygonArea V == closedSum cross V / 2.
Proof.
  unfold signedPolygonArea.
  destruct (length V <? 3)%nat eqn:E.
  - apply Nat.ltb_lt in E.
    rewrite (closedSum_short cross V cross_antisymmetric E). reflexivity.
  - rewrite (fold_left_Qsum _ _ (fun e => cross (fst e) (snd e))).
    + unfold closedSum. field.
    + intros acc [vi vj]. unfold cross. cbn [fst snd]. ring.
Qed.

Lemma signedPolygonArea_rev (V : list Point) :
  signedPolygonArea (rev V) == - signedPolygonArea V.
Proof.
  rewrite !signedPolygonArea_closed.
  rewrite (closedSum_rev cross V cross_antisymmetric). field.
Qed.

Lemma polygonArea_rev (V : list Point) :
  polygonArea (rev V) == polygonArea V.
Proof.
  unfold polygonArea. rewrite signedPolygonArea_rev. apply Qabs_opp.
Qed.


(** ** Winding *)





(** ** Net area *)





(** ** C7: fewer than three vertices *)

(** C7.  On a vertex list with fewer than three points every primitive
    of the polygon algebra returns its zero value: the signed area, the
    area and the three origin moments are 0, the centroid is the origin
    and the clipper returns the empty sequence.  The primitives are total
    functions, so none of them fails. *)
Theorem degenerate_polygon_zero (V : list Point) :
  (length V < 3)%nat ->
  signedPolygonArea V = 0 /\
  polygonArea V = 0 /\
  polygonIxOrigin V = 0 /\
  polygonIyOrigin V = 0 /\
  polygonIxyOrigin V = 0 /\
  polygonCentroid V = {| x := 0; y := 0 |} /\
  (forall cutValue direction keepSide,
      clipPolygon V cutValue direction keepSide = []).
Proof.
  intros H. apply short_ltb in H.
  unfold polygonArea, signedPolygonArea, polygonIxOrigin, polygonIyOrigin,
    polygonIxyOrigin, polygonCentroid, clipPolygon.
  rewrite H. repeat split; reflexivity.
Qed.

Lemma degenerate_polygon_zero_witness :
  signedPolygonArea [pt 0 0; pt 3 4] = 0 /\
  polygonArea [pt 0 0; pt 3 4] = 0 /\
  polygonIxOrigin [pt 0 0; pt 3 4] = 0 /\
  polygonIyOrigin [pt 0 0; pt 3 4] = 0 /\
  polygonIxyOrigin [pt 0 0; pt 3 4] = 0 /\
  polygonCentroid [pt 0 0; pt 3 4] = {| x := 0; y := 0 |} /\
  (forall cutValue direction keepSide,
      clipPolygon [pt 0 0; pt 3 4] cutValue direction keepSide = []).
Proof.
  apply (degenerate_polygon_zero [pt 0 0; pt 3 4]). simpl. lia.
Defined.

(** ** C8: winding normalisation *)


(** ** C5: degenerate net area *)



(** ** C6: guarded section moduli *)



(** ** C4: order of the principal moments *)





(** ** C1: the 10 x 8 rectangle *)

(** C1.  For the rectangle (0,0),(10,0),(10,8),(0,8) without holes,
    [computeSectionProperties] returns area 80, centroid (5,4),
    Ix = 1280/3, Iy = 2000/3, Ixy = 0, Sx_top = Sx_bot = 320/3,
    Sy_left = Sy_right = 400/3, Zx = 160, Zy = 200, pnaX = 4 and
    pnaY = 5. *)
Theorem rectangle_10x8_properties
        (Math_sqrt : Q -> Q) (Math_atan2 : Q -> Q -> Q) :
  let p := computeSectionProperties Math_sqrt Math_atan2 rect_10x8 in
  area (elastic p) == 80 /\
  centroidX (elastic p) == 5 /\
  centroidY (elastic p) == 4 /\
  Ix (elastic p) == 1280 / 3 /\
  Iy (elastic p) == 2000 / 3 /\
  Ixy (elastic p) == 0 /\
  Sx_top (elastic p) == 320 / 3 /\
  Sx_bot (elastic p) == 320 / 3 /\
  Sy_left (elastic p) == 400 / 3 /\
  Sy_right (elastic p) == 400 / 3 /\
  Zx (plastic p) == 160 /\
  Zy (plastic p) == 200 /\
  pnaX (plastic p) == 4 /\
  pnaY (plastic p) == 5.
Proof.
  cbv zeta. repeat split; vm_compute; reflexivity.
Qed.

(** ** C3: the bounded bisection search, and its bracket *)

Section BisectionFacts.
Variables (outer : list Point) (holes : list (list Point)).
Variables (totalArea : Q) (direction : Direction).
Variables (minVal maxVal : Q).

Let conv : nat -> bool :=
  convergedAtTurn outer holes totalArea direction minVal maxVal.

Let outcome : nat -> PNASearch -> Prop :=
  searchOutcome outer holes totalArea direction minVal maxVal.

Lemma findPNA_loop_outcome (remaining : nat) :
  forall iter lo hi,
    bracket outer holes totalArea direction iter minVal maxVal = (lo, hi) ->
    (forall j, (j < iter)%nat -> conv j = false) ->
    outcome (iter + remaining)
      (findPNA_loop outer holes totalArea direction remaining iter lo hi).
Proof.
  unfold outcome, searchOutcome. fold conv.
  induction remaining as [|remaining IH]; intros iter lo hi Hbr Hnone.
  - right. cbn [findPNA_loop pna_converged pna_iterations pna_value].
    rewrite Nat.add_0_r. repeat split; try assumption.
    rewrite Hbr. reflexivity.
  - cbn [findPNA_loop].
    assert (Hmid : midpoint (bracket outer holes totalArea direction iter
                                     minVal maxVal) = (lo + hi) / 2).
    { rewrite Hbr. reflexivity. }
    assert (Hconv : conv iter
                    = Qlt_bool (Qabs (areaBelowAt outer holes direction
                                                  ((lo + hi) / 2)
                                      - halfArea totalArea))
                               (totalArea * eps10)).
    { unfold conv, convergedAtTurn. rewrite Hmid. reflexivity. }
    destruct (Qlt_bool (Qabs _) _) eqn:Etest.
    + left. cbn [pna_converged pna_iterations pna_value].
      split; [reflexivity|]. exists iter.
      repeat split; try assumption; try lia.
      symmetry. exact Hmid.
    + assert (Hnone' : forall j, (j < S iter)%nat -> conv j = false).
      { intros j Hj. destruct (Nat.eq_dec j iter) as [->|Hne];
          [exact Hconv|apply Hnone; lia]. }
      replace (iter + S remaining)%nat with (S iter + remaining)%nat by lia.
      destruct (Qlt_bool (areaBelowAt _ _ _ _) _) eqn:Eside;
        apply IH; try exact Hnone';
        cbn [bracket]; rewrite Hbr; unfold narrow; rewrite Eside; reflexivity.
Qed.

(** C3.  The search for the plastic neutral axis always ends, after at
    most 100 turns of the bisection: it returns the first midpoint at
    which |areaBelow - halfArea| < totalArea * 1e-10 when one of the 100
    turns reaches such a midpoint, and otherwise the midpoint of the
    bracket left after 100 turns; running out of turns yields a number
    like any other run. *)
Theorem findPNA_bounded_search :
  let r := findPNA_run outer holes totalArea direction minVal maxVal in
  findPNA outer holes totalArea minVal maxVal direction = pna_value r /\
  (pna_iterations r <= 100)%nat /\
  searchOutcome outer holes totalArea direction minVal maxVal 100 r.
Proof.
  cbv zeta.
  assert (H : outcome 100
                (findPNA_run outer holes totalArea direction minVal maxVal)).
  { unfold findPNA_run.
    change 100%nat with (0 + 100)%nat at 1.
    apply findPNA_loop_outcome; [reflexivity|intros j Hj; lia]. }
  unfold outcome in H.
  split; [reflexivity|]. split; [|exact H].
  destruct H as [[_ [k [-> [Hk _]]]]|[_ [-> _]]]; lia.
Qed.



End BisectionFacts.

(** ** C10: the neutral axes and the vertex ranges *)

Ltac box_member :=
  match goal with
  | H : exists w, In w ?seen /\ _ |- exists v, In v (?seen ++ _) /\ _ =>
      let w := fresh "w" in
      let Hw := fresh "Hw" in
      let Ew := fresh "Ew" in
      destruct H as [w [Hw Ew]]; exists w;
      split; [apply in_or_app; left; exact Hw|exact Ew]
  | |- exists v, In v (_ ++ [?u]) /\ _ =>
      exists u; split; [apply in_or_app; right; left; reflexivity|reflexivity]
  end.

Lemma boxOf_step (seen : list Point) (acc : ext * ext * ext * ext) (v : Point) :
  boxOf seen acc -> boxOf (seen ++ [v]) (boundingStep acc v).
Proof.
  destruct acc as [[[yMin yMax] xMin] xMax].
  destruct yMin as [|yMin|], yMax as [|yMax|], xMin as [|xMin|],
           xMax as [|xMax|]; cbn [boxOf]; try tauto.
  - intros (Hy & Hx & Hy1 & Hy2 & Hx1 & Hx2).
    cbn [boundingStep ext_ltb].
    destruct (Qlt_bool (y v) yMin) eqn:E1, (Qlt_bool yMax (y v)) eqn:E2,
             (Qlt_bool (x v) xMin) eqn:E3, (Qlt_bool xMax (x v)) eqn:E4;
      try apply Qlt_bool_true in E1; try apply Qlt_bool_false in E1;
      try apply Qlt_bool_true in E2; try apply Qlt_bool_false in E2;
      try apply Qlt_bool_true in E3; try apply Qlt_bool_false in E3;
      try apply Qlt_bool_true in E4; try apply Qlt_bool_false in E4;
      cbn [boxOf];
      (split; [lra|split; [lra|repeat split; box_member]]).
  - intros ->. cbn [boundingStep ext_ltb boxOf app].
    split; [lra|split; [lra|]].
    repeat split; exists v; (split; [left; reflexivity|reflexivity]).
Qed.

Lemma boxOf_fold (l : list Point) :
  forall seen acc,
    boxOf seen acc ->
    boxOf (seen ++ l) (fold_left boundingStep l acc).
Proof.
  induction l as [|v l IH]; intros seen acc H; cbn [fold_left].
  - rewrite app_nil_r. exact H.
  - change (v :: l) with ([v] ++ l). rewrite app_assoc.
    apply IH, boxOf_step, H.
Qed.

Lemma boundingBox_boxOf (l : list Point) : boxOf l (boundingBox l).
Proof.
  unfold boundingBox.
  apply (boxOf_fold l [] (PlusInfinity, MinusInfinity, PlusInfinity, MinusInfinity)).
  reflexivity.
Qed.









(** ** The code on binary64: overflow and cancellation *)

Module Binary64Facts.

Import Corelib.Floats.PrimFloat.
Import Binary64.
#[local] Set Warnings "-inexact-float".
Local Open Scope float_scope.

(** On the rectangle of C1 the binary64 engines return the values of
    the exact ones up to the last bits. *)
Lemma rectangle_10x8_binary64 :
  let p := computeSectionProperties no_atan2 (solid (makeRect 0 0 10 8)) in
  area (elastic p) = 80 /\
  centroidX (elastic p) = 5 /\ centroidY (elastic p) = 4 /\
  Ix (elastic p) = 426.66666666666674 /\
  Iy (elastic p) = 666.66666666666652 /\
  Ixy (elastic p) = 0 /\
  pnaX (plastic p) = 4 /\ pnaY (plastic p) = 5 /\
  Zx (plastic p) = 160 /\ Zy (plastic p) = 200.
Proof. vm_compute. repeat split. Qed.



(** The fragments of a clipped polygon in binary64.  The quadrilateral
    1e13 wide and 1e-12 high has area 4.75 and fragments of area 3.5 and
    2.25, as in exact arithmetic.  Far from the origin the shoelace sums
    cancel: moved by (1e8, 1e8), the triangle of area 0.96 has the
    computed area 0, and its fragments at the height 1e8 + 1 the
    computed areas 1 and 0. *)
Lemma fragments_in_binary64 :
  (polygonArea wide_quad = 4.75 /\
   polygonArea (clipPolygon wide_quad 0 horizontal below) = 3.5 /\
   polygonArea (clipPolygon wide_quad 0 horizontal above) = 2.25) /\
  (let V := triangle_at 100000000 in
   polygonArea V = 0 /\
   polygonArea (clipPolygon V 100000001 horizontal below) = 1 /\
   polygonArea (clipPolygon V 100000001 horizontal above) = 0).
Proof. vm_compute. repeat split. Qed.

(** The hollow rectangle 8 by 10 with a wall of 0.5, the default of its
    template: the binary64 engine returns the product of inertia 2520
    for this doubly symmetric section, and with it a negative principal
    moment. *)
Lemma hollow_rectangle_binary64 :
  let e := computeElasticProperties no_atan2
             {| outerBoundary := makeRect 0 0 8 10;
                holes := [makeRect 0.5 0.5 7.5 9.5] |} in
  area e = 17 /\ centroidX e = 4 /\ centroidY e = 5 /\
  Ixy e = 2520 /\
  (Iy_principal e <? 0) = true.
Proof. vm_compute. repeat split. Qed.

End Binary64Facts.

(** ** C2: the two fragments of a clipped polygon *)

Lemma clipStep_emitted (c : Q) (dir : Direction) (side : Side)
      (output : list Point) (edge : Point * Point) :
  clipStep c dir side output edge = output ++ emitted c dir side edge.
Proof.
  destruct edge as [current next]. unfold clipStep, emitted.
  destruct (isInside current c dir side), (isInside next c dir side);
    cbn [negb]; rewrite <- ?app_assoc; cbn [app];
    rewrite ?app_nil_r; reflexivity.
Qed.

Lemma fold_clipStep (c : Q) (dir : Direction) (side : Side)
      (l : list (Point * Point)) :
  forall output,
    fold_left (clipStep c dir side) l output
    = output ++ flat_map (emitted c dir side) l.
Proof.
  induction l as [|e l IH]; intros output; cbn [fold_left flat_map].
  - rewrite app_nil_r. reflexivity.
  - rewrite IH, clipStep_emitted, app_assoc. reflexivity.
Qed.

Lemma combine_edgesOf (t : list Point) :
  forall a b, combine (a :: t) (t ++ [b]) = edgesOf a (t ++ [b]).
Proof.
  induction t as [|d t IH]; intros a b; [reflexivity|].
  change (combine (a :: d :: t) ((d :: t) ++ [b]))
    with ((a, d) :: combine (d :: t) (t ++ [b])).
  rewrite IH. reflexivity.
Qed.

Lemma cyclic_pairs_edgesOf (a : Point) (t : list Point) :
  cyclic_pairs (a :: t) = edgesOf a (t ++ [a]).
Proof.
  rewrite cyclic_pairs_combine. cbn [tl firstn]. apply combine_edgesOf.
Qed.

Lemma last_app_nonempty (l1 l2 : list Point) :
  l2 <> [] -> last (l1 ++ l2) origin = last l2 origin.
Proof.
  intros H. induction l1 as [|a l1 IH]; [reflexivity|].
  cbn [app]. destruct (l1 ++ l2) eqn:E.
  - apply app_eq_nil in E. destruct E. contradiction.
  - rewrite <- IH. reflexivity.
Qed.

Lemma pathSum_app_last (f : Point -> Point -> Q) (l : list Point) (b : Point) :
  l <> [] ->
  pathSum f (l ++ [b]) == pathSum f l + f (last l origin) b.
Proof.
  induction l as [|a l IH]; [congruence|intros _].
  destruct l as [|d l].
  - cbn [app pathSum last]. ring.
  - change (pathSum f ((a :: d :: l) ++ [b]))
      with (f a d + pathSum f ((d :: l) ++ [b])).
    rewrite IH by discriminate.
    change (pathSum f (a :: d :: l)) with (f a d + pathSum f (d :: l)).
    change (last (a :: d :: l) origin) with (last (d :: l) origin).
    ring.
Qed.

Lemma pathSum_shift (f g : Point -> Point -> Q) (h : Point -> Q) (c : Q) :
  (forall a b, f a b == g a b + c * (h a - h b)) ->
  forall l, pathSum f l
            == pathSum g l + c * (h (hd origin l) - h (last l origin)).
Proof.
  intros Hf l. induction l as [|a l IH].
  - cbn [pathSum hd last]. ring.
  - destruct l as [|d l].
    + cbn [pathSum hd last]. ring.
    + change (pathSum f (a :: d :: l)) with (f a d + pathSum f (d :: l)).
      change (pathSum g (a :: d :: l)) with (g a d + pathSum g (d :: l)).
      change (last (a :: d :: l) origin) with (last (d :: l) origin).
      rewrite IH, Hf. cbn [hd]. ring.
Qed.

Lemma closedSum_shift (f g : Point -> Point -> Q) (h : Point -> Q) (c : Q)
      (V : list Point) :
  (forall a b, f a b == g a b + c * (h a - h b)) ->
  closedSum f V == closedSum g V.
Proof.
  intros Hf. destruct V as [|a t]; [reflexivity|].
  rewrite !closedSum_path by discriminate.
  rewrite (pathSum_shift f g h c Hf), Hf. ring.
Qed.

Lemma lineMoment_cross (r : Point) (V : list Point) :
  closedSum (lineMoment r) V == closedSum cross V.
Proof.
  apply closedSum_shift with (h := fun p => x r * y p - y r * x p) (c := 1).
  intros a b. unfold lineMoment, cross. ring.
Qed.

Lemma basePoint_onLine (c : Q) (dir : Direction) :
  onLine c dir (basePoint c dir).
Proof. destruct dir; reflexivity. Qed.

Section ClipFacts.
Variables (c : Q) (dir : Direction).

Lemma inside_below_true (p : Point) :
  isInside p c dir below = true -> coord dir p <= c.
Proof. destruct dir; cbn; apply Qle_bool_iff. Qed.

Lemma inside_below_false (p : Point) :
  isInside p c dir below = false -> c < coord dir p.
Proof. destruct dir; cbn; apply Qle_bool_false. Qed.

Lemma inside_above_true (p : Point) :
  isInside p c dir above = true -> c <= coord dir p.
Proof. destruct dir; cbn; apply Qle_bool_iff. Qed.

Lemma inside_above_false (p : Point) :
  isInside p c dir above = false -> coord dir p < c.
Proof. destruct dir; cbn; apply Qle_bool_false. Qed.

(** Away from the near-parallel branch, the point [intersect] returns
    lies on the cut line and on the line through the edge. *)
Lemma intersect_exact (r p q : Point) :
  edgeNearParallel dir (p, q) = false ->
  onLine c dir (intersect p q c dir) /\
  lineMoment r p (intersect p q c dir)
  + lineMoment r (intersect p q c dir) q
  == lineMoment r p q.
Proof.
  unfold edgeNearParallel, onLine, intersect, coord, lineMoment.
  destruct dir; intros H; rewrite H; cbn [x y];
    (split; [reflexivity|]);
    apply Qlt_bool_false in H.
  - assert (Hne : ~ y q - y p == 0).
    { intros E. rewrite E in H. apply (Qle_not_lt _ _ H). reflexivity. }
    field. exact Hne.
  - assert (Hne : ~ x q - x p == 0).
    { intros E. rewrite E in H. apply (Qle_not_lt _ _ H). reflexivity. }
    field. exact Hne.
Qed.

(** The reference point of the moments: any point of the cut line. *)
Variable ref : Point.
Hypothesis ref_onLine : onLine c dir ref.

Lemma lineMoment_onLine (a b : Point) :
  onLine c dir a -> onLine c dir b -> lineMoment ref a b == 0.
Proof.
  pose proof ref_onLine as Hr. revert Hr.
  unfold onLine, coord, lineMoment. destruct dir; intros Hr Ha Hb;
    rewrite Ha, Hb, Hr; ring.
Qed.

Lemma lineMoment_antisymmetric : antisymmetric (lineMoment ref).
Proof. intros a b. unfold lineMoment. ring. Qed.

Lemma edgeRegular_exact (p q : Point) :
  edgeRegular c dir (p, q) = true ->
  edgeCut c dir (p, q) = true ->
  onLine c dir (intersect p q c dir) /\
  lineMoment ref p (intersect p q c dir)
  + lineMoment ref (intersect p q c dir) q
  == lineMoment ref p q.
Proof.
  unfold edgeRegular. intros Hreg Hcut. rewrite Hcut in Hreg.
  apply intersect_exact.
  destruct (edgeNearParallel dir (p, q)); [discriminate|reflexivity].
Qed.

Ltac inside_facts :=
  repeat match goal with
         | H : isInside _ c dir below = true |- _ =>
             apply inside_below_true in H
         | H : isInside _ c dir below = false |- _ =>
             apply inside_below_false in H
         | H : isInside _ c dir above = true |- _ =>
             apply inside_above_true in H
         | H : isInside _ c dir above = false |- _ =>
             apply inside_above_false in H
         end.

(** On a regular edge the moments kept by the two sides add up to the
    moment of the whole edge. *)
Lemma keptMoment_split (e : Point * Point) :
  edgeRegular c dir e = true ->
  keptMoment ref c dir below e + keptMoment ref c dir above e
  == lineMoment ref (fst e) (snd e).
Proof.
  destruct e as [p q]. intros Hreg.
  pose proof (edgeRegular_exact p q Hreg) as HX.
  pose proof (lineMoment_onLine p q) as Hpq.
  pose proof (lineMoment_onLine p (intersect p q c dir)) as HpX.
  pose proof (lineMoment_onLine (intersect p q c dir) q) as HXq.
  unfold keptMoment. cbn [fst snd edgeCut] in *.
  unfold onLine in *.
  destruct (isInside p c dir below) eqn:Bp, (isInside q c dir below) eqn:Bq,
           (isInside p c dir above) eqn:Ap, (isInside q c dir above) eqn:Aq;
    cbn [eqb negb orb] in HX; inside_facts;
    try (exfalso; lra);
    try (destruct (HX eq_refl) as [HXl HXm]);
    try (specialize (Hpq ltac:(lra) ltac:(lra)));
    try (specialize (HpX ltac:(lra) ltac:(lra)));
    try (specialize (HXq ltac:(lra) ltac:(lra)));
    lra.
Qed.

Variable side : Side.

Lemma last_cons_default (b : Point) (t : list Point) (a : Point) :
  last (b :: t) a = last t b.
Proof.
  revert a b. induction t as [|d t IH]; intros a b; [reflexivity|].
  change (last (b :: d :: t) a) with (last (d :: t) a).
  rewrite (IH a d). symmetry. apply IH.
Qed.

Lemma keptPath_cons (a b : Point) (t : list Point) :
  keptPath c dir side a (b :: t)
  = emitted c dir side (a, b) ++ keptPath c dir side b t.
Proof.
  unfold keptPath. cbn [edgesOf flat_map].
  rewrite last_cons_default, app_assoc. reflexivity.
Qed.

Lemma edgeCut_of_side (p q : Point) :
  isInside p c dir side <> isInside q c dir side ->
  edgeCut c dir (p, q) = true.
Proof.
  unfold edgeCut. destruct side;
    destruct (isInside p c dir below), (isInside q c dir below),
             (isInside p c dir above), (isInside q c dir above);
    cbn; congruence.
Qed.

(** Along a path of regular edges, the path sum of what is kept is the
    sum of the kept moments of the edges; what is kept starts at the first
    vertex or on the cut line, and ends at the last vertex or on the cut
    line. *)
Lemma keptPath_invariant (t : list Point) :
  forall a,
    forallb (edgeRegular c dir) (edgesOf a t) = true ->
    pathSum (lineMoment ref) (keptPath c dir side a t)
    == Qsum (map (keptMoment ref c dir side) (edgesOf a t)) /\
    (isInside a c dir side = true ->
     exists r, keptPath c dir side a t = a :: r) /\
    (isInside a c dir side = false ->
     keptPath c dir side a t = [] \/
     onLine c dir (hd origin (keptPath c dir side a t))) /\
    (isInside (last t a) c dir side = false ->
     keptPath c dir side a t = [] \/
     onLine c dir (last (keptPath c dir side a t) origin)).
Proof.
  induction t as [|b t IH]; intros a Hreg.
  - unfold keptPath. cbn [edgesOf flat_map map Qsum fold_right last app].
    destruct (isInside a c dir side) eqn:Ia.
    + split; [|split; [|split]].
      * reflexivity.
      * intros _. exists []. reflexivity.
      * discriminate.
      * discriminate.
    + split; [|split; [|split]].
      * reflexivity.
      * discriminate.
      * intros _. left. reflexivity.
      * intros _. left. reflexivity.
  - cbn [edgesOf forallb] in Hreg. apply andb_true_iff in Hreg.
    destruct Hreg as [Hab Hrest].
    destruct (IH b Hrest) as (Hsum & Hhd_in & Hhd_out & Hlast).
    rewrite keptPath_cons, last_cons_default.
    cbn [edgesOf map Qsum fold_right].
    fold (Qsum (map (keptMoment ref c dir side) (edgesOf b t))).
    rewrite <- Hsum.
    pose proof (edgeRegular_exact a b Hab) as HX.
    unfold emitted, keptMoment.
    destruct (isInside a c dir side) eqn:Ia,
             (isInside b c dir side) eqn:Ib; cbn [negb app].
    + (* both kept *)
      destruct (Hhd_in eq_refl) as [r Er]. rewrite Er in *.
      split; [|split; [|split]].
      * cbn [pathSum]. reflexivity.
      * intros _. eexists. reflexivity.
      * discriminate.
      * intros Hl. destruct (Hlast Hl) as [E|E]; [discriminate|].
        right. exact E.
    + (* leaving the kept side *)
      destruct HX as [HXl _];
        [apply edgeCut_of_side; rewrite Ia, Ib; discriminate|].
      split; [|split; [|split]].
      * destruct (Hhd_out eq_refl) as [E|E].
        -- rewrite E. cbn [pathSum]. ring.
        -- destruct (keptPath c dir side b t) as [|u r] eqn:Ek.
           ++ cbn [pathSum]. ring.
           ++ cbn [hd] in E.
              change (pathSum (lineMoment ref)
                              (a :: intersect a b c dir :: u :: r))
                with (lineMoment ref a (intersect a b c dir)
                      + (lineMoment ref (intersect a b c dir) u
                         + pathSum (lineMoment ref) (u :: r))).
              rewrite (lineMoment_onLine _ _ HXl E). ring.
      * intros _. eexists. reflexivity.
      * discriminate.
      * intros Hl. right.
        destruct (keptPath c dir side b t) as [|u r] eqn:Ek.
        -- cbn [last]. exact HXl.
        -- destruct (Hlast Hl) as [E|E]; [discriminate|].
           change (a :: intersect a b c dir :: u :: r)
             with ([a; intersect a b c dir] ++ u :: r).
           rewrite last_app_nonempty by discriminate. exact E.
    + (* entering the kept side *)
      destruct HX as [HXl _];
        [apply edgeCut_of_side; rewrite Ia, Ib; discriminate|].
      destruct (Hhd_in eq_refl) as [r Er]. rewrite Er in *.
      split; [|split; [|split]].
      * cbn [pathSum]. reflexivity.
      * discriminate.
      * intros _. right. cbn [hd]. exact HXl.
      * intros Hl. right.
        destruct (Hlast Hl) as [E|E]; [discriminate|].
        change (intersect a b c dir :: b :: r)
          with ([intersect a b c dir] ++ b :: r).
        rewrite last_app_nonempty by discriminate. exact E.
    + (* both dropped *)
      split; [|split; [|split]].
      * ring.
      * discriminate.
      * intros _. apply Hhd_out. reflexivity.
      * exact Hlast.
Qed.

(** Closing the path: the closed sum over what the clipper returns for a
    polygon of regular edges is the sum of the kept moments. *)
Lemma closed_kept (a : Point) (t : list Point) :
  forallb (edgeRegular c dir) (cyclic_pairs (a :: t)) = true ->
  closedSum (lineMoment ref)
            (flat_map (emitted c dir side) (cyclic_pairs (a :: t)))
  == Qsum (map (keptMoment ref c dir side) (cyclic_pairs (a :: t))).
Proof.
  rewrite cyclic_pairs_edgesOf. intros Hreg.
  destruct (keptPath_invariant (t ++ [a]) a Hreg)
    as (Hsum & Hhd_in & Hhd_out & Hlast).
  unfold keptPath in *. rewrite last_last in *.
  set (out := flat_map (emitted c dir side) (edgesOf a (t ++ [a]))) in *.
  rewrite <- Hsum.
  destruct (isInside a c dir side) eqn:Ia.
  - destruct (Hhd_in eq_refl) as [r Er].
    destruct out as [|u out'].
    + cbn [app pathSum]. reflexivity.
    + cbn [app] in Er. injection Er as -> _.
      rewrite closedSum_path by discriminate.
      rewrite pathSum_app_last by discriminate.
      cbn [hd]. reflexivity.
  - rewrite app_nil_r in *.
    destruct out as [|u out'].
    + reflexivity.
    + destruct (Hhd_out eq_refl) as [E|E]; [discriminate|].
      destruct (Hlast eq_refl) as [E'|E']; [discriminate|].
      rewrite closedSum_path by discriminate.
      rewrite (lineMoment_onLine _ _ E' E). ring.
Qed.

End ClipFacts.

Lemma Qsum_kept_split (r : Point) (c : Q) (dir : Direction)
      (l : list (Point * Point)) :
  onLine c dir r ->
  forallb (edgeRegular c dir) l = true ->
  Qsum (map (keptMoment r c dir below) l)
  + Qsum (map (keptMoment r c dir above) l)
  == Qsum (map (fun e => lineMoment r (fst e) (snd e)) l).
Proof.
  intros Hr. unfold Qsum.
  induction l as [|e l IH]; intros H; cbn [map fold_right].
  - ring.
  - cbn [forallb] in H. apply andb_true_iff in H. destruct H as [He Hl].
    rewrite <- (IH Hl), <- (keptMoment_split c dir r Hr e He). ring.
Qed.

(** With regular edges the signed areas of the two fragments add up to
    the signed area of the polygon. *)
Lemma clip_signed_sum (V : list Point) (c : Q) (dir : Direction) :
  noDegenerateCut V c dir = true ->
  signedPolygonArea (clipPolygon V c dir below)
  + signedPolygonArea (clipPolygon V c dir above)
  == signedPolygonArea V.
Proof.
  intros Hreg. unfold clipPolygon.
  destruct (length V <? 3)%nat eqn:E.
  - unfold signedPolygonArea at 3. rewrite E. reflexivity.
  - destruct V as [|a t]; [discriminate|].
    rewrite !fold_clipStep. cbn [app].
    rewrite !signedPolygonArea_closed.
    pose proof (basePoint_onLine c dir) as Hr.
    rewrite <- !(lineMoment_cross (basePoint c dir)).
    rewrite !(closed_kept c dir (basePoint c dir) Hr) by exact Hreg.
    unfold closedSum at 1.
    rewrite <- (Qsum_kept_split _ c dir _ Hr Hreg). field.
Qed.

Lemma Qabs_sum_iff (a b : Q) :
  Qabs a + Qabs b == Qabs (a + b) <-> 0 <= a * b.
Proof.
  split.
  - apply (Qabs_case a); apply (Qabs_case b); apply (Qabs_case (a + b));
      intros; nra.
  - apply (Qabs_case a); apply (Qabs_case b); apply (Qabs_case (a + b));
      intros; nra.
Qed.

(** *** Convex polygons: the fragments keep the winding *)

Lemma cyclic_pairs_In (V : list Point) (e : Point * Point) :
  In e (cyclic_pairs V) -> In (fst e) V /\ In (snd e) V.
Proof.
  unfold cyclic_pairs. intros He. apply in_map_iff in He.
  destruct He as [i [<- Hi]]. apply in_seq in Hi. cbn [fst snd].
  split; apply nth_In; [lia|apply Nat.mod_upper_bound; lia].
Qed.

Lemma lineMoment_orient (r p q : Point) : lineMoment r p q == orient p q r.
Proof. unfold lineMoment, orient. ring. Qed.

Lemma Qdiv_unit_interval (n d : Q) :
  (0 <= n /\ n <= d /\ 0 < d) \/ (d <= n /\ n <= 0 /\ d < 0) ->
  0 <= n / d <= 1.
Proof.
  intros [(H1 & H2 & H3)|(H1 & H2 & H3)].
  - split; [apply Qle_shift_div_l|apply Qle_shift_div_r]; lra.
  - assert (E : n / d == (- n) / (- d)) by (field; lra).
    rewrite E.
    split; [apply Qle_shift_div_l|apply Qle_shift_div_r]; lra.
Qed.

Section ConvexFacts.
Variables (c : Q) (dir : Direction).

(** The parameter of the intersection point along the edge. *)
Let param (p q : Point) : Q :=
  (c - coord dir p) / (coord dir q - coord dir p).

Lemma edgeCut_between (p q : Point) :
  edgeCut c dir (p, q) = true -> 0 <= param p q <= 1.
Proof.
  unfold edgeCut, param. intros H. apply Qdiv_unit_interval.
  destruct (isInside p c dir below) eqn:Bp, (isInside q c dir below) eqn:Bq,
           (isInside p c dir above) eqn:Ap, (isInside q c dir above) eqn:Aq;
    cbn in H; try discriminate;
    repeat match goal with
           | H : isInside _ c dir below = true |- _ =>
               apply inside_below_true in H
           | H : isInside _ c dir below = false |- _ =>
               apply inside_below_false in H
           | H : isInside _ c dir above = true |- _ =>
               apply inside_above_true in H
           | H : isInside _ c dir above = false |- _ =>
               apply inside_above_false in H
           end;
    first [left; split; [|split]; lra | right; split; [|split]; lra].
Qed.

(** Away from the near-parallel branch, [intersect] returns the point of
    the edge at parameter [param]. *)
Lemma intersect_param (p q : Point) :
  edgeNearParallel dir (p, q) = false ->
  (forall r, lineMoment r p (intersect p q c dir)
             == param p q * lineMoment r p q) /\
  (forall r, lineMoment r (intersect p q c dir) q
             == (1 - param p q) * lineMoment r p q) /\
  (forall a b, orient a b (intersect p q c dir)
               == (1 - param p q) * orient a b p + param p q * orient a b q).
Proof.
  unfold edgeNearParallel, param, intersect, coord, lineMoment, orient.
  destruct dir; intros H; rewrite H; cbn [x y];
    apply Qlt_bool_false in H.
  - assert (Hne : ~ y q - y p == 0).
    { intros E. rewrite E in H. apply (Qle_not_lt _ _ H). reflexivity. }
    split; [|split]; intros; field; exact Hne.
  - assert (Hne : ~ x q - x p == 0).
    { intros E. rewrite E in H. apply (Qle_not_lt _ _ H). reflexivity. }
    split; [|split]; intros; field; exact Hne.
Qed.

Lemma edgeRegular_cut (p q : Point) :
  edgeRegular c dir (p, q) = true ->
  edgeCut c dir (p, q) = true ->
  edgeNearParallel dir (p, q) = false.
Proof.
  unfold edgeRegular. intros Hreg Hcut. rewrite Hcut in Hreg.
  destruct (edgeNearParallel dir (p, q)); [discriminate|reflexivity].
Qed.

(** Seen from a point on the side [sgn] of the edge, the moment the
    clipper keeps of the edge has the sign [sgn]. *)
Lemma keptMoment_sign (sgn : Q) (r : Point) (side : Side) (p q : Point) :
  edgeRegular c dir (p, q) = true ->
  0 <= sgn * orient p q r ->
  0 <= sgn * keptMoment r c dir side (p, q).
Proof.
  intros Hreg Hside. unfold keptMoment.
  pose proof (lineMoment_orient r p q) as Ho.
  destruct (isInside p c dir side) eqn:Ip, (isInside q c dir side) eqn:Iq.
  - rewrite Ho. exact Hside.
  - assert (Hcut : edgeCut c dir (p, q) = true)
      by (apply (edgeCut_of_side c dir side); rewrite Ip, Iq; discriminate).
    destruct (intersect_param p q (edgeRegular_cut p q Hreg Hcut))
      as (H1 & _ & _).
    pose proof (edgeCut_between p q Hcut) as [Hs0 Hs1].
    rewrite H1, Ho.
    setoid_replace (sgn * (param p q * orient p q r))
      with (param p q * (sgn * orient p q r)) by ring.
    apply Qmult_le_0_compat; assumption.
  - assert (Hcut : edgeCut c dir (p, q) = true)
      by (apply (edgeCut_of_side c dir side); rewrite Ip, Iq; discriminate).
    destruct (intersect_param p q (edgeRegular_cut p q Hreg Hcut))
      as (_ & H2 & _).
    pose proof (edgeCut_between p q Hcut) as [Hs0 Hs1].
    rewrite H2, Ho.
    setoid_replace (sgn * ((1 - param p q) * orient p q r))
      with ((1 - param p q) * (sgn * orient p q r)) by ring.
    apply Qmult_le_0_compat; [lra|assumption].
  - lra.
Qed.

(** The intersection point of a cut edge lies on the side [sgn] of every
    edge that has both its endpoints there. *)
Lemma intersect_in_hull (sgn : Q) (p0 q0 a b : Point) :
  edgeRegular c dir (p0, q0) = true ->
  edgeCut c dir (p0, q0) = true ->
  0 <= sgn * orient a b p0 ->
  0 <= sgn * orient a b q0 ->
  0 <= sgn * orient a b (intersect p0 q0 c dir).
Proof.
  intros Hreg Hcut Hp Hq.
  destruct (intersect_param p0 q0 (edgeRegular_cut p0 q0 Hreg Hcut))
    as (_ & _ & H3).
  pose proof (edgeCut_between p0 q0 Hcut) as [Hs0 Hs1].
  rewrite H3.
  setoid_replace (sgn * ((1 - param p0 q0) * orient a b p0
                         + param p0 q0 * orient a b q0))
    with ((1 - param p0 q0) * (sgn * orient a b p0)
          + param p0 q0 * (sgn * orient a b q0)) by ring.
  assert (0 <= (1 - param p0 q0) * (sgn * orient a b p0))
    by (apply Qmult_le_0_compat; [lra|assumption]).
  assert (0 <= param p0 q0 * (sgn * orient a b q0))
    by (apply Qmult_le_0_compat; assumption).
  lra.
Qed.

Lemma Qsum_kept_sign (sgn : Q) (r : Point) (side : Side)
      (l : list (Point * Point)) :
  (forall e, In e l ->
             edgeRegular c dir e = true /\
             0 <= sgn * orient (fst e) (snd e) r) ->
  0 <= sgn * Qsum (map (keptMoment r c dir side) l).
Proof.
  unfold Qsum. induction l as [|[p q] l IH]; intros H; cbn [map fold_right].
  - lra.
  - destruct (H (p, q) (or_introl eq_refl)) as [Hreg Hside].
    pose proof (keptMoment_sign sgn r side p q Hreg Hside).
    specialize (IH (fun e He => H e (or_intror He))). lra.
Qed.
End ConvexFacts.

Lemma convexWith_orient (sgn : Q) (V : list Point) (e : Point * Point)
      (v : Point) :
  convexWith sgn V = true ->
  In e (cyclic_pairs V) -> In v V ->
  0 <= sgn * orient (fst e) (snd e) v.
Proof.
  unfold convexWith. intros H He Hv.
  rewrite forallb_forall in H. specialize (H e He).
  rewrite forallb_forall in H. apply Qle_bool_iff, H, Hv.
Qed.

Lemma clipPolygon_closed_kept (V : list Point) (c : Q) (dir : Direction)
      (side : Side) (r : Point) :
  onLine c dir r ->
  noDegenerateCut V c dir = true ->
  (3 <= length V)%nat ->
  signedPolygonArea (clipPolygon V c dir side)
  == Qsum (map (keptMoment r c dir side) (cyclic_pairs V)) / 2.
Proof.
  intros Hr Hreg Hlen. unfold clipPolygon.
  replace (length V <? 3)%nat with false
    by (symmetry; apply Nat.ltb_ge; exact Hlen).
  destruct V as [|a t]; [cbn in Hlen; lia|].
  rewrite fold_clipStep. cbn [app].
  rewrite signedPolygonArea_closed, <- (lineMoment_cross r).
  rewrite (closed_kept c dir r Hr side a t Hreg). reflexivity.
Qed.

(** A convex polygon with a cut edge: each fragment has the winding of
    the polygon. *)
Lemma convex_fragment_sign (sgn : Q) (V : list Point) (c : Q)
      (dir : Direction) (side : Side) (e0 : Point * Point) :
  convexWith sgn V = true ->
  noDegenerateCut V c dir = true ->
  In e0 (cyclic_pairs V) ->
  edgeCut c dir e0 = true ->
  0 <= sgn * signedPolygonArea (clipPolygon V c dir side).
Proof.
  intros Hconv Hreg He0 Hcut.
  destruct (Nat.lt_ge_cases (length V) 3) as [Hshort|Hlen].
  - unfold clipPolygon. rewrite (short_ltb _ _ Hshort).
    unfold signedPolygonArea. cbn. lra.
  - destruct e0 as [p0 q0].
    pose proof Hreg as Hall. unfold noDegenerateCut in Hall.
    rewrite forallb_forall in Hall.
    destruct (cyclic_pairs_In V (p0, q0) He0) as [Hp0 Hq0].
    cbn [fst snd] in Hp0, Hq0.
    pose proof (edgeRegular_exact c dir (intersect p0 q0 c dir) p0 q0
                  (Hall _ He0) Hcut) as [Hr _].
    rewrite (clipPolygon_closed_kept V c dir side _ Hr Hreg Hlen).
    assert (Hsum : 0 <= sgn * Qsum (map (keptMoment (intersect p0 q0 c dir)
                                                  c dir side)
                                      (cyclic_pairs V))).
    { apply Qsum_kept_sign. intros e He. split; [apply Hall, He|].
      apply intersect_in_hull; [apply (Hall _ He0)|exact Hcut| |].
      - apply (convexWith_orient sgn V e p0 Hconv He Hp0).
      - apply (convexWith_orient sgn V e q0 Hconv He Hq0). }
    set (S := Qsum _) in *.
    setoid_replace (sgn * (S / 2)) with (sgn * S / 2) by field.
    apply Qle_shift_div_l; lra.
Qed.

Lemma edgeCut_false (c : Q) (dir : Direction) (side : Side) (p q : Point) :
  edgeCut c dir (p, q) = false ->
  isInside p c dir side = isInside q c dir side.
Proof.
  unfold edgeCut. destruct side;
    destruct (isInside p c dir below), (isInside q c dir below),
             (isInside p c dir above), (isInside q c dir above);
    cbn; congruence.
Qed.

(** Along a path without cut edges every vertex is on the side of the
    first one. *)
Lemma uncut_status (c : Q) (dir : Direction) (side : Side) (t : list Point) :
  forall a,
    existsb (edgeCut c dir) (edgesOf a t) = false ->
    forall e, In e (edgesOf a t) ->
              isInside (fst e) c dir side = isInside a c dir side /\
              isInside (snd e) c dir side = isInside a c dir side.
Proof.
  induction t as [|b t IH]; intros a H e He; [destruct He|].
  cbn [edgesOf existsb] in H. apply orb_false_iff in H.
  destruct H as [Hab Hrest].
  pose proof (edgeCut_false c dir side a b Hab) as Eab.
  destruct He as [<-|He].
  - cbn [fst snd]. split; [reflexivity|symmetry; exact Eab].
  - destruct (IH b Hrest e He) as [E1 E2]. rewrite E1, E2.
    split; symmetry; exact Eab.
Qed.

Lemma uncut_kept (r : Point) (c : Q) (dir : Direction) (side : Side)
      (inside : bool) (l : list (Point * Point)) :
  (forall e, In e l ->
             isInside (fst e) c dir side = inside /\
             isInside (snd e) c dir side = inside) ->
  Qsum (map (keptMoment r c dir side) l)
  == if inside
     then Qsum (map (fun e => lineMoment r (fst e) (snd e)) l)
     else 0.
Proof.
  unfold Qsum. induction l as [|[p q] l IH]; intros H; cbn [map fold_right].
  - destruct inside; reflexivity.
  - destruct (H (p, q) (or_introl eq_refl)) as [Ep Eq].
    cbn [fst snd] in Ep, Eq.
    rewrite (IH (fun e He => H e (or_intror He))).
    unfold keptMoment. rewrite Ep, Eq.
    destruct inside; cbn [fst snd]; ring.
Qed.

Lemma existsb_false_In (A : Type) (f : A -> bool) (l : list A) (a : A) :
  existsb f l = false -> In a l -> f a = false.
Proof.
  intros H Ha. destruct (f a) eqn:E; [|reflexivity].
  assert (Hex : existsb f l = true)
    by (apply existsb_exists; exists a; split; assumption).
  congruence.
Qed.

(** A polygon none of whose edges is cut: each fragment is the whole
    polygon or nothing. *)
Lemma uncut_fragment (V : list Point) (c : Q) (dir : Direction) (side : Side) :
  existsb (edgeCut c dir) (cyclic_pairs V) = false ->
  signedPolygonArea (clipPolygon V c dir side) == signedPolygonArea V \/
  signedPolygonArea (clipPolygon V c dir side) == 0.
Proof.
  intros Hno.
  destruct (Nat.lt_ge_cases (length V) 3) as [Hshort|Hlen].
  - right. unfold clipPolygon. rewrite (short_ltb _ _ Hshort). reflexivity.
  - assert (Hreg : noDegenerateCut V c dir = true).
    { unfold noDegenerateCut. apply forallb_forall. intros e He.
      unfold edgeRegular.
      rewrite (existsb_false_In _ _ _ e Hno He). reflexivity. }
    rewrite (clipPolygon_closed_kept V c dir side (basePoint c dir)
               (basePoint_onLine c dir) Hreg Hlen).
    destruct V as [|a t]; [cbn in Hlen; lia|].
    rewrite cyclic_pairs_edgesOf in *.
    rewrite (uncut_kept _ c dir side (isInside a c dir side))
      by (apply uncut_status; exact Hno).
    destruct (isInside a c dir side); [left|right; reflexivity].
    rewrite signedPolygonArea_closed, <- (lineMoment_cross (basePoint c dir)).
    unfold closedSum. rewrite cyclic_pairs_edgesOf. reflexivity.
Qed.

(** The fragments of a convex polygon are not wound against each other. *)
Lemma convex_fragments_agree (V : list Point) (c : Q) (dir : Direction) :
  convexPolygon V = true ->
  noDegenerateCut V c dir = true ->
  0 <= signedPolygonArea (clipPolygon V c dir below)
       * signedPolygonArea (clipPolygon V c dir above).
Proof.
  intros Hconv Hreg.
  destruct (existsb (edgeCut c dir) (cyclic_pairs V)) eqn:Hcut.
  - apply existsb_exists in Hcut. destruct Hcut as [e0 [He0 Hcut]].
    unfold convexPolygon in Hconv. apply orb_true_iff in Hconv.
    destruct Hconv as [Hc|Hc].
    + pose proof (convex_fragment_sign 1 V c dir below e0 Hc Hreg He0 Hcut).
      pose proof (convex_fragment_sign 1 V c dir above e0 Hc Hreg He0 Hcut).
      nra.
    + pose proof (convex_fragment_sign (- (1)) V c dir below e0 Hc Hreg He0 Hcut).
      pose proof (convex_fragment_sign (- (1)) V c dir above e0 Hc Hreg He0 Hcut).
      nra.
  - destruct (uncut_fragment V c dir below Hcut) as [Eb|Eb],
             (uncut_fragment V c dir above Hcut) as [Ea|Ea];
      rewrite Eb, Ea; nra.
Qed.

(** The statement with exact equality.  The quadrilateral is simple; cut
    at y = 1, its second edge takes the near-parallel branch of
    [intersect], the upper fragment starts at the vertex
    (2, 1 - 5e-13) below the line, and the two areas add up to 2.5e-13
    more than the area of the polygon. *)
Lemma fragments_partition_area_fails : ~ fragments_partition_area.
Proof.
  intros H.
  assert (Hs : simplePolygon grazed_quad = true) by (vm_compute; reflexivity).
  specialize (H grazed_quad 1 horizontal Hs).
  vm_compute in H. discriminate H.
Qed.

(** The excess is not held by a tolerance.  The quadrilateral 1e13 wide
    and 1e-12 high is simple and has area 4.75; cut at y = 0, the edge
    that rises onto the line by 4e-13 takes the near-parallel branch,
    and the areas of the two fragments, 3.5 and 2.25, add up to 5.75. *)
Lemma fragments_partition_fails_widely :
  simplePolygon wide_quad = true /\
  polygonArea wide_quad == 19 # 4 /\
  polygonArea (clipPolygon wide_quad 0 horizontal below) == 7 # 2 /\
  polygonArea (clipPolygon wide_quad 0 horizontal above) == 9 # 4.
Proof. repeat split; vm_compute; reflexivity. Qed.

(** A concrete vertex list lies within a concrete bound. *)
Ltac within_bound :=
  repeat (apply Forall_cons; [split; vm_compute; discriminate|]);
  apply Forall_nil.

(** For every polygon within 1000 units of the axes and every cut on
    which no edge that is intersected takes the near-parallel branch of
    [intersect] (its endpoints are at least 1e-12 apart in the cut
    coordinate), the signed areas of the fragment below and of the
    fragment above add up to the signed area of the polygon; their areas
    add up to the area of the polygon exactly when the two fragments
    are not wound against each other. *)
Theorem fragments_signed_areas_add
        (V : list Point) (c : Q) (dir : Direction) :
  polygonWithin 1000 V ->
  noDegenerateCut V c dir = true ->
  signedPolygonArea (clipPolygon V c dir below)
  + signedPolygonArea (clipPolygon V c dir above)
  == signedPolygonArea V /\
  (polygonArea (clipPolygon V c dir below)
   + polygonArea (clipPolygon V c dir above)
   == polygonArea V
   <->
   0 <= signedPolygonArea (clipPolygon V c dir below)
        * signedPolygonArea (clipPolygon V c dir above)).
Proof.
  intros _ Hreg. pose proof (clip_signed_sum V c dir Hreg) as Hsum.
  split; [exact Hsum|].
  unfold polygonArea. rewrite <- Hsum. apply Qabs_sum_iff.
Qed.

Lemma fragments_signed_areas_add_witness :
  polygonWithin 1000 (outerBoundary rect_10x8) /\
  signedPolygonArea (clipPolygon (outerBoundary rect_10x8) 4 horizontal below)
  + signedPolygonArea (clipPolygon (outerBoundary rect_10x8) 4 horizontal above)
  == signedPolygonArea (outerBoundary rect_10x8).
Proof.
  assert (Hw : polygonWithin 1000 (outerBoundary rect_10x8))
    by (unfold polygonWithin; cbn [rect_10x8 outerBoundary]; within_bound).
  split; [exact Hw|].
  assert (Hreg : noDegenerateCut (outerBoundary rect_10x8) 4 horizontal = true)
    by (vm_compute; reflexivity).
  exact (proj1 (fragments_signed_areas_add (outerBoundary rect_10x8) 4
                  horizontal Hw Hreg)).
Defined.

(** For every convex polygon within 1000 units of the axes and every
    cut on which no edge that is intersected takes the near-parallel
    branch of [intersect], the areas of the two fragments add up to the
    area of the polygon: the fragments partition it. *)
Theorem convex_fragments_partition
        (V : list Point) (c : Q) (dir : Direction) :
  polygonWithin 1000 V ->
  convexPolygon V = true ->
  noDegenerateCut V c dir = true ->
  polygonArea (clipPolygon V c dir below)
  + polygonArea (clipPolygon V c dir above)
  == polygonArea V.
Proof.
  intros _ Hconv Hreg.
  pose proof (clip_signed_sum V c dir Hreg) as Hsum.
  unfold polygonArea. rewrite <- Hsum. apply Qabs_sum_iff.
  apply convex_fragments_agree; assumption.
Qed.

Lemma convex_fragments_partition_witness :
  polygonWithin 1000 (outerBoundary rect_10x8) /\
  polygonArea (clipPolygon (outerBoundary rect_10x8) 3 horizontal below)
  + polygonArea (clipPolygon (outerBoundary rect_10x8) 3 horizontal above)
  == polygonArea (outerBoundary rect_10x8).
Proof.
  assert (Hw : polygonWithin 1000 (outerBoundary rect_10x8))
    by (unfold polygonWithin; cbn [rect_10x8 outerBoundary]; within_bound).
  split; [exact Hw|].
  apply (convex_fragments_partition (outerBoundary rect_10x8) 3 horizontal Hw);
    vm_compute; reflexivity.
Defined.

(** The rectangle cut at mid-height: the two fragments have area 40
    each. *)
Lemma rectangle_fragments_add_up :
  polygonArea (clipPolygon (outerBoundary rect_10x8) 4 horizontal below) == 40 /\
  polygonArea (clipPolygon (outerBoundary rect_10x8) 4 horizontal above) == 40 /\
  polygonArea (outerBoundary rect_10x8) == 80.
Proof. repeat split; vm_compute; reflexivity. Qed.

(** Why the statement is about simple polygons: cut at x = 1, the
    self-crossing quadrilateral falls into two fragments wound against
    each other, whose areas add up to 2 while its own shoelace area is
    0. *)
Lemma bowtie_fragments_opposed :
  simplePolygon bowtie = false /\
  noDegenerateCut bowtie 1 vertical = true /\
  signedPolygonArea (clipPolygon bowtie 1 vertical below) == 1 /\
  signedPolygonArea (clipPolygon bowtie 1 vertical above) == - (1) /\
  polygonArea bowtie == 0.
Proof. repeat split; vm_compute; reflexivity. Qed.

(** * Further properties of the code *)

(** ** The clipper: what a fragment holds *)

Lemma clipPolygon_flat (V : list Point) (c : Q) (dir : Direction) (side : Side) :
  clipPolygon V c dir side
  = if (length V <? 3)%nat then []
    else flat_map (emitted c dir side) (cyclic_pairs V).
Proof.
  unfold clipPolygon. destruct (length V <? 3)%nat; [reflexivity|].
  rewrite fold_clipStep. reflexivity.
Qed.

Lemma inside_onLine (c : Q) (dir : Direction) (side : Side) (p : Point) :
  onLine c dir p -> isInside p c dir side = true.
Proof.
  unfold onLine, coord, isInside. intros H.
  destruct dir, side; apply Qle_bool_iff; rewrite H; apply Qle_refl.
Qed.

Lemma emitted_inside (c : Q) (dir : Direction) (side : Side) (p q : Point) :
  edgeRegular c dir (p, q) = true ->
  forall v, In v (emitted c dir side (p, q)) -> isInside v c dir side = true.
Proof.
  intros Hreg v. unfold emitted.
  destruct (isInside p c dir side) eqn:Ep, (isInside q c dir side) eqn:Eq;
    cbn [negb In].
  - intros [<-|[]]. exact Ep.
  - intros [<-|[<-|[]]]; [exact Ep|].
    apply inside_onLine.
    apply (edgeRegular_exact c dir origin p q Hreg).
    apply (edgeCut_of_side c dir side). congruence.
  - intros [<-|[]].
    apply inside_onLine.
    apply (edgeRegular_exact c dir origin p q Hreg).
    apply (edgeCut_of_side c dir side). congruence.
  - intros [].
Qed.

(** Every vertex of a fragment lies on the kept side of the cut, the cut
    line included, when no intersection is computed on a near-parallel
    edge. *)
Theorem clipPolygon_kept_side
        (V : list Point) (c : Q) (dir : Direction) (side : Side) :
  noDegenerateCut V c dir = true ->
  forall v, In v (clipPolygon V c dir side) ->
            match side with
            | below => coord dir v <= c
            | above => c <= coord dir v
            end.
Proof.
  intros Hreg v Hv. rewrite clipPolygon_flat in Hv.
  destruct (length V <? 3)%nat; [destruct Hv|].
  apply in_flat_map in Hv. destruct Hv as [[p q] [He Hv]].
  unfold noDegenerateCut in Hreg.
  pose proof (proj1 (forallb_forall _ _) Hreg (p, q) He) as Hpq.
  pose proof (emitted_inside c dir side p q Hpq v Hv) as Hin.
  destruct side.
  - apply inside_below_true. exact Hin.
  - apply inside_above_true. exact Hin.
Qed.

Lemma clipPolygon_kept_side_witness :
  noDegenerateCut [pt 0 0; pt 10 0; pt 10 8; pt 0 8] 4 horizontal = true /\
  forall v,
    In v (clipPolygon [pt 0 0; pt 10 0; pt 10 8; pt 0 8] 4 horizontal below) ->
    coord horizontal v <= 4.
Proof.
  split; [vm_compute; reflexivity|].
  apply (clipPolygon_kept_side [pt 0 0; pt 10 0; pt 10 8; pt 0 8] 4
           horizontal below).
  vm_compute. reflexivity.
Defined.

Lemma map_fst_cyclic_pairs (V : list Point) : map fst (cyclic_pairs V) = V.
Proof.
  rewrite cyclic_pairs_combine.
  assert (H : forall (l m : list Point), length l = length m ->
                                         map fst (combine l m) = l).
  { induction l as [|a l IH]; intros [|b m] Hlen; try discriminate;
      [reflexivity|].
    cbn [combine map fst]. f_equal. apply IH. cbn in Hlen. lia. }
  apply H. destruct V as [|a l]; [reflexivity|].
  cbn [tl firstn]. rewrite length_app. cbn [length]. lia.
Qed.

Lemma flat_map_singletons (A B : Type) (f : A -> list B) (g : A -> B)
      (l : list A) :
  (forall a, In a l -> f a = [g a]) -> flat_map f l = map g l.
Proof.
  induction l as [|a l IH]; intros H; [reflexivity|].
  cbn [flat_map map]. rewrite (H a (or_introl eq_refl)).
  rewrite IH by (intros b Hb; apply H; right; exact Hb). reflexivity.
Qed.

Lemma flat_map_empty (A B : Type) (f : A -> list B) (l : list A) :
  (forall a, In a l -> f a = []) -> flat_map f l = [].
Proof.
  induction l as [|a l IH]; intros H; [reflexivity|].
  cbn [flat_map]. rewrite (H a (or_introl eq_refl)).
  rewrite IH by (intros b Hb; apply H; right; exact Hb). reflexivity.
Qed.

Lemma clipPolygon_fixed
      (V : list Point) (c : Q) (dir : Direction) (side : Side) :
  (3 <= length V)%nat ->
  (forall v, In v V -> isInside v c dir side = true) ->
  clipPolygon V c dir side = V.
Proof.
  intros Hlen Hin. rewrite clipPolygon_flat.
  replace (length V <? 3)%nat with false
    by (symmetry; apply Nat.ltb_ge; exact Hlen).
  rewrite (flat_map_singletons _ _ _ fst).
  - apply map_fst_cyclic_pairs.
  - intros [p q] He. apply cyclic_pairs_In in He. cbn [fst snd] in He.
    unfold emitted. rewrite (Hin p), (Hin q) by tauto. reflexivity.
Qed.

Lemma clipPolygon_empty
      (V : list Point) (c : Q) (dir : Direction) (side : Side) :
  (forall v, In v V -> isInside v c dir side = false) ->
  clipPolygon V c dir side = [].
Proof.
  intros Hout. rewrite clipPolygon_flat.
  destruct (length V <? 3)%nat; [reflexivity|].
  apply flat_map_empty.
  intros [p q] He. apply cyclic_pairs_In in He. cbn [fst snd] in He.
  unfold emitted. rewrite (Hout p), (Hout q) by tauto. reflexivity.
Qed.

(** A polygon is its own fragment when all its vertices lie on the kept
    side, the cut line included: the clipper returns them unchanged and
    in order.  When none of them lies on the kept side, the fragment is
    empty. *)
Theorem clipPolygon_whole_or_nothing
        (V : list Point) (c : Q) (dir : Direction) (side : Side) :
  ((3 <= length V)%nat ->
   (forall v, In v V -> isInside v c dir side = true) ->
   clipPolygon V c dir side = V) /\
  ((forall v, In v V -> isInside v c dir side = false) ->
   clipPolygon V c dir side = []).
Proof.
  split; [apply clipPolygon_fixed|apply clipPolygon_empty].
Qed.

Lemma clipPolygon_whole_or_nothing_witness :
  clipPolygon [pt 0 0; pt 10 0; pt 10 8; pt 0 8] 8 horizontal below
  = [pt 0 0; pt 10 0; pt 10 8; pt 0 8] /\
  clipPolygon [pt 0 0; pt 10 0; pt 10 8; pt 0 8] 9 horizontal above = [].
Proof.
  split.
  - apply (proj1 (clipPolygon_whole_or_nothing
                    [pt 0 0; pt 10 0; pt 10 8; pt 0 8] 8 horizontal below)).
    + simpl. lia.
    + intros v Hv. simpl in Hv.
      repeat (destruct Hv as [<-|Hv]; [vm_compute; reflexivity|]).
      destruct Hv.
  - apply (proj2 (clipPolygon_whole_or_nothing
                    [pt 0 0; pt 10 0; pt 10 8; pt 0 8] 9 horizontal above)).
    intros v Hv. simpl in Hv.
    repeat (destruct Hv as [<-|Hv]; [vm_compute; reflexivity|]).
    destruct Hv.
Defined.

(** Clipping a fragment again at the same line and side changes nothing,
    when the fragment still is a polygon and no intersection was computed
    on a near-parallel edge. *)
Theorem clipPolygon_idempotent
        (V : list Point) (c : Q) (dir : Direction) (side : Side) :
  noDegenerateCut V c dir = true ->
  (3 <= length (clipPolygon V c dir side))%nat ->
  clipPolygon (clipPolygon V c dir side) c dir side = clipPolygon V c dir side.
Proof.
  intros Hreg Hlen. apply clipPolygon_fixed; [exact Hlen|].
  intros v Hv. rewrite clipPolygon_flat in Hv.
  destruct (length V <? 3)%nat; [destruct Hv|].
  apply in_flat_map in Hv. destruct Hv as [[p q] [He Hv]].
  unfold noDegenerateCut in Hreg.
  pose proof (proj1 (forallb_forall _ _) Hreg (p, q) He) as Hpq.
  exact (emitted_inside c dir side p q Hpq v Hv).
Qed.

Lemma clipPolygon_idempotent_witness :
  clipPolygon (clipPolygon [pt 0 0; pt 10 0; pt 10 8; pt 0 8] 4 horizontal below)
              4 horizontal below
  = clipPolygon [pt 0 0; pt 10 0; pt 10 8; pt 0 8] 4 horizontal below.
Proof.
  apply (clipPolygon_idempotent [pt 0 0; pt 10 0; pt 10 8; pt 0 8] 4
           horizontal below).
  - vm_compute. reflexivity.
  - vm_compute. lia.
Defined.

Lemma length_emitted (c : Q) (dir : Direction) (side : Side)
      (e : Point * Point) :
  (length (emitted c dir side e) <= 2)%nat.
Proof.
  destruct e as [p q]. unfold emitted.
  destruct (isInside p c dir side), (isInside q c dir side); cbn; lia.
Qed.

Lemma length_flat_map_bound (A B : Type) (f : A -> list B) (k : nat)
      (l : list A) :
  (forall a, (length (f a) <= k)%nat) ->
  (length (flat_map f l) <= k * length l)%nat.
Proof.
  intros H. induction l as [|a l IH]; cbn [flat_map length]; [lia|].
  rewrite length_app. specialize (H a). lia.
Qed.

(** A fragment has at most twice as many vertices as the polygon. *)
Theorem clipPolygon_length
        (V : list Point) (c : Q) (dir : Direction) (side : Side) :
  (length (clipPolygon V c dir side) <= 2 * length V)%nat.
Proof.
  rewrite clipPolygon_flat.
  destruct (length V <? 3)%nat; [cbn [length]; lia|].
  replace (length V) with (length (cyclic_pairs V))
    by (unfold cyclic_pairs; rewrite length_map, length_seq; reflexivity).
  apply length_flat_map_bound. apply length_emitted.
Qed.

(** ** The bounding box of the plastic engine *)

Lemma encloses_step (seen : list Point) (acc : ext * ext * ext * ext)
      (v : Point) :
  boxOf seen acc -> encloses seen acc ->
  encloses (seen ++ [v]) (boundingStep acc v).
Proof.
  destruct acc as [[[yMin yMax] xMin] xMax].
  destruct yMin as [|yMin|], yMax as [|yMax|], xMin as [|xMin|],
           xMax as [|xMax|]; cbn [boxOf]; try tauto.
  - intros _ H. cbn [boundingStep ext_ltb].
    destruct (Qlt_bool (y v) yMin) eqn:E1, (Qlt_bool yMax (y v)) eqn:E2,
             (Qlt_bool (x v) xMin) eqn:E3, (Qlt_bool xMax (x v)) eqn:E4;
      try apply Qlt_bool_true in E1; try apply Qlt_bool_false in E1;
      try apply Qlt_bool_true in E2; try apply Qlt_bool_false in E2;
      try apply Qlt_bool_true in E3; try apply Qlt_bool_false in E3;
      try apply Qlt_bool_true in E4; try apply Qlt_bool_false in E4;
      cbn [encloses]; intros w Hw; apply in_app_or in Hw;
      (destruct Hw as [Hw|[<-|[]]];
       [specialize (H w Hw); cbn [encloses] in H; lra|lra]).
  - intros -> _. cbn [boundingStep ext_ltb encloses app].
    intros w [<-|[]]. lra.
Qed.

Lemma encloses_fold (l : list Point) :
  forall seen acc,
    boxOf seen acc -> encloses seen acc ->
    encloses (seen ++ l) (fold_left boundingStep l acc).
Proof.
  induction l as [|v l IH]; intros seen acc Hb He; cbn [fold_left].
  - rewrite app_nil_r. exact He.
  - change (v :: l) with ([v] ++ l). rewrite app_assoc.
    apply IH; [apply boxOf_step, Hb|apply encloses_step; assumption].
Qed.

(** The scan of the plastic engine finds the exact bounding box of a
    non-empty vertex list: four finite numbers, each the coordinate of a
    vertex, with every vertex between them. *)
Theorem boundingBox_exact (l : list Point) :
  l <> [] ->
  exists yMin yMax xMin xMax,
    boundingBox l = (Finite yMin, Finite yMax, Finite xMin, Finite xMax) /\
    (forall v, In v l -> yMin <= y v <= yMax /\ xMin <= x v <= xMax) /\
    (exists v, In v l /\ y v = yMin) /\
    (exists v, In v l /\ y v = yMax) /\
    (exists v, In v l /\ x v = xMin) /\
    (exists v, In v l /\ x v = xMax).
Proof.
  intros Hne.
  pose proof (boundingBox_boxOf l) as Hb.
  assert (He : encloses l (boundingBox l)).
  { unfold boundingBox.
    apply (encloses_fold l []
             (PlusInfinity, MinusInfinity, PlusInfinity, MinusInfinity));
      reflexivity. }
  destruct (boundingBox l) as [[[yMin yMax] xMin] xMax].
  destruct yMin as [|yMin|], yMax as [|yMax|], xMin as [|xMin|],
           xMax as [|xMax|]; cbn [boxOf] in Hb; try tauto.
  destruct Hb as (_ & _ & H1 & H2 & H3 & H4).
  exists yMin, yMax, xMin, xMax.
  split; [reflexivity|]. split; [exact He|]. tauto.
Qed.

Lemma boundingBox_exact_witness :
  exists yMin yMax xMin xMax,
    boundingBox [pt 0 0; pt 10 0; pt 10 8; pt 0 8]
    = (Finite yMin, Finite yMax, Finite xMin, Finite xMax) /\
    (forall v, In v [pt 0 0; pt 10 0; pt 10 8; pt 0 8] ->
               yMin <= y v <= yMax /\ xMin <= x v <= xMax) /\
    (exists v, In v [pt 0 0; pt 10 0; pt 10 8; pt 0 8] /\ y v = yMin) /\
    (exists v, In v [pt 0 0; pt 10 0; pt 10 8; pt 0 8] /\ y v = yMax) /\
    (exists v, In v [pt 0 0; pt 10 0; pt 10 8; pt 0 8] /\ x v = xMin) /\
    (exists v, In v [pt 0 0; pt 10 0; pt 10 8; pt 0 8] /\ x v = xMax).
Proof.
  apply (boundingBox_exact [pt 0 0; pt 10 0; pt 10 8; pt 0 8]).
  discriminate.
Defined.

(** ** The engines and the winding of the input *)







(** ** The area the engines work with *)



(** ** The loops of the polygon algebra as closed sums *)

Lemma Qlt_bool_comp (a a' b b' : Q) :
  a == a' -> b == b' -> Qlt_bool a b = Qlt_bool a' b'.
Proof.
  intros Ha Hb. destruct (Qlt_bool a' b') eqn:E.
  - apply Qlt_bool_true in E. apply Qlt_bool_intro. rewrite Ha, Hb. exact E.
  - apply Qlt_bool_false in E. apply Qlt_bool_elim_false.
    rewrite Ha, Hb. exact E.
Qed.

Lemma Qsum_map_plus (A : Type) (f g : A -> Q) (l : list A) :
  Qsum (map (fun e => f e + g e) l) == Qsum (map f l) + Qsum (map g l).
Proof.
  unfold Qsum. induction l as [|e l IH]; cbn [map fold_right]; [ring|].
  rewrite IH. ring.
Qed.

Lemma Qsum_map_scale (A : Type) (k : Q) (f : A -> Q) (l : list A) :
  Qsum (map (fun e => k * f e) l) == k * Qsum (map f l).
Proof.
  unfold Qsum. induction l as [|e l IH]; cbn [map fold_right]; [ring|].
  rewrite IH. ring.
Qed.

Lemma closedSum_plus (f g : Point -> Point -> Q) (V : list Point) :
  closedSum (fun a b => f a b + g a b) V == closedSum f V + closedSum g V.
Proof.
  unfold closedSum.
  apply (Qsum_map_plus _ (fun e => f (fst e) (snd e))
                         (fun e => g (fst e) (snd e))).
Qed.

Lemma closedSum_scale (k : Q) (f : Point -> Point -> Q) (V : list Point) :
  closedSum (fun a b => k * f a b) V == k * closedSum f V.
Proof.
  unfold closedSum. apply (Qsum_map_scale _ k (fun e => f (fst e) (snd e))).
Qed.

Lemma cyclic_pairs_map (f : Point -> Point) (V : list Point) :
  cyclic_pairs (map f V)
  = map (fun e => (f (fst e), f (snd e))) (cyclic_pairs V).
Proof.
  rewrite !cyclic_pairs_combine.
  assert (H : forall l m : list Point,
             combine (map f l) (map f m)
             = map (fun e => (f (fst e), f (snd e))) (combine l m)).
  { induction l as [|a l IH]; intros [|b m]; try reflexivity.
    cbn [map combine fst snd]. rewrite IH. reflexivity. }
  rewrite <- H. f_equal.
  destruct V as [|a l]; [reflexivity|].
  cbn [map tl firstn]. rewrite map_app. reflexivity.
Qed.

Lemma closedSum_map (g : Point -> Point -> Q) (f : Point -> Point)
      (V : list Point) :
  closedSum g (map f V) = closedSum (fun a b => g (f a) (f b)) V.
Proof.
  unfold closedSum. rewrite cyclic_pairs_map, map_map. reflexivity.
Qed.

Lemma fold_left_Qsum2 (A : Type) (step : Q * Q -> A -> Q * Q) (f g : A -> Q) :
  (forall a b e, fst (step (a, b) e) == a + f e /\
                 snd (step (a, b) e) == b + g e) ->
  forall l a b,
    fst (fold_left step l (a, b)) == a + Qsum (map f l) /\
    snd (fold_left step l (a, b)) == b + Qsum (map g l).
Proof.
  intros Hstep l. unfold Qsum.
  induction l as [|e l IH]; intros a b; cbn [fold_left map fold_right].
  - cbn [fst snd]. split; ring.
  - destruct (step (a, b) e) as [a' b'] eqn:E.
    destruct (IH a' b') as [H1 H2]. destruct (Hstep a b e) as [S1 S2].
    rewrite E in S1, S2. cbn [fst snd] in S1, S2.
    rewrite H1, H2, S1, S2. split; ring.
Qed.

Lemma ixTerm_antisymmetric : antisymmetric ixTerm.
Proof. intros a b. unfold ixTerm, cross. ring. Qed.

Lemma iyTerm_antisymmetric : antisymmetric iyTerm.
Proof. intros a b. unfold iyTerm, cross. ring. Qed.

Lemma ixyTerm_antisymmetric : antisymmetric ixyTerm.
Proof. intros a b. unfold ixyTerm, cross. ring. Qed.

Lemma centroidTermX_antisymmetric : antisymmetric centroidTermX.
Proof. intros a b. unfold centroidTermX, cross. ring. Qed.

Lemma centroidTermY_antisymmetric : antisymmetric centroidTermY.
Proof. intros a b. unfold centroidTermY, cross. ring. Qed.

Lemma polygonIxOrigin_closed (V : list Point) :
  polygonIxOrigin V == closedSum ixTerm V / 12.
Proof.
  unfold polygonIxOrigin.
  destruct (length V <? 3)%nat eqn:E.
  - apply Nat.ltb_lt in E.
    rewrite (closedSum_short ixTerm V ixTerm_antisymmetric E). reflexivity.
  - rewrite (fold_left_Qsum _ _ (fun e => ixTerm (fst e) (snd e))).
    + unfold closedSum. field.
    + intros acc [vi vj]. unfold ixTerm, cross. cbn [fst snd]. ring.
Qed.

Lemma polygonIyOrigin_closed (V : list Point) :
  polygonIyOrigin V == closedSum iyTerm V / 12.
Proof.
  unfold polygonIyOrigin.
  destruct (length V <? 3)%nat eqn:E.
  - apply Nat.ltb_lt in E.
    rewrite (closedSum_short iyTerm V iyTerm_antisymmetric E). reflexivity.
  - rewrite (fold_left_Qsum _ _ (fun e => iyTerm (fst e) (snd e))).
    + unfold closedSum. field.
    + intros acc [vi vj]. unfold iyTerm, cross. cbn [fst snd]. ring.
Qed.

Lemma polygonIxyOrigin_closed (V : list Point) :
  polygonIxyOrigin V == closedSum ixyTerm V / 24.
Proof.
  unfold polygonIxyOrigin.
  destruct (length V <? 3)%nat eqn:E.
  - apply Nat.ltb_lt in E.
    rewrite (closedSum_short ixyTerm V ixyTerm_antisymmetric E). reflexivity.
  - rewrite (fold_left_Qsum _ _ (fun e => ixyTerm (fst e) (snd e))).
    + unfold closedSum. field.
    + intros acc [vi vj]. unfold ixyTerm, cross. cbn [fst snd]. ring.
Qed.

(** Where the area guard lets the centroid loop run, the centroid is the
    quotient of its two closed sums by six times the signed area. *)
Lemma polygonCentroid_closed (V : list Point) :
  eps12 <= polygonArea V ->
  x (polygonCentroid V) == closedSum centroidTermX V / (6 * signedPolygonArea V)
  /\
  y (polygonCentroid V) == closedSum centroidTermY V / (6 * signedPolygonArea V).
Proof.
  intros Hge. unfold polygonCentroid.
  destruct (length V <? 3)%nat eqn:E.
  - exfalso. unfold polygonArea, signedPolygonArea in Hge.
    rewrite E in Hge. cbn in Hge. lra.
  - rewrite Qlt_bool_elim_false by exact Hge.
    pose proof (fold_left_Qsum2 _
      (fun '(cx, cy) '(vi, vj) =>
         let cross := x vi * y vj - x vj * y vi in
         (cx + (x vi + x vj) * cross, cy + (y vi + y vj) * cross))
      (fun e => centroidTermX (fst e) (snd e))
      (fun e => centroidTermY (fst e) (snd e))) as Hfold.
    specialize (Hfold ltac:(intros a b [vi vj]; cbn [fst snd];
                           unfold centroidTermX, centroidTermY, cross;
                           split; ring)
                      (cyclic_pairs V) 0 0).
    destruct (fold_left _ (cyclic_pairs V) (0, 0)) as [cx cy].
    cbn [fst snd] in Hfold. destruct Hfold as [Hx Hy].
    cbn [x y]. unfold closedSum. rewrite Hx, Hy.
    split; apply Qdiv_comp; try reflexivity; ring.
Qed.

Lemma area_nonzero (V : list Point) :
  eps12 <= polygonArea V -> ~ signedPolygonArea V == 0.
Proof.
  unfold polygonArea. intros H E. rewrite E in H. cbn in H. lra.
Qed.

(** ** Reversing the vertex order *)

Lemma polygonCentroid_rev (V : list Point) :
  x (polygonCentroid (rev V)) == x (polygonCentroid V) /\
  y (polygonCentroid (rev V)) == y (polygonCentroid V).
Proof.
  destruct (Qlt_le_dec (polygonArea V) eps12) as [Hlt|Hge].
  - assert (Hlt' : polygonArea (rev V) < eps12)
      by (rewrite polygonArea_rev; exact Hlt).
    unfold polygonCentroid. rewrite length_rev.
    destruct (length V <? 3)%nat; [split; reflexivity|].
    rewrite !Qlt_bool_intro by assumption. split; reflexivity.
  - assert (Hge' : eps12 <= polygonArea (rev V))
      by (rewrite polygonArea_rev; exact Hge).
    destruct (polygonCentroid_closed V Hge) as [Hx Hy].
    destruct (polygonCentroid_closed (rev V) Hge') as [Hx' Hy'].
    pose proof (area_nonzero V Hge) as Hnz.
    rewrite Hx, Hy, Hx', Hy'.
    rewrite (closedSum_rev _ V centroidTermX_antisymmetric).
    rewrite (closedSum_rev _ V centroidTermY_antisymmetric).
    rewrite signedPolygonArea_rev.
    split; field; exact Hnz.
Qed.

Lemma polygonMoments_rev (V : list Point) :
  polygonIxOrigin (rev V) == - polygonIxOrigin V /\
  polygonIyOrigin (rev V) == - polygonIyOrigin V /\
  polygonIxyOrigin (rev V) == - polygonIxyOrigin V.
Proof.
  rewrite !polygonIxOrigin_closed, !polygonIyOrigin_closed,
    !polygonIxyOrigin_closed.
  rewrite (closedSum_rev _ V ixTerm_antisymmetric).
  rewrite (closedSum_rev _ V iyTerm_antisymmetric).
  rewrite (closedSum_rev _ V ixyTerm_antisymmetric).
  split; [|split]; field.
Qed.


(** ** The DXF importer *)

Lemma computeSignedArea_closed (V : list Point) :
  DxfImport.computeSignedArea V == signedPolygonArea V.
Proof.
  rewrite signedPolygonArea_closed. unfold DxfImport.computeSignedArea.
  rewrite (fold_left_Qsum _ _ (fun e => cross (fst e) (snd e))).
  - unfold closedSum. field.
  - intros acc [vi vj]. unfold cross. cbn [fst snd]. ring.
Qed.


Lemma insertSorted_perm (A : Type) (compareFn : A -> A -> Q) (a : A)
      (l : list A) :
  Permutation (DxfImport.insertSorted compareFn a l) (a :: l).
Proof.
  induction l as [|b l IH]; cbn [DxfImport.insertSorted].
  - apply Permutation_refl.
  - destruct (Qlt_bool 0 (compareFn a b)).
    + apply perm_trans with (b :: a :: l);
        [apply perm_skip; exact IH|apply perm_swap].
    + apply Permutation_refl.
Qed.

Lemma sort_perm (A : Type) (compareFn : A -> A -> Q) (l : list A) :
  Permutation (DxfImport.sort compareFn l) l.
Proof.
  unfold DxfImport.sort. induction l as [|a l IH]; cbn [fold_right].
  - apply perm_nil.
  - apply perm_trans
      with (a :: fold_right (DxfImport.insertSorted compareFn) [] l);
      [apply insertSorted_perm|apply perm_skip; exact IH].
Qed.

Lemma insertSorted_falling (a : DxfImport.PolylineArea)
      (l : list DxfImport.PolylineArea) :
  StronglySorted (fun p q => DxfImport.area q <= DxfImport.area p) l ->
  StronglySorted (fun p q => DxfImport.area q <= DxfImport.area p)
    (DxfImport.insertSorted
       (fun a b => DxfImport.area b - DxfImport.area a) a l).
Proof.
  intros Hs. induction Hs as [|b l Hs IH Hb]; cbn [DxfImport.insertSorted].
  - constructor; constructor.
  - destruct (Qlt_bool 0 (DxfImport.area b - DxfImport.area a)) eqn:E.
    + apply Qlt_bool_true in E. constructor; [exact IH|].
      apply (Permutation_Forall
               (Permutation_sym (insertSorted_perm _ _ a l))).
      constructor; [lra|exact Hb].
    + apply Qlt_bool_false in E. constructor.
      * constructor; assumption.
      * constructor; [lra|].
        apply (Forall_impl _ (P := fun q => DxfImport.area q
                                            <= DxfImport.area b));
          [intros q Hq; lra|exact Hb].
Qed.

Lemma sort_falling (l : list DxfImport.PolylineArea) :
  StronglySorted (fun p q => DxfImport.area q <= DxfImport.area p)
    (DxfImport.sort (fun a b => DxfImport.area b - DxfImport.area a) l).
Proof.
  unfold DxfImport.sort. induction l as [|a l IH]; cbn [fold_right].
  - constructor.
  - apply insertSorted_falling. exact IH.
Qed.

Lemma In_combine_seq (A : Type) (d : A) (l : list A) :
  forall s i p,
    In (i, p) (combine (seq s (length l)) l) ->
    (s <= i)%nat /\ nth (i - s) l d = p.
Proof.
  induction l as [|a l IH]; intros s i p H; [destruct H|].
  cbn [length seq combine] in H. destruct H as [H|H].
  - inversion H; subst. rewrite Nat.sub_diag. split; [lia|reflexivity].
  - destruct (IH (S s) i p H) as [Hle Hn]. split; [lia|].
    replace (i - s)%nat with (S (i - S s)) by lia. exact Hn.
Qed.

Lemma map_snd_combine_seq (A : Type) (l : list A) :
  forall s, map snd (combine (seq s (length l)) l) = l.
Proof.
  induction l as [|a l IH]; intros s; [reflexivity|].
  cbn [length seq combine map snd]. rewrite IH. reflexivity.
Qed.

Lemma falling_polygons (f : DxfImport.PolylineArea -> list Point)
      (l : list DxfImport.PolylineArea) :
  (forall e, In e l -> DxfImport.area e == polygonArea (f e)) ->
  StronglySorted (fun p q => DxfImport.area q <= DxfImport.area p) l ->
  StronglySorted notSmaller (map f l).
Proof.
  intros Hareas Hs. induction Hs as [|a l Hs IH Ha]; cbn [map].
  - constructor.
  - constructor.
    + apply IH. intros e He. apply Hareas. right. exact He.
    + apply Forall_forall. intros q Hq. apply in_map_iff in Hq.
      destruct Hq as [e [<- He]].
      pose proof (proj1 (Forall_forall _ _) Ha e He) as Hle.
      cbn beta in Hle. unfold notSmaller.
      rewrite <- (Hareas e) by (right; exact He).
      rewrite <- (Hareas a) by (left; reflexivity).
      exact Hle.
Qed.

Section ImporterFacts.
Variable Math_sqrt : Q -> Q.
Variable Math_atan2 : Q -> Q -> Q.
Variables Math_cos Math_sin : Q -> Q.
Variable Math_PI : Q.
Variable parseSync : String.string -> DxfImport.ParseOutcome.

Let collect := DxfImport.collect Math_sqrt Math_atan2 Math_cos Math_sin Math_PI.
Let parseDxfFile :=
  DxfImport.parseDxfFile Math_sqrt Math_atan2 Math_cos Math_sin Math_PI
                         parseSync.

Lemma entityStep_long (acc : list (list Point) * list DxfImport.Warning)
      (entity : DxfImport.DxfEntity) :
  Forall (fun p => (3 <= length p)%nat) (fst acc) ->
  Forall (fun p => (3 <= length p)%nat)
    (fst (DxfImport.entityStep Math_sqrt Math_atan2 Math_cos Math_sin
                               Math_PI acc entity)).
Proof.
  destruct acc as [polylines warnings]. cbn [fst]. intros H.
  unfold DxfImport.entityStep.
  destruct (DxfImport.type entity); cbn [fst]; try exact H.
  - destruct (DxfImport.extractPolylineVertices _ _ _ _ _ _ _)
      as [vertices warnings'].
    destruct (3 <=? length vertices)%nat eqn:E; cbn [fst]; [|exact H].
    apply Forall_app. split; [exact H|].
    constructor; [apply Nat.leb_le; exact E|constructor].
  - destruct (DxfImport.extractPolylineVertices _ _ _ _ _ _ _)
      as [vertices warnings'].
    destruct (3 <=? length vertices)%nat eqn:E; cbn [fst]; [|exact H].
    apply Forall_app. split; [exact H|].
    constructor; [apply Nat.leb_le; exact E|constructor].
  - destruct (DxfImport.center entity) as [c|]; [|exact H].
    destruct (DxfImport.radius entity) as [r|]; [|exact H].
    destruct (negb (Qeq_bool r 0)); cbn [fst]; [|exact H].
    apply Forall_app. split; [exact H|].
    constructor; [|constructor].
    unfold DxfImport.generateCircleVertices.
    rewrite length_map, length_seq. lia.
Qed.

Lemma collect_long (ents : list DxfImport.DxfEntity) :
  Forall (fun p => (3 <= length p)%nat) (fst (collect ents)).
Proof.
  unfold collect, DxfImport.collect.
  assert (H : forall acc,
             Forall (fun p => (3 <= length p)%nat) (fst acc) ->
             Forall (fun p => (3 <= length p)%nat)
               (fst (fold_left
                       (DxfImport.entityStep Math_sqrt Math_atan2 Math_cos
                                             Math_sin Math_PI) ents acc))).
  { induction ents as [|e ents IH]; intros acc Hacc; cbn [fold_left];
      [exact Hacc|].
    apply IH. apply entityStep_long. exact Hacc. }
  apply H. constructor.
Qed.

(** Of the closed regions found in a drawing the importer makes one
    cross-section: the region of largest area is the outer boundary and
    the others are the holes, in the order of falling area; every region
    found is used once, and each has at least three vertices.  A drawing
    without a closed region is refused. *)
Theorem parseDxfFile_section
        (content : String.string) (ents : list DxfImport.DxfEntity) :
  parseSync content
  = DxfImport.Returns (Some {| DxfImport.entities := Some ents |}) ->
  let polylines := fst (collect ents) in
  let r := parseDxfFile content in
  (polylines = [] ->
   DxfImport.success r = false /\
   DxfImport.sections r = [] /\
   DxfImport.error r = Some DxfImport.NoClosedPolylines) /\
  (polylines <> [] ->
   exists outer holes,
     DxfImport.success r = true /\
     DxfImport.error r = None /\
     DxfImport.sections r = [{| outerBoundary := outer; holes := holes |}] /\
     Permutation (outer :: holes) polylines /\
     StronglySorted notSmaller (outer :: holes) /\
     Forall (fun p => (3 <= length p)%nat) (outer :: holes)).
Proof.
  intros Hparse polylines r.
  pose proof (collect_long ents) as Hlong. fold polylines in Hlong.
  subst r. unfold parseDxfFile, DxfImport.parseDxfFile. rewrite Hparse.
  fold collect. subst polylines.
  destruct (collect ents) as [polylines warnings]. cbn [fst] in *.
  split.
  - intros ->. cbn. repeat split.
  - intros Hne.
    replace (length polylines =? 0)%nat with false
      by (destruct polylines; [congruence|reflexivity]).
    set (entries :=
           map (fun '(i, p) =>
                  {| DxfImport.index := i;
                     DxfImport.area := Qabs (DxfImport.computeSignedArea p) |})
               (combine (seq 0 (length polylines)) polylines)).
    set (sorted := DxfImport.sort _ entries).
    set (f := fun e => nth (DxfImport.index e) polylines []).
    assert (Hentries : forall e, In e entries ->
                                 DxfImport.area e == polygonArea (f e)).
    { intros e He. subst entries. apply in_map_iff in He.
      destruct He as [[i p] [<- Hip]].
      destruct (In_combine_seq _ [] polylines 0 i p Hip) as [_ Hn].
      rewrite Nat.sub_0_r in Hn.
      subst f. cbn [DxfImport.index DxfImport.area]. rewrite Hn.
      unfold polygonArea. rewrite computeSignedArea_closed. reflexivity. }
    assert (Hmap : map f entries = polylines).
    { subst entries f. rewrite map_map.
      rewrite <- (map_snd_combine_seq _ polylines 0) at 3.
      apply map_ext_in. intros [i p] Hip.
      destruct (In_combine_seq _ [] polylines 0 i p Hip) as [_ Hn].
      rewrite Nat.sub_0_r in Hn. cbn [DxfImport.index snd]. exact Hn. }
    pose proof (sort_perm _ (fun a b => DxfImport.area b - DxfImport.area a)
                          entries) as Hperm.
    fold sorted in Hperm.
    pose proof (sort_falling entries) as Hfall. fold sorted in Hfall.
    assert (Hsorted : forall e, In e sorted ->
                                DxfImport.area e == polygonArea (f e)).
    { intros e He. apply Hentries.
      apply (Permutation_in _ Hperm). exact He. }
    pose proof (falling_polygons f sorted Hsorted Hfall) as Hpoly.
    pose proof (Permutation_map f Hperm) as Hpm. rewrite Hmap in Hpm.
    destruct sorted as [|e0 rest] eqn:Es.
    { exfalso. apply Permutation_nil in Hpm. congruence. }
    exists (f e0), (map f rest).
    cbn [DxfImport.success DxfImport.error DxfImport.sections nth skipn].
    split; [reflexivity|]. split; [reflexivity|].
    split; [subst f; rewrite map_map; reflexivity|].
    split; [exact Hpm|]. split; [exact Hpoly|].
    apply (Permutation_Forall (Permutation_sym Hpm)). exact Hlong.
Qed.

End ImporterFacts.

Lemma parseDxfFile_section_witness :
  exists outer holes,
    DxfImport.success
      (DxfImport.parseDxfFile floor_sqrt no_atan2 no_trig no_trig 3
                              two_rectangles String.EmptyString) = true /\
    DxfImport.error
      (DxfImport.parseDxfFile floor_sqrt no_atan2 no_trig no_trig 3
                              two_rectangles String.EmptyString) = None /\
    DxfImport.sections
      (DxfImport.parseDxfFile floor_sqrt no_atan2 no_trig no_trig 3
                              two_rectangles String.EmptyString)
    = [{| outerBoundary := outer; holes := holes |}] /\
    Permutation (outer :: holes)
      (fst (DxfImport.collect floor_sqrt no_atan2 no_trig no_trig 3
                              two_rectangles_entities)) /\
    StronglySorted notSmaller (outer :: holes) /\
    Forall (fun p => (3 <= length p)%nat) (outer :: holes).
Proof.
  apply (proj2 (parseDxfFile_section floor_sqrt no_atan2 no_trig no_trig 3
                  two_rectangles String.EmptyString two_rectangles_entities
                  eq_refl)).
  vm_compute. discriminate.
Defined.

(** Whatever the parser does, an import either succeeds with exactly one
    cross-section and no error, or fails with an error and without a
    cross-section; when the parser throws or returns nothing, no warning
    is reported. *)
Theorem parseDxfFile_contract
        (Math_sqrt : Q -> Q) (Math_atan2 : Q -> Q -> Q)
        (Math_cos Math_sin : Q -> Q) (Math_PI : Q)
        (parseSync : String.string -> DxfImport.ParseOutcome)
        (content : String.string) :
  let r := DxfImport.parseDxfFile Math_sqrt Math_atan2 Math_cos Math_sin
                                  Math_PI parseSync content in
  (DxfImport.success r = true /\
   DxfImport.error r = None /\
   length (DxfImport.sections r) = 1%nat /\
   exists ents,
     parseSync content
     = DxfImport.Returns (Some {| DxfImport.entities := Some ents |}))
  \/
  (DxfImport.success r = false /\
   DxfImport.error r <> None /\
   DxfImport.sections r = [] /\
   ((forall ents,
        parseSync content
        <> DxfImport.Returns (Some {| DxfImport.entities := Some ents |})) ->
    DxfImport.warnings r = [])).
Proof.
  cbv zeta. unfold DxfImport.parseDxfFile.
  destruct (parseSync content) as [message|[[[ents|]]|]].
  - right. cbn. repeat split; discriminate.
  - destruct (DxfImport.collect _ _ _ _ _ ents) as [polylines warnings].
    destruct (length polylines =? 0)%nat.
    + right. cbn. split; [reflexivity|]. split; [discriminate|].
      split; [reflexivity|]. intros H. exfalso. apply (H ents). reflexivity.
    + left. cbn. repeat split. exists ents. reflexivity.
  - right. cbn. repeat split; discriminate.
  - right. cbn. repeat split; discriminate.
Qed.

Lemma firstn_succ_nth (A : Type) (d : A) (l : list A) :
  forall k, (k < length l)%nat -> firstn (S k) l = firstn k l ++ [nth k l d].
Proof.
  induction l as [|a l IH]; intros k Hk; [cbn in Hk; lia|].
  destruct k as [|k]; [reflexivity|].
  cbn [length] in Hk. cbn [firstn nth app].
  rewrite <- IH by lia. reflexivity.
Qed.

Section ExtractFacts.
Variable Math_sqrt : Q -> Q.
Variable Math_atan2 : Q -> Q -> Q.
Variables Math_cos Math_sin : Q -> Q.
Variable Math_PI : Q.

Lemma extractStep_plain (raw : list DxfImport.RawVertex)
      (vertices : list Point) (i : nat) :
  hasBulge (nth i raw DxfImport.noVertex) = false ->
  DxfImport.extractStep Math_sqrt Math_atan2 Math_cos Math_sin Math_PI
                        raw vertices i
  = vertices ++ [DxfImport.position (nth i raw DxfImport.noVertex)].
Proof.
  unfold hasBulge, DxfImport.extractStep. intros H.
  destruct (nth i raw DxfImport.noVertex) as [[px py] [b|]];
    cbn [DxfImport.position DxfImport.bulge x y] in *;
    [rewrite H|]; reflexivity.
Qed.

Lemma extract_loop_plain (raw : list DxfImport.RawVertex) :
  (forall v, In v raw -> hasBulge v = false) ->
  forall k,
    (k <= length raw)%nat ->
    fold_left (DxfImport.extractStep Math_sqrt Math_atan2 Math_cos Math_sin
                                     Math_PI raw) (seq 0 k) []
    = map DxfImport.position (firstn k raw).
Proof.
  intros Hplain. induction k as [|k IH]; intros Hk; [reflexivity|].
  rewrite seq_S, fold_left_app, IH by lia. cbn [fold_left Nat.add].
  rewrite extractStep_plain by (apply Hplain, nth_In; lia).
  rewrite (firstn_succ_nth _ DxfImport.noVertex) by lia.
  rewrite map_app. reflexivity.
Qed.

(** A polyline none of whose vertices carries a bulge is imported vertex
    for vertex, in order; the warnings given so far are kept, and the
    only one that may be added is the one for an open polyline. *)
Theorem extractPolylineVertices_plain
        (entity : DxfImport.DxfEntity) (warnings : list DxfImport.Warning)
        (raw : list DxfImport.RawVertex) :
  DxfImport.vertices entity = Some raw ->
  (forall v, In v raw -> hasBulge v = false) ->
  let r := DxfImport.extractPolylineVertices
             Math_sqrt Math_atan2 Math_cos Math_sin Math_PI entity warnings in
  fst r = map DxfImport.position raw /\
  (snd r = warnings \/ snd r = warnings ++ [DxfImport.OpenPolylineDetected]).
Proof.
  intros Hraw Hplain. cbv zeta.
  unfold DxfImport.extractPolylineVertices. rewrite Hraw.
  rewrite (extract_loop_plain raw Hplain (length raw)) by lia.
  rewrite firstn_all.
  destruct (negb _ && _); [destruct (Qlt_bool _ _)|]; cbn [fst snd];
    (split; [reflexivity|]); auto.
Qed.

End ExtractFacts.

Lemma extractPolylineVertices_plain_witness :
  fst (DxfImport.extractPolylineVertices floor_sqrt no_atan2 no_trig no_trig 3
         (closedPolyline [pt 3 3; pt 7 3; pt 7 5; pt 3 5]) [])
  = [pt 3 3; pt 7 3; pt 7 5; pt 3 5] /\
  (snd (DxfImport.extractPolylineVertices floor_sqrt no_atan2 no_trig no_trig 3
          (closedPolyline [pt 3 3; pt 7 3; pt 7 5; pt 3 5]) []) = [] \/
   snd (DxfImport.extractPolylineVertices floor_sqrt no_atan2 no_trig no_trig 3
          (closedPolyline [pt 3 3; pt 7 3; pt 7 5; pt 3 5]) [])
   = [] ++ [DxfImport.OpenPolylineDetected]).
Proof.
  apply (extractPolylineVertices_plain floor_sqrt no_atan2 no_trig no_trig 3
           (closedPolyline [pt 3 3; pt 7 3; pt 7 5; pt 3 5]) []
           (map (fun p => {| DxfImport.position := p;
                             DxfImport.bulge := None |})
                [pt 3 3; pt 7 3; pt 7 5; pt 3 5])).
  - reflexivity.
  - intros v Hv. simpl in Hv.
    repeat (destruct Hv as [<-|Hv]; [reflexivity|]). destruct Hv.
Defined.

Section ArcFacts.
Variable Math_sqrt : Q -> Q.
Variable Math_atan2 : Q -> Q -> Q.
Variables Math_cos Math_sin : Q -> Q.
Variable Math_PI : Q.

Lemma length_bulgeToArcPoints (x1 y1 x2 y2 b : Q) (numSegments : nat) :
  length (DxfImport.bulgeToArcPoints Math_sqrt Math_atan2 Math_cos Math_sin
                                     Math_PI x1 y1 x2 y2 b numSegments)
  = 2%nat \/
  length (DxfImport.bulgeToArcPoints Math_sqrt Math_atan2 Math_cos Math_sin
                                     Math_PI x1 y1 x2 y2 b numSegments)
  = (numSegments + 1)%nat.
Proof.
  unfold DxfImport.bulgeToArcPoints.
  destruct (Qlt_bool _ eps10); [left; reflexivity|right].
  rewrite length_map, length_seq. reflexivity.
Qed.

Lemma extractStep_shape (raw : list DxfImport.RawVertex)
      (vertices : list Point) (i : nat) :
  exists extra,
    DxfImport.extractStep Math_sqrt Math_atan2 Math_cos Math_sin Math_PI
                          raw vertices i
    = vertices ++ DxfImport.position (nth i raw DxfImport.noVertex) :: extra
    /\ (length extra <= 15)%nat.
Proof.
  unfold DxfImport.extractStep.
  destruct (nth i raw DxfImport.noVertex) as [[px py] [b|]];
    cbn [DxfImport.position DxfImport.bulge x y].
  - destruct (negb (Qeq_bool b 0) && Qlt_bool (1 # 1000) (Qabs b)).
    + eexists. rewrite <- app_assoc. cbn [app]. split; [reflexivity|].
      rewrite length_map, length_seq.
      match goal with
      | |- (length (DxfImport.bulgeToArcPoints _ _ _ _ _ ?a ?b ?c ?d ?e ?n) - 2
            <= _)%nat =>
          destruct (length_bulgeToArcPoints a b c d e n) as [-> | ->]
      end; cbn; lia.
    + exists []. split; [reflexivity|cbn; lia].
  - exists []. split; [reflexivity|cbn; lia].
Qed.

Lemma extract_loop_bounds (raw : list DxfImport.RawVertex) :
  forall k,
    (k <= length raw)%nat ->
    let vs := fold_left (DxfImport.extractStep Math_sqrt Math_atan2 Math_cos
                                               Math_sin Math_PI raw)
                        (seq 0 k) [] in
    (k <= length vs <= 16 * k)%nat /\
    forall i, (i < k)%nat ->
              In (DxfImport.position (nth i raw DxfImport.noVertex)) vs.
Proof.
  induction k as [|k IH]; intros Hk; cbv zeta.
  - cbn. split; [lia|]. intros i Hi. lia.
  - rewrite seq_S, fold_left_app. cbn [fold_left Nat.add].
    destruct (IH ltac:(lia)) as [Hlen Hin]. cbv zeta in Hlen, Hin.
    destruct (extractStep_shape raw
                (fold_left (DxfImport.extractStep Math_sqrt Math_atan2
                              Math_cos Math_sin Math_PI raw) (seq 0 k) []) k)
      as [extra [-> Hextra]].
    split.
    + rewrite length_app. cbn [length]. lia.
    + intros i Hi. apply in_or_app.
      destruct (Nat.eq_dec i k) as [->|Hne].
      * right. left. reflexivity.
      * left. apply Hin. lia.
Qed.

(** Every vertex of a polyline entity is imported, and a bulge adds at
    most 15 points behind its vertex: a polyline of [n] vertices yields
    between [n] and [16 n] points, so that a polyline of at least three
    vertices always becomes a region of the drawing. *)
Theorem extractPolylineVertices_bounds
        (entity : DxfImport.DxfEntity) (warnings : list DxfImport.Warning)
        (raw : list DxfImport.RawVertex) :
  DxfImport.vertices entity = Some raw ->
  let vs := fst (DxfImport.extractPolylineVertices
                   Math_sqrt Math_atan2 Math_cos Math_sin Math_PI
                   entity warnings) in
  (length raw <= length vs <= 16 * length raw)%nat /\
  (forall v, In v raw -> In (DxfImport.position v) vs) /\
  ((3 <= length raw)%nat ->
   DxfImport.type entity = DxfImport.LWPOLYLINE \/
   DxfImport.type entity = DxfImport.POLYLINE ->
   forall polylines,
     fst (DxfImport.entityStep Math_sqrt Math_atan2 Math_cos Math_sin Math_PI
                               (polylines, warnings) entity)
     = polylines ++ [vs]).
Proof.
  intros Hraw. cbv zeta.
  assert (Hfst : fst (DxfImport.extractPolylineVertices
                        Math_sqrt Math_atan2 Math_cos Math_sin Math_PI
                        entity warnings)
                 = fold_left (DxfImport.extractStep Math_sqrt Math_atan2
                                Math_cos Math_sin Math_PI raw)
                             (seq 0 (length raw)) []).
  { unfold DxfImport.extractPolylineVertices. rewrite Hraw.
    destruct (negb _ && _); [destruct (Qlt_bool _ _)|]; reflexivity. }
  destruct (extract_loop_bounds raw (length raw) (le_n _)) as [Hlen Hin].
  cbv zeta in Hlen, Hin. rewrite <- Hfst in Hlen, Hin.
  split; [exact Hlen|]. split.
  - intros v Hv. destruct (In_nth raw v DxfImport.noVertex Hv) as [i [Hi <-]].
    apply Hin. exact Hi.
  - intros H3 Htype polylines. unfold DxfImport.entityStep.
    destruct (DxfImport.extractPolylineVertices _ _ _ _ _ entity warnings)
      as [vs ws] eqn:E.
    cbn [fst] in *.
    replace (3 <=? length vs)%nat with true
      by (symmetry; apply Nat.leb_le; lia).
    destruct Htype as [-> | ->]; reflexivity.
Qed.

End ArcFacts.

Lemma extractPolylineVertices_bounds_witness :
  (length bulgedTriangle_vertices
   <= length (fst (DxfImport.extractPolylineVertices
                     floor_sqrt no_atan2 no_trig no_trig 3 bulgedTriangle []))
   <= 16 * length bulgedTriangle_vertices)%nat.
Proof.
  apply (extractPolylineVertices_bounds floor_sqrt no_atan2 no_trig no_trig 3
           bulgedTriangle [] bulgedTriangle_vertices).
  reflexivity.
Defined.

(** ** Rectangles *)

(** The closed sums of an explicit vertex list, written out. *)
Ltac explicit_sums :=
  rewrite ?signedPolygonArea_closed, ?polygonIxOrigin_closed,
    ?polygonIyOrigin_closed, ?polygonIxyOrigin_closed;
  unfold closedSum; rewrite ?cyclic_pairs_edgesOf;
  cbn [edgesOf app map fst snd Qsum fold_right];
  unfold cross, ixTerm, iyTerm, ixyTerm, centroidTermX, centroidTermY, cross;
  cbn [x y].

Lemma makeRect_signedArea (x0 y0 x1 y1 : Q) :
  signedPolygonArea (makeRect x0 y0 x1 y1) == (x1 - x0) * (y1 - y0).
Proof. unfold makeRect. explicit_sums. field. Qed.

Lemma makeRect_area (x0 y0 x1 y1 : Q) :
  0 <= (x1 - x0) * (y1 - y0) ->
  polygonArea (makeRect x0 y0 x1 y1) == (x1 - x0) * (y1 - y0).
Proof.
  intros H. unfold polygonArea. rewrite makeRect_signedArea.
  apply Qabs_pos. exact H.
Qed.

Lemma makeRect_centroid (x0 y0 x1 y1 : Q) :
  eps12 <= (x1 - x0) * (y1 - y0) ->
  x (polygonCentroid (makeRect x0 y0 x1 y1)) == (x0 + x1) / 2 /\
  y (polygonCentroid (makeRect x0 y0 x1 y1)) == (y0 + y1) / 2.
Proof.
  intros H.
  assert (Ha : eps12 <= polygonArea (makeRect x0 y0 x1 y1))
    by (rewrite makeRect_area; lra).
  destruct (polygonCentroid_closed _ Ha) as [Hx Hy].
  rewrite Hx, Hy, makeRect_signedArea.
  unfold makeRect. explicit_sums.
  split; field; repeat split; intros E; rewrite E in H; lra.
Qed.

Lemma makeRect_moments (x0 y0 x1 y1 : Q) :
  polygonIxOrigin (makeRect x0 y0 x1 y1)
  == (x1 - x0) * (y1 ^ 3 - y0 ^ 3) / 3 /\
  polygonIyOrigin (makeRect x0 y0 x1 y1)
  == (y1 - y0) * (x1 ^ 3 - x0 ^ 3) / 3 /\
  polygonIxyOrigin (makeRect x0 y0 x1 y1)
  == (x1 ^ 2 - x0 ^ 2) * (y1 ^ 2 - y0 ^ 2) / 4.
Proof.
  unfold makeRect. split; [|split]; explicit_sums; field.
Qed.

Lemma Qabs_above (e d : Q) : e < d \/ d < - e -> e < Qabs d.
Proof.
  intros H. apply Qabs_case; intros Hd; lra.
Qed.

(** Decide the comparisons of a scan whose outcome linear arithmetic
    settles. *)
Ltac decide_lt :=
  repeat (match goal with
          | |- context [Qlt_bool ?a ?b] =>
              first [rewrite (Qlt_bool_intro a b) by lra
                    |rewrite (Qlt_bool_elim_false a b) by lra]
          end; cbn [ext_ltb]).

Lemma extremeFibers_makeRect (cX cY x0 y0 x1 y1 : Q) :
  x0 < x1 -> y0 < y1 ->
  extremeFibers cX cY (makeRect x0 y0 x1 y1)
  = (Finite (y1 - cY), Finite (y0 - cY), Finite (x1 - cX), Finite (x0 - cX)).
Proof.
  intros Hx Hy. unfold extremeFibers, makeRect.
  cbn [fold_left ext_ltb x y]. decide_lt. reflexivity.
Qed.

Lemma boundingBox_makeRect (x0 y0 x1 y1 : Q) :
  x0 < x1 -> y0 < y1 ->
  boundingBox (makeRect x0 y0 x1 y1)
  = (Finite y0, Finite y1, Finite x0, Finite x1).
Proof.
  intros Hx Hy. unfold boundingBox, makeRect.
  cbn [fold_left boundingStep ext_ltb x y]. decide_lt. reflexivity.
Qed.

Lemma ensureCCW_makeRect (x0 y0 x1 y1 : Q) :
  x0 <= x1 -> y0 <= y1 ->
  ensureCCW (makeRect x0 y0 x1 y1) = makeRect x0 y0 x1 y1.
Proof.
  intros Hx Hy. unfold ensureCCW.
  rewrite Qlt_bool_elim_false; [reflexivity|].
  rewrite makeRect_signedArea. nra.
Qed.

Lemma composite_makeRect (x0 y0 x1 y1 : Q) :
  x0 <= x1 -> y0 <= y1 ->
  eps12 <= (x1 - x0) * (y1 - y0) ->
  let cmp := composite (makeRect x0 y0 x1 y1) [] in
  c_area cmp == (x1 - x0) * (y1 - y0) /\
  c_centroidX cmp == (x0 + x1) / 2 /\
  c_centroidY cmp == (y0 + y1) / 2 /\
  c_Ix cmp == (x1 - x0) * (y1 - y0) ^ 3 / 12 /\
  c_Iy cmp == (y1 - y0) * (x1 - x0) ^ 3 / 12 /\
  c_Ixy cmp == 0.
Proof.
  intros Hx Hy HA. cbv zeta. unfold composite.
  cbn [map combine fold_left c_area c_centroidX c_centroidY c_Ix c_Iy c_Ixy].
  pose proof (makeRect_area x0 y0 x1 y1 ltac:(lra)) as Ha.
  destruct (makeRect_centroid x0 y0 x1 y1 HA) as [Hcx Hcy].
  destruct (makeRect_moments x0 y0 x1 y1) as (Hix & Hiy & Hixy).
  assert (Hb : 0 < x1 - x0) by nra.
  assert (Hh : 0 < y1 - y0) by nra.
  assert (Hix0 : 0 <= (x1 - x0) * (y1 ^ 3 - y0 ^ 3) / 3).
  { setoid_replace ((x1 - x0) * (y1 ^ 3 - y0 ^ 3) / 3)
      with ((x1 - x0) * (y1 - y0)
            * ((y1 + y0 / 2) ^ 2 + 3 * (y0 / 2) ^ 2) / 3) by field.
    assert (0 <= (y1 + y0 / 2) ^ 2 + 3 * (y0 / 2) ^ 2) by nra.
    apply Qle_shift_div_l; [lra|]. nra. }
  assert (Hiy0 : 0 <= (y1 - y0) * (x1 ^ 3 - x0 ^ 3) / 3).
  { setoid_replace ((y1 - y0) * (x1 ^ 3 - x0 ^ 3) / 3)
      with ((y1 - y0) * (x1 - x0)
            * ((x1 + x0 / 2) ^ 2 + 3 * (x0 / 2) ^ 2) / 3) by field.
    assert (0 <= (x1 + x0 / 2) ^ 2 + 3 * (x0 / 2) ^ 2) by nra.
    apply Qle_shift_div_l; [lra|]. nra. }
  rewrite Hix, Hiy, Hixy, Ha, Hcx, Hcy.
  rewrite (Qabs_pos _ Hix0), (Qabs_pos _ Hiy0).
  split; [ring|].
  repeat split; field; split; lra.
Qed.

Lemma sectionModulus_finite (I d : Q) :
  eps12 < d \/ d < - eps12 ->
  sectionModulus I (Finite d) = I / Qabs d.
Proof.
  intros H. unfold sectionModulus. cbn [ext_abs ext_ltb].
  rewrite Qlt_bool_intro by (apply Qabs_above; exact H). reflexivity.
Qed.

Lemma rectangle_elastic
        (Math_sqrt : Q -> Q) (Math_atan2 : Q -> Q -> Q) (x0 y0 x1 y1 : Q) :
  2 * eps12 < x1 - x0 ->
  2 * eps12 < y1 - y0 ->
  eps12 <= (x1 - x0) * (y1 - y0) ->
  let b := x1 - x0 in
  let h := y1 - y0 in
  let e := computeElasticProperties Math_sqrt Math_atan2
             {| outerBoundary := makeRect x0 y0 x1 y1; holes := [] |} in
  area e == b * h /\
  centroidX e == (x0 + x1) / 2 /\
  centroidY e == (y0 + y1) / 2 /\
  Ix e == b * h ^ 3 / 12 /\
  Iy e == h * b ^ 3 / 12 /\
  Ixy e == 0 /\
  Sx_top e == b * h ^ 2 / 6 /\
  Sx_bot e == b * h ^ 2 / 6 /\
  Sy_left e == h * b ^ 2 / 6 /\
  Sy_right e == h * b ^ 2 / 6 /\
  theta_principal e = 0.
Proof.
  intros Hb Hh HA b h.
  assert (Hx : x0 < x1) by lra. assert (Hy : y0 < y1) by lra.
  destruct (composite_makeRect x0 y0 x1 y1 ltac:(lra) ltac:(lra) HA)
    as (Harea & HcX & HcY & HIx & HIy & HIxy).
  cbv zeta in Harea, HcX, HcY, HIx, HIy, HIxy.
  cbv zeta. unfold computeElasticProperties.
  cbn [outerBoundary holes map].
  rewrite ensureCCW_makeRect by lra.
  unfold elasticOfNormalised.
  assert (Hnet : elasticNetArea (makeRect x0 y0 x1 y1) []
                 == (x1 - x0) * (y1 - y0)).
  { unfold elasticNetArea. cbn [map fold_left].
    rewrite makeRect_area by nra. ring. }
  rewrite Qlt_bool_elim_false by (rewrite Hnet; exact HA).
  cbn [concat app]. rewrite app_nil_r.
  rewrite extremeFibers_makeRect by assumption.
  set (cmp := composite (makeRect x0 y0 x1 y1) []) in *.
  cbn [area centroidX centroidY Ix Iy Ixy Sx_top Sx_bot Sy_left Sy_right
       theta_principal].
  assert (HcX2 : 2 * c_centroidX cmp == x0 + x1) by (rewrite HcX; field).
  assert (HcY2 : 2 * c_centroidY cmp == y0 + y1) by (rewrite HcY; field).
  rewrite !sectionModulus_finite by (first [left; lra|right; lra]).
  rewrite (Qlt_bool_elim_false eps12 (Qabs (c_Ixy cmp)))
    by (rewrite HIxy; cbn; lra).
  rewrite (Qabs_pos (y1 - c_centroidY cmp)) by lra.
  rewrite (Qabs_neg (y0 - c_centroidY cmp)) by lra.
  rewrite (Qabs_pos (x1 - c_centroidX cmp)) by lra.
  rewrite (Qabs_neg (x0 - c_centroidX cmp)) by lra.
  rewrite Hnet, HcX, HcY, HIx, HIy, HIxy. subst b h.
  split; [reflexivity|]. split; [reflexivity|]. split; [reflexivity|].
  split; [reflexivity|]. split; [reflexivity|]. split; [reflexivity|].
  split; [field; lra|]. split; [field; lra|].
  split; [field; lra|]. split; [field; lra|]. reflexivity.
Qed.

(** *** The fragments of a rectangle *)

Lemma Qle_bool_intro (a b : Q) : a <= b -> Qle_bool a b = true.
Proof. apply Qle_bool_iff. Qed.

Lemma Qle_bool_elim_false (a b : Q) : b < a -> Qle_bool a b = false.
Proof.
  intros H. destruct (Qle_bool a b) eqn:E; [|reflexivity].
  apply Qle_bool_iff in E. lra.
Qed.

Ltac decide_le :=
  repeat (match goal with
          | |- context [Qle_bool ?a ?b] =>
              first [rewrite (Qle_bool_intro a b) by lra
                    |rewrite (Qle_bool_elim_false a b) by lra]
          end; cbn [negb app]).

Lemma Qabs_least (e d : Q) : e <= d \/ d <= - e -> e <= Qabs d.
Proof. intros H. apply Qabs_case; intros Hd; lra. Qed.

Lemma intersect_horizontal (p1 p2 : Point) (c : Q) :
  eps12 <= y p2 - y p1 \/ y p2 - y p1 <= - eps12 ->
  intersect p1 p2 c horizontal
  = {| x := x p1 + (c - y p1) / (y p2 - y p1) * (x p2 - x p1); y := c |}.
Proof.
  intros H. unfold intersect.
  rewrite Qlt_bool_elim_false by (apply Qabs_least; exact H). reflexivity.
Qed.

Lemma intersect_vertical (p1 p2 : Point) (c : Q) :
  eps12 <= x p2 - x p1 \/ x p2 - x p1 <= - eps12 ->
  intersect p1 p2 c vertical
  = {| x := c; y := y p1 + (c - x p1) / (x p2 - x p1) * (y p2 - y p1) |}.
Proof.
  intros H. unfold intersect.
  rewrite Qlt_bool_elim_false by (apply Qabs_least; exact H). reflexivity.
Qed.

(** The clipper on an explicit vertex list, with the side tests settled
    by linear arithmetic. *)
Ltac explicit_clip :=
  rewrite clipPolygon_flat; cbn [length Nat.ltb Nat.leb];
  rewrite cyclic_pairs_edgesOf;
  cbn [edgesOf app flat_map emitted isInside x y];
  decide_le.

Lemma makeRect_below_horizontal (x0 y0 x1 y1 c : Q) :
  eps12 <= y1 - y0 -> y0 <= c -> c < y1 ->
  clipPolygon (makeRect x0 y0 x1 y1) c horizontal below
  = [{| x := x0; y := y0 |}; {| x := x1; y := y0 |};
     {| x := x1 + (c - y0) / (y1 - y0) * (x1 - x1); y := c |};
     {| x := x0 + (c - y1) / (y0 - y1) * (x0 - x0); y := c |}].
Proof.
  intros Hh H0 H1. unfold makeRect. explicit_clip.
  rewrite !intersect_horizontal by (cbn [x y]; first [left; lra|right; lra]).
  reflexivity.
Qed.

Lemma makeRect_above_horizontal (x0 y0 x1 y1 c : Q) :
  eps12 <= y1 - y0 -> y0 < c -> c <= y1 ->
  clipPolygon (makeRect x0 y0 x1 y1) c horizontal above
  = [{| x := x1 + (c - y0) / (y1 - y0) * (x1 - x1); y := c |};
     {| x := x1; y := y1 |}; {| x := x0; y := y1 |};
     {| x := x0 + (c - y1) / (y0 - y1) * (x0 - x0); y := c |}].
Proof.
  intros Hh H0 H1. unfold makeRect. explicit_clip.
  rewrite !intersect_horizontal by (cbn [x y]; first [left; lra|right; lra]).
  reflexivity.
Qed.

Lemma makeRect_below_vertical (x0 y0 x1 y1 c : Q) :
  eps12 <= x1 - x0 -> x0 <= c -> c < x1 ->
  clipPolygon (makeRect x0 y0 x1 y1) c vertical below
  = [{| x := x0; y := y0 |};
     {| x := c; y := y0 + (c - x0) / (x1 - x0) * (y0 - y0) |};
     {| x := c; y := y1 + (c - x1) / (x0 - x1) * (y1 - y1) |};
     {| x := x0; y := y1 |}].
Proof.
  intros Hb H0 H1. unfold makeRect. explicit_clip.
  rewrite !intersect_vertical by (cbn [x y]; first [left; lra|right; lra]).
  reflexivity.
Qed.

Lemma makeRect_above_vertical (x0 y0 x1 y1 c : Q) :
  eps12 <= x1 - x0 -> x0 < c -> c <= x1 ->
  clipPolygon (makeRect x0 y0 x1 y1) c vertical above
  = [{| x := c; y := y0 + (c - x0) / (x1 - x0) * (y0 - y0) |};
     {| x := x1; y := y0 |}; {| x := x1; y := y1 |};
     {| x := c; y := y1 + (c - x1) / (x0 - x1) * (y1 - y1) |}].
Proof.
  intros Hb H0 H1. unfold makeRect. explicit_clip.
  rewrite !intersect_vertical by (cbn [x y]; first [left; lra|right; lra]).
  reflexivity.
Qed.

Section RectangleFragments.
Variables x0 y0 x1 y1 c : Q.

Lemma fragment_below_horizontal :
  eps12 <= y1 - y0 -> x0 < x1 -> y0 < c -> c < y1 ->
  let F := clipPolygon (makeRect x0 y0 x1 y1) c horizontal below in
  polygonArea F == (x1 - x0) * (c - y0) /\
  (eps12 <= (x1 - x0) * (c - y0) -> 2 * y (polygonCentroid F) == y0 + c).
Proof.
  intros Hh Hx H0 H1. cbv zeta.
  rewrite makeRect_below_horizontal by lra.
  set (F := [_; _; _; _]).
  assert (Hs : signedPolygonArea F == (x1 - x0) * (c - y0))
    by (subst F; explicit_sums; field; lra).
  assert (Ha : polygonArea F == (x1 - x0) * (c - y0))
    by (unfold polygonArea; rewrite Hs; apply Qabs_pos; nra).
  split; [exact Ha|]. intros HA.
  destruct (polygonCentroid_closed F ltac:(rewrite Ha; exact HA)) as [_ Hy].
  rewrite Hy, Hs. subst F. explicit_sums. field. split; lra.
Qed.

Lemma fragment_above_horizontal :
  eps12 <= y1 - y0 -> x0 < x1 -> y0 < c -> c < y1 ->
  let F := clipPolygon (makeRect x0 y0 x1 y1) c horizontal above in
  polygonArea F == (x1 - x0) * (y1 - c) /\
  (eps12 <= (x1 - x0) * (y1 - c) -> 2 * y (polygonCentroid F) == c + y1).
Proof.
  intros Hh Hx H0 H1. cbv zeta.
  rewrite makeRect_above_horizontal by lra.
  set (F := [_; _; _; _]).
  assert (Hs : signedPolygonArea F == (x1 - x0) * (y1 - c))
    by (subst F; explicit_sums; field; lra).
  assert (Ha : polygonArea F == (x1 - x0) * (y1 - c))
    by (unfold polygonArea; rewrite Hs; apply Qabs_pos; nra).
  split; [exact Ha|]. intros HA.
  destruct (polygonCentroid_closed F ltac:(rewrite Ha; exact HA)) as [_ Hy].
  rewrite Hy, Hs. subst F. explicit_sums. field. split; lra.
Qed.

Lemma fragment_below_vertical :
  eps12 <= x1 - x0 -> y0 < y1 -> x0 < c -> c < x1 ->
  let F := clipPolygon (makeRect x0 y0 x1 y1) c vertical below in
  polygonArea F == (c - x0) * (y1 - y0) /\
  (eps12 <= (c - x0) * (y1 - y0) -> 2 * x (polygonCentroid F) == x0 + c).
Proof.
  intros Hb Hy H0 H1. cbv zeta.
  rewrite makeRect_below_vertical by lra.
  set (F := [_; _; _; _]).
  assert (Hs : signedPolygonArea F == (c - x0) * (y1 - y0))
    by (subst F; explicit_sums; field; lra).
  assert (Ha : polygonArea F == (c - x0) * (y1 - y0))
    by (unfold polygonArea; rewrite Hs; apply Qabs_pos; nra).
  split; [exact Ha|]. intros HA.
  destruct (polygonCentroid_closed F ltac:(rewrite Ha; exact HA)) as [Hcx _].
  rewrite Hcx, Hs. subst F. explicit_sums. field. split; lra.
Qed.

Lemma fragment_above_vertical :
  eps12 <= x1 - x0 -> y0 < y1 -> x0 < c -> c < x1 ->
  let F := clipPolygon (makeRect x0 y0 x1 y1) c vertical above in
  polygonArea F == (x1 - c) * (y1 - y0) /\
  (eps12 <= (x1 - c) * (y1 - y0) -> 2 * x (polygonCentroid F) == c + x1).
Proof.
  intros Hb Hy H0 H1. cbv zeta.
  rewrite makeRect_above_vertical by lra.
  set (F := [_; _; _; _]).
  assert (Hs : signedPolygonArea F == (x1 - c) * (y1 - y0))
    by (subst F; explicit_sums; field; lra).
  assert (Ha : polygonArea F == (x1 - c) * (y1 - y0))
    by (unfold polygonArea; rewrite Hs; apply Qabs_pos; nra).
  split; [exact Ha|]. intros HA.
  destruct (polygonCentroid_closed F ltac:(rewrite Ha; exact HA)) as [Hcx _].
  rewrite Hcx, Hs. subst F. explicit_sums. field. split; lra.
Qed.

End RectangleFragments.

Lemma findPNA_first (outer : list Point) (holes : list (list Point))
      (totalArea : Q) (dir : Direction) (lo hi : Q) :
  convergedAt outer holes totalArea dir ((lo + hi) / 2) = true ->
  findPNA outer holes totalArea lo hi dir = (lo + hi) / 2.
Proof.
  intros H. unfold findPNA, findPNA_run.
  assert (Hn : forall n iter,
             pna_value (findPNA_loop outer holes totalArea dir (S n) iter lo hi)
             = (lo + hi) / 2).
  { intros n iter. cbn [findPNA_loop].
    unfold convergedAt, areaBelowAt, halfArea in H.
    unfold areaBelowAt, halfArea. rewrite H. reflexivity. }
  apply (Hn 99%nat).
Qed.

Lemma firstMoment_polygon (F : list Point) (c : Q) (dir : Direction) :
  (3 <= length F)%nat ->
  firstMomentAboutAxis F c dir
  = match dir with
    | horizontal => polygonArea F * (y (polygonCentroid F) - c)
    | vertical => polygonArea F * (x (polygonCentroid F) - c)
    end.
Proof.
  intros H. unfold firstMomentAboutAxis.
  replace (length F <? 3)%nat with false
    by (symmetry; apply Nat.ltb_ge; exact H).
  reflexivity.
Qed.

Lemma rectangle_plastic (x0 y0 x1 y1 : Q) :
  eps12 <= x1 - x0 ->
  eps12 <= y1 - y0 ->
  2 * eps12 <= (x1 - x0) * (y1 - y0) ->
  let b := x1 - x0 in
  let h := y1 - y0 in
  let p := computePlasticProperties
             {| outerBoundary := makeRect x0 y0 x1 y1; holes := [] |} in
  pnaX p = (y0 + y1) / 2 /\
  pnaY p = (x0 + x1) / 2 /\
  Zx p == b * h ^ 2 / 4 /\
  Zy p == h * b ^ 2 / 4.
Proof.
  intros Hb Hh HA b h.
  assert (Hx : x0 < x1) by lra. assert (Hy : y0 < y1) by lra.
  cbv zeta. unfold computePlasticProperties.
  cbn [outerBoundary holes map].
  rewrite ensureCCW_makeRect by lra.
  unfold computeNetArea. cbn [fold_left].
  pose proof (makeRect_area x0 y0 x1 y1 ltac:(nra)) as HT.
  rewrite Qlt_bool_elim_false by (rewrite HT; lra).
  cbn [concat app]. rewrite app_nil_r.
  rewrite boundingBox_makeRect by assumption.
  set (R := makeRect x0 y0 x1 y1) in *.
  set (T := polygonArea R) in *.
  set (cy := (y0 + y1) / 2). set (cx := (x0 + x1) / 2).
  assert (Hcy : 2 * cy == y0 + y1) by (subst cy; field).
  assert (Hcx : 2 * cx == x0 + x1) by (subst cx; field).
  destruct (fragment_below_horizontal x0 y0 x1 y1 cy
              ltac:(lra) ltac:(lra) ltac:(lra) ltac:(lra)) as [Abh Cbh].
  destruct (fragment_above_horizontal x0 y0 x1 y1 cy
              ltac:(lra) ltac:(lra) ltac:(lra) ltac:(lra)) as [Aah Cah].
  destruct (fragment_below_vertical x0 y0 x1 y1 cx
              ltac:(lra) ltac:(lra) ltac:(lra) ltac:(lra)) as [Abv Cbv].
  destruct (fragment_above_vertical x0 y0 x1 y1 cx
              ltac:(lra) ltac:(lra) ltac:(lra) ltac:(lra)) as [Aav Cav].
  cbv zeta in Abh, Cbh, Aah, Cah, Abv, Cbv, Aav, Cav. fold R in Abh, Cbh, Aah, Cah, Abv, Cbv, Aav, Cav.
  specialize (Cbh ltac:(nra)). specialize (Cah ltac:(nra)).
  specialize (Cbv ltac:(nra)). specialize (Cav ltac:(nra)).
  assert (HpnaX : findPNA R [] T y0 y1 horizontal = cy).
  { apply findPNA_first. fold cy.
    unfold convergedAt, areaBelowAt, halfArea, computeAreaOneSide.
    cbn [fold_left]. apply Qlt_bool_intro.
    rewrite Abh. subst T. rewrite HT.
    setoid_replace ((x1 - x0) * (cy - y0) - (x1 - x0) * (y1 - y0) / 2)
      with 0 by (subst cy; field).
    change (Qabs 0) with 0. lra. }
  assert (HpnaY : findPNA R [] T x0 x1 vertical = cx).
  { apply findPNA_first. fold cx.
    unfold convergedAt, areaBelowAt, halfArea, computeAreaOneSide.
    cbn [fold_left]. apply Qlt_bool_intro.
    rewrite Abv. subst T. rewrite HT.
    setoid_replace ((cx - x0) * (y1 - y0) - (x1 - x0) * (y1 - y0) / 2)
      with 0 by (subst cx; field).
    change (Qabs 0) with 0. lra. }
  rewrite HpnaX, HpnaY. cbn [pnaX pnaY Zx Zy].
  split; [reflexivity|]. split; [reflexivity|].
  unfold computePlasticModulus. cbn [fold_left].
  assert (L1 : (3 <= length (clipPolygon R cy horizontal above))%nat)
    by (subst R; rewrite makeRect_above_horizontal by lra; cbn; lia).
  assert (L2 : (3 <= length (clipPolygon R cy horizontal below))%nat)
    by (subst R; rewrite makeRect_below_horizontal by lra; cbn; lia).
  assert (L3 : (3 <= length (clipPolygon R cx vertical above))%nat)
    by (subst R; rewrite makeRect_above_vertical by lra; cbn; lia).
  assert (L4 : (3 <= length (clipPolygon R cx vertical below))%nat)
    by (subst R; rewrite makeRect_below_vertical by lra; cbn; lia).
  rewrite !firstMoment_polygon by assumption.
  rewrite Abh, Aah, Abv, Aav.
  set (ya := y (polygonCentroid (clipPolygon R cy horizontal above))) in *.
  set (yb := y (polygonCentroid (clipPolygon R cy horizontal below))) in *.
  set (xa := x (polygonCentroid (clipPolygon R cx vertical above))) in *.
  set (xb := x (polygonCentroid (clipPolygon R cx vertical below))) in *.
  subst b h. split.
  - rewrite (Qabs_pos ((x1 - x0) * (y1 - cy) * (ya - cy))) by nra.
    rewrite (Qabs_neg ((x1 - x0) * (cy - y0) * (yb - cy))) by nra.
    setoid_replace ya with ((cy + y1) / 2) by (rewrite <- Cah; field).
    setoid_replace yb with ((y0 + cy) / 2) by (rewrite <- Cbh; field).
    subst cy. field.
  - rewrite (Qabs_pos ((x1 - cx) * (y1 - y0) * (xa - cx))) by nra.
    rewrite (Qabs_neg ((cx - x0) * (y1 - y0) * (xb - cx))) by nra.
    setoid_replace xa with ((cx + x1) / 2) by (rewrite <- Cav; field).
    setoid_replace xb with ((x0 + cx) / 2) by (rewrite <- Cbv; field).
    subst cx. field.
Qed.

Lemma rectangle_forms
      (Math_sqrt : Q -> Q) (Math_atan2 : Q -> Q -> Q) (x0 y0 x1 y1 : Q) :
  2 * eps12 < x1 - x0 ->
  2 * eps12 < y1 - y0 ->
  2 * eps12 <= (x1 - x0) * (y1 - y0) ->
  let b := x1 - x0 in
  let h := y1 - y0 in
  let p := computeSectionProperties Math_sqrt Math_atan2
             {| outerBoundary := makeRect x0 y0 x1 y1; holes := [] |} in
  area (elastic p) == b * h /\
  centroidX (elastic p) == (x0 + x1) / 2 /\
  centroidY (elastic p) == (y0 + y1) / 2 /\
  Ix (elastic p) == b * h ^ 3 / 12 /\
  Iy (elastic p) == h * b ^ 3 / 12 /\
  Ixy (elastic p) == 0 /\
  Sx_top (elastic p) == b * h ^ 2 / 6 /\
  Sx_bot (elastic p) == b * h ^ 2 / 6 /\
  Sy_left (elastic p) == h * b ^ 2 / 6 /\
  Sy_right (elastic p) == h * b ^ 2 / 6 /\
  theta_principal (elastic p) = 0 /\
  pnaX (plastic p) = (y0 + y1) / 2 /\
  pnaY (plastic p) = (x0 + x1) / 2 /\
  Zx (plastic p) == b * h ^ 2 / 4 /\
  Zy (plastic p) == h * b ^ 2 / 4.
Proof.
  intros Hb Hh HA b h p.
  pose proof (rectangle_elastic Math_sqrt Math_atan2 x0 y0 x1 y1 Hb Hh
                ltac:(lra)) as He.
  pose proof (rectangle_plastic x0 y0 x1 y1 ltac:(lra) ltac:(lra) HA) as Hp.
  cbv zeta in He, Hp. subst p b h.
  cbn [computeSectionProperties elastic plastic]. tauto.
Qed.

(** ** Shape templates *)

(** The outline of the rectangle template, its parameters in the
    declared ranges, cut by a horizontal line strictly between its
    bottom and top, or by a vertical line strictly between its left and
    right side: the two fragments have the areas of the two rectangles,
    which add up to the area of the outline. *)
Theorem rectangle_template_fragments (params : String.string -> Q) (c : Q) :
  inRange ShapeTemplates.rectangleTemplate params ->
  let b := params "b"%string in
  let h := params "h"%string in
  let V := outerBoundary (ShapeTemplates.generateGeometry
                            ShapeTemplates.rectangleTemplate params) in
  (0 < c -> c < h ->
   polygonArea (clipPolygon V c horizontal below) == b * c /\
   polygonArea (clipPolygon V c horizontal above) == b * (h - c) /\
   polygonArea (clipPolygon V c horizontal below)
   + polygonArea (clipPolygon V c horizontal above) == polygonArea V) /\
  (0 < c -> c < b ->
   polygonArea (clipPolygon V c vertical below) == c * h /\
   polygonArea (clipPolygon V c vertical above) == (b - c) * h /\
   polygonArea (clipPolygon V c vertical below)
   + polygonArea (clipPolygon V c vertical above) == polygonArea V).
Proof.
  intros Hr b h V.
  unfold inRange in Hr. cbn [ShapeTemplates.rectangleTemplate
                             ShapeTemplates.parameters] in Hr.
  inversion Hr as [|pb l1 [Hb1 Hb2] Hr1]; subst.
  inversion Hr1 as [|ph l2 [Hh1 Hh2] _]; subst.
  cbn [ShapeTemplates.key ShapeTemplates.min ShapeTemplates.max] in *.
  fold b in Hb1, Hb2. fold h in Hh1, Hh2.
  change V with (makeRect 0 0 b h).
  pose proof (makeRect_area 0 0 b h ltac:(nra)) as HA.
  split; intros H0 H1.
  - destruct (fragment_below_horizontal 0 0 b h c
                ltac:(lra) ltac:(lra) H0 H1) as [Hb _].
    destruct (fragment_above_horizontal 0 0 b h c
                ltac:(lra) ltac:(lra) H0 H1) as [Ha _].
    cbv zeta in Hb, Ha. rewrite Hb, Ha, HA.
    split; [ring|]. split; [ring|]. ring.
  - destruct (fragment_below_vertical 0 0 b h c
                ltac:(lra) ltac:(lra) H0 H1) as [Hb _].
    destruct (fragment_above_vertical 0 0 b h c
                ltac:(lra) ltac:(lra) H0 H1) as [Ha _].
    cbv zeta in Hb, Ha. rewrite Hb, Ha, HA.
    split; [ring|]. split; [ring|]. ring.
Qed.

Lemma rectangle_template_fragments_witness :
  inRange ShapeTemplates.rectangleTemplate (params_b_h 10 8) /\
  polygonArea
    (clipPolygon
       (outerBoundary (ShapeTemplates.generateGeometry
                         ShapeTemplates.rectangleTemplate (params_b_h 10 8)))
       3 horizontal below)
  == params_b_h 10 8 "b"%string * 3.
Proof.
  assert (H : inRange ShapeTemplates.rectangleTemplate (params_b_h 10 8)).
  { unfold inRange. cbn [ShapeTemplates.rectangleTemplate
                         ShapeTemplates.parameters].
    repeat constructor; vm_compute; discriminate. }
  split; [exact H|].
  apply (proj1 (rectangle_template_fragments (params_b_h 10 8) 3 H));
    vm_compute; reflexivity.
Defined.

(** The rectangle template with its parameters in the declared ranges:
    the engines return the closed forms of a [b] by [h] rectangle. *)
Theorem rectangle_template_properties
        (Math_sqrt : Q -> Q) (Math_atan2 : Q -> Q -> Q)
        (params : String.string -> Q) :
  inRange ShapeTemplates.rectangleTemplate params ->
  let b := params "b"%string in
  let h := params "h"%string in
  let p := computeSectionProperties Math_sqrt Math_atan2
             (ShapeTemplates.generateGeometry
                ShapeTemplates.rectangleTemplate params) in
  area (elastic p) == b * h /\
  centroidX (elastic p) == b / 2 /\
  centroidY (elastic p) == h / 2 /\
  Ix (elastic p) == b * h ^ 3 / 12 /\
  Iy (elastic p) == h * b ^ 3 / 12 /\
  Ixy (elastic p) == 0 /\
  Sx_top (elastic p) == b * h ^ 2 / 6 /\
  Sx_bot (elastic p) == b * h ^ 2 / 6 /\
  Sy_left (elastic p) == h * b ^ 2 / 6 /\
  Sy_right (elastic p) == h * b ^ 2 / 6 /\
  pnaX (plastic p) == h / 2 /\
  pnaY (plastic p) == b / 2 /\
  Zx (plastic p) == b * h ^ 2 / 4 /\
  Zy (plastic p) == h * b ^ 2 / 4.
Proof.
  intros Hr b h.
  unfold inRange in Hr. cbn [ShapeTemplates.rectangleTemplate
                             ShapeTemplates.parameters] in Hr.
  inversion Hr as [|pb l1 [Hb1 Hb2] Hr1]; subst.
  inversion Hr1 as [|ph l2 [Hh1 Hh2] _]; subst.
  cbn [ShapeTemplates.key ShapeTemplates.min ShapeTemplates.max] in *.
  fold b in Hb1, Hb2. fold h in Hh1, Hh2.
  pose proof (rectangle_forms Math_sqrt Math_atan2 0 0 b h
                ltac:(lra) ltac:(lra) ltac:(nra)) as H.
  cbv zeta in H. cbv zeta.
  change (ShapeTemplates.generateGeometry
            ShapeTemplates.rectangleTemplate params)
    with {| outerBoundary := makeRect 0 0 b h; holes := [] |}.
  destruct H as (H1 & H2 & H3 & H4 & H5 & H6 & H7 & H8 & H9 & H10 & _
                 & H12 & H13 & H14 & H15).
  rewrite H1, H2, H3, H4, H5, H6, H7, H8, H9, H10, H12, H13, H14, H15.
  repeat split; field.
Qed.

Lemma rectangle_template_properties_witness :
  inRange ShapeTemplates.rectangleTemplate (params_b_h 6 8) /\
  area (elastic (computeSectionProperties floor_sqrt no_atan2
                   (ShapeTemplates.generateGeometry
                      ShapeTemplates.rectangleTemplate (params_b_h 6 8))))
  == params_b_h 6 8 "b"%string * params_b_h 6 8 "h"%string.
Proof.
  assert (H : inRange ShapeTemplates.rectangleTemplate (params_b_h 6 8)).
  { unfold inRange. cbn [ShapeTemplates.rectangleTemplate
                         ShapeTemplates.parameters].
    repeat constructor; vm_compute; discriminate. }
  split; [exact H|].
  apply (rectangle_template_properties floor_sqrt no_atan2 (params_b_h 6 8) H).
Defined.

(** *** The hollow rectangle *)

Lemma makeRect_moments_nonneg (x0 y0 x1 y1 : Q) :
  x0 <= x1 -> y0 <= y1 ->
  0 <= polygonIxOrigin (makeRect x0 y0 x1 y1) /\
  0 <= polygonIyOrigin (makeRect x0 y0 x1 y1).
Proof.
  intros Hx Hy.
  destruct (makeRect_moments x0 y0 x1 y1) as (Hix & Hiy & _).
  rewrite Hix, Hiy. split.
  - setoid_replace ((x1 - x0) * (y1 ^ 3 - y0 ^ 3) / 3)
      with ((x1 - x0) * (y1 - y0)
            * ((y1 + y0 / 2) ^ 2 + 3 * (y0 / 2) ^ 2) / 3) by field.
    assert (0 <= (y1 + y0 / 2) ^ 2 + 3 * (y0 / 2) ^ 2) by nra.
    assert (0 <= (x1 - x0) * (y1 - y0)) by nra.
    apply Qle_shift_div_l; [lra|]. nra.
  - setoid_replace ((y1 - y0) * (x1 ^ 3 - x0 ^ 3) / 3)
      with ((y1 - y0) * (x1 - x0)
            * ((x1 + x0 / 2) ^ 2 + 3 * (x0 / 2) ^ 2) / 3) by field.
    assert (0 <= (x1 + x0 / 2) ^ 2 + 3 * (x0 / 2) ^ 2) by nra.
    assert (0 <= (y1 - y0) * (x1 - x0)) by nra.
    apply Qle_shift_div_l; [lra|]. nra.
Qed.

Lemma ensureCW_makeRect (x0 y0 x1 y1 : Q) :
  x0 < x1 -> y0 < y1 ->
  ensureCW (makeRect x0 y0 x1 y1) = rev (makeRect x0 y0 x1 y1).
Proof.
  intros Hx Hy. unfold ensureCW.
  rewrite Qlt_bool_intro; [reflexivity|].
  rewrite makeRect_signedArea. nra.
Qed.

Section HollowRectangle.
Variables B H t : Q.
Hypothesis wall : 1 # 100000 <= t.
Hypothesis width : 1 # 100000 <= B - 2 * t.
Hypothesis height : 1 # 100000 <= H - 2 * t.

Lemma hollow_composite :
  let cmp := composite (makeRect 0 0 B H)
                       [rev (makeRect t t (B - t) (H - t))] in
  c_area cmp == B * H - (B - 2 * t) * (H - 2 * t) /\
  2 * c_centroidX cmp == B /\
  2 * c_centroidY cmp == H /\
  c_Ix cmp == (B * H ^ 3 - (B - 2 * t) * (H - 2 * t) ^ 3) / 12 /\
  c_Iy cmp == (H * B ^ 3 - (H - 2 * t) * (B - 2 * t) ^ 3) / 12 /\
  c_Ixy cmp == B * H * (B - 2 * t) * (H - 2 * t) / 2.
Proof.
  cbv zeta. unfold composite.
  cbn [map combine fold_left c_area c_centroidX c_centroidY c_Ix c_Iy c_Ixy].
  pose proof wall as Hw. pose proof width as Hb. pose proof height as Hh.
  pose proof (makeRect_area 0 0 B H ltac:(nra)) as Hao.
  pose proof (makeRect_area t t (B - t) (H - t) ltac:(nra)) as Hah.
  destruct (makeRect_centroid 0 0 B H ltac:(nra)) as [Hcxo Hcyo].
  destruct (makeRect_centroid t t (B - t) (H - t) ltac:(nra)) as [Hcxh Hcyh].
  destruct (makeRect_moments 0 0 B H) as (Hixo & Hiyo & Hixyo).
  destruct (makeRect_moments t t (B - t) (H - t)) as (Hixh & Hiyh & Hixyh).
  destruct (makeRect_moments_nonneg 0 0 B H ltac:(lra) ltac:(lra))
    as [Pixo Piyo].
  destruct (makeRect_moments_nonneg t t (B - t) (H - t) ltac:(lra) ltac:(lra))
    as [Pixh Piyh].
  set (outer := makeRect 0 0 B H) in *.
  set (hole := makeRect t t (B - t) (H - t)) in *.
  destruct (polygonCentroid_rev hole) as [Rcx Rcy].
  destruct (polygonMoments_rev hole) as (Rix & Riy & Rixy).
  rewrite (polygonArea_rev hole), Rcx, Rcy, Rix, Riy, Rixy.
  rewrite !Qabs_opp.
  rewrite (Qabs_pos _ Pixo), (Qabs_pos _ Piyo), (Qabs_pos _ Pixh),
    (Qabs_pos _ Piyh).
  rewrite Hao, Hah, Hcxo, Hcyo, Hcxh, Hcyh, Hixo, Hiyo, Hixyo, Hixh, Hiyh,
    Hixyh.
  assert (Hnet : 0 < B * H - (B - 2 * t) * (H - 2 * t)) by nra.
  split; [ring|].
  split; [field; lra|]. split; [field; lra|].
  split; [field; lra|]. split; [field; lra|]. field; lra.
Qed.

End HollowRectangle.

Lemma area_long (F : list Point) :
  eps12 <= polygonArea F -> (3 <= length F)%nat.
Proof.
  intros H. destruct (Nat.lt_ge_cases (length F) 3) as [Hs|Hl]; [|exact Hl].
  exfalso. unfold polygonArea, signedPolygonArea in H.
  rewrite (short_ltb _ _ Hs) in H. cbn in H. lra.
Qed.

(** The fragments of a clockwise rectangle. *)
Section ReversedRectangleFragments.
Variables x0 y0 x1 y1 c : Q.

Lemma reversed_below_horizontal :
  eps12 <= y1 - y0 -> x0 < x1 -> y0 < c -> c < y1 ->
  let F := clipPolygon (rev (makeRect x0 y0 x1 y1)) c horizontal below in
  polygonArea F == (x1 - x0) * (c - y0) /\
  (eps12 <= (x1 - x0) * (c - y0) -> 2 * y (polygonCentroid F) == y0 + c).
Proof.
  intros Hh Hx H0 H1. cbv zeta.
  unfold makeRect. cbn [rev app]. explicit_clip.
  rewrite !intersect_horizontal by (cbn [x y]; first [left; lra|right; lra]).
  cbn [x y].
  set (F := [_; _; _; _]).
  assert (Hs : signedPolygonArea F == - ((x1 - x0) * (c - y0)))
    by (subst F; explicit_sums; field; lra).
  assert (Ha : polygonArea F == (x1 - x0) * (c - y0))
    by (unfold polygonArea; rewrite Hs, Qabs_opp; apply Qabs_pos; nra).
  split; [exact Ha|]. intros HA.
  destruct (polygonCentroid_closed F ltac:(rewrite Ha; exact HA)) as [_ Hy].
  rewrite Hy, Hs. subst F. explicit_sums. field. split; lra.
Qed.

Lemma reversed_above_horizontal :
  eps12 <= y1 - y0 -> x0 < x1 -> y0 < c -> c < y1 ->
  let F := clipPolygon (rev (makeRect x0 y0 x1 y1)) c horizontal above in
  polygonArea F == (x1 - x0) * (y1 - c) /\
  (eps12 <= (x1 - x0) * (y1 - c) -> 2 * y (polygonCentroid F) == c + y1).
Proof.
  intros Hh Hx H0 H1. cbv zeta.
  unfold makeRect. cbn [rev app]. explicit_clip.
  rewrite !intersect_horizontal by (cbn [x y]; first [left; lra|right; lra]).
  cbn [x y].
  set (F := [_; _; _; _]).
  assert (Hs : signedPolygonArea F == - ((x1 - x0) * (y1 - c)))
    by (subst F; explicit_sums; field; lra).
  assert (Ha : polygonArea F == (x1 - x0) * (y1 - c))
    by (unfold polygonArea; rewrite Hs, Qabs_opp; apply Qabs_pos; nra).
  split; [exact Ha|]. intros HA.
  destruct (polygonCentroid_closed F ltac:(rewrite Ha; exact HA)) as [_ Hy].
  rewrite Hy, Hs. subst F. explicit_sums. field. split; lra.
Qed.

Lemma reversed_below_vertical :
  eps12 <= x1 - x0 -> y0 < y1 -> x0 < c -> c < x1 ->
  let F := clipPolygon (rev (makeRect x0 y0 x1 y1)) c vertical below in
  polygonArea F == (c - x0) * (y1 - y0) /\
  (eps12 <= (c - x0) * (y1 - y0) -> 2 * x (polygonCentroid F) == x0 + c).
Proof.
  intros Hb Hy H0 H1. cbv zeta.
  unfold makeRect. cbn [rev app]. explicit_clip.
  rewrite !intersect_vertical by (cbn [x y]; first [left; lra|right; lra]).
  cbn [x y].
  set (F := [_; _; _; _]).
  assert (Hs : signedPolygonArea F == - ((c - x0) * (y1 - y0)))
    by (subst F; explicit_sums; field; lra).
  assert (Ha : polygonArea F == (c - x0) * (y1 - y0))
    by (unfold polygonArea; rewrite Hs, Qabs_opp; apply Qabs_pos; nra).
  split; [exact Ha|]. intros HA.
  destruct (polygonCentroid_closed F ltac:(rewrite Ha; exact HA)) as [Hcx _].
  rewrite Hcx, Hs. subst F. explicit_sums. field. split; lra.
Qed.

Lemma reversed_above_vertical :
  eps12 <= x1 - x0 -> y0 < y1 -> x0 < c -> c < x1 ->
  let F := clipPolygon (rev (makeRect x0 y0 x1 y1)) c vertical above in
  polygonArea F == (x1 - c) * (y1 - y0) /\
  (eps12 <= (x1 - c) * (y1 - y0) -> 2 * x (polygonCentroid F) == c + x1).
Proof.
  intros Hb Hy H0 H1. cbv zeta.
  unfold makeRect. cbn [rev app]. explicit_clip.
  rewrite !intersect_vertical by (cbn [x y]; first [left; lra|right; lra]).
  cbn [x y].
  set (F := [_; _; _; _]).
  assert (Hs : signedPolygonArea F == - ((x1 - c) * (y1 - y0)))
    by (subst F; explicit_sums; field; lra).
  assert (Ha : polygonArea F == (x1 - c) * (y1 - y0))
    by (unfold polygonArea; rewrite Hs, Qabs_opp; apply Qabs_pos; nra).
  split; [exact Ha|]. intros HA.
  destruct (polygonCentroid_closed F ltac:(rewrite Ha; exact HA)) as [Hcx _].
  rewrite Hcx, Hs. subst F. explicit_sums. field. split; lra.
Qed.

End ReversedRectangleFragments.

Section HollowRectangleEngines.
Variables B H t : Q.
Hypothesis wall : 1 # 100000 <= t.
Hypothesis width : 1 # 100000 <= B - 2 * t.
Hypothesis height : 1 # 100000 <= H - 2 * t.

Lemma hollow_elastic (Math_sqrt : Q -> Q) (Math_atan2 : Q -> Q -> Q) :
  let e := computeElasticProperties Math_sqrt Math_atan2 (hollowRect B H t) in
  area e == B * H - (B - 2 * t) * (H - 2 * t) /\
  centroidX e == B / 2 /\
  centroidY e == H / 2 /\
  Ix e == (B * H ^ 3 - (B - 2 * t) * (H - 2 * t) ^ 3) / 12 /\
  Iy e == (H * B ^ 3 - (H - 2 * t) * (B - 2 * t) ^ 3) / 12 /\
  Ixy e == B * H * (B - 2 * t) * (H - 2 * t) / 2 /\
  Sx_top e == (B * H ^ 3 - (B - 2 * t) * (H - 2 * t) ^ 3) / (6 * H) /\
  Sx_bot e == (B * H ^ 3 - (B - 2 * t) * (H - 2 * t) ^ 3) / (6 * H) /\
  Sy_left e == (H * B ^ 3 - (H - 2 * t) * (B - 2 * t) ^ 3) / (6 * B) /\
  Sy_right e == (H * B ^ 3 - (H - 2 * t) * (B - 2 * t) ^ 3) / (6 * B).
Proof.
  pose proof wall as Hw. pose proof width as Hb. pose proof height as Hh.
  destruct (hollow_composite B H t wall width height)
    as (Harea & HcX & HcY & HIx & HIy & HIxy).
  cbv zeta in Harea, HcX, HcY, HIx, HIy, HIxy.
  cbv zeta. unfold computeElasticProperties, hollowRect.
  cbn [outerBoundary holes map].
  rewrite ensureCCW_makeRect by lra.
  rewrite ensureCW_makeRect by lra.
  unfold elasticOfNormalised.
  assert (Hnet : elasticNetArea (makeRect 0 0 B H)
                                [rev (makeRect t t (B - t) (H - t))]
                 == B * H - (B - 2 * t) * (H - 2 * t)).
  { unfold elasticNetArea. cbn [map fold_left].
    rewrite polygonArea_rev, !makeRect_area by nra. ring. }
  rewrite Qlt_bool_elim_false by (rewrite Hnet; nra).
  set (cmp := composite _ _) in *.
  assert (Hext : extremeFibers (c_centroidX cmp) (c_centroidY cmp)
                   (concat [makeRect 0 0 B H;
                            rev (makeRect t t (B - t) (H - t))])
                 = (Finite (H - c_centroidY cmp), Finite (0 - c_centroidY cmp),
                    Finite (B - c_centroidX cmp), Finite (0 - c_centroidX cmp))).
  { unfold extremeFibers, makeRect.
    cbn [rev concat app fold_left ext_ltb x y]. decide_lt. reflexivity. }
  rewrite Hext.
  cbn [area centroidX centroidY Ix Iy Ixy Sx_top Sx_bot Sy_left Sy_right].
  rewrite !sectionModulus_finite by (first [left; lra|right; lra]).
  rewrite (Qabs_pos (H - c_centroidY cmp)) by lra.
  rewrite (Qabs_neg (0 - c_centroidY cmp)) by lra.
  rewrite (Qabs_pos (B - c_centroidX cmp)) by lra.
  rewrite (Qabs_neg (0 - c_centroidX cmp)) by lra.
  setoid_replace (c_centroidX cmp) with (B / 2) by (rewrite <- HcX; field).
  setoid_replace (c_centroidY cmp) with (H / 2) by (rewrite <- HcY; field).
  rewrite Hnet, HIx, HIy, HIxy.
  split; [reflexivity|]. split; [reflexivity|]. split; [reflexivity|].
  split; [reflexivity|]. split; [reflexivity|]. split; [reflexivity|].
  split; [field; lra|]. split; [field; lra|].
  split; [field; lra|]. field; lra.
Qed.

Lemma hollow_plastic :
  let p := computePlasticProperties (hollowRect B H t) in
  pnaX p = (0 + H) / 2 /\
  pnaY p = (0 + B) / 2 /\
  Zx p == (B * H ^ 2 - (B - 2 * t) * (H - 2 * t) ^ 2) / 4 /\
  Zy p == (H * B ^ 2 - (H - 2 * t) * (B - 2 * t) ^ 2) / 4.
Proof.
  pose proof wall as Hw. pose proof width as Hb. pose proof height as Hh.
  cbv zeta. unfold computePlasticProperties, hollowRect.
  cbn [outerBoundary holes map].
  rewrite ensureCCW_makeRect by lra.
  rewrite ensureCW_makeRect by lra.
  set (O := makeRect 0 0 B H).
  set (h := makeRect t t (B - t) (H - t)).
  assert (HT : computeNetArea O [rev h]
               == B * H - (B - 2 * t) * (H - 2 * t)).
  { unfold computeNetArea. cbn [fold_left]. subst O h.
    rewrite polygonArea_rev, !makeRect_area by nra. ring. }
  rewrite Qlt_bool_elim_false by (rewrite HT; nra).
  set (T := computeNetArea O [rev h]) in *.
  assert (Hbox : boundingBox (concat [O; rev h])
                 = (Finite 0, Finite H, Finite 0, Finite B)).
  { subst O h. unfold boundingBox, makeRect.
    cbn [rev concat app fold_left boundingStep ext_ltb x y].
    decide_lt. reflexivity. }
  rewrite Hbox.
  set (cy := (0 + H) / 2). set (cx := (0 + B) / 2).
  assert (Hcy : 2 * cy == H) by (subst cy; field).
  assert (Hcx : 2 * cx == B) by (subst cx; field).
  destruct (fragment_below_horizontal 0 0 B H cy
              ltac:(lra) ltac:(lra) ltac:(lra) ltac:(lra)) as [Abh Cbh].
  destruct (fragment_above_horizontal 0 0 B H cy
              ltac:(lra) ltac:(lra) ltac:(lra) ltac:(lra)) as [Aah Cah].
  destruct (fragment_below_vertical 0 0 B H cx
              ltac:(lra) ltac:(lra) ltac:(lra) ltac:(lra)) as [Abv Cbv].
  destruct (fragment_above_vertical 0 0 B H cx
              ltac:(lra) ltac:(lra) ltac:(lra) ltac:(lra)) as [Aav Cav].
  destruct (reversed_below_horizontal t t (B - t) (H - t) cy
              ltac:(lra) ltac:(lra) ltac:(lra) ltac:(lra)) as [abh cbh].
  destruct (reversed_above_horizontal t t (B - t) (H - t) cy
              ltac:(lra) ltac:(lra) ltac:(lra) ltac:(lra)) as [aah cah].
  destruct (reversed_below_vertical t t (B - t) (H - t) cx
              ltac:(lra) ltac:(lra) ltac:(lra) ltac:(lra)) as [abv cbv].
  destruct (reversed_above_vertical t t (B - t) (H - t) cx
              ltac:(lra) ltac:(lra) ltac:(lra) ltac:(lra)) as [aav cav].
  cbv zeta in Abh, Cbh, Aah, Cah, Abv, Cbv, Aav, Cav,
              abh, cbh, aah, cah, abv, cbv, aav, cav.
  fold O in Abh, Cbh, Aah, Cah, Abv, Cbv, Aav, Cav.
  fold h in abh, cbh, aah, cah, abv, cbv, aav, cav.
  specialize (Cbh ltac:(nra)). specialize (Cah ltac:(nra)).
  specialize (Cbv ltac:(nra)). specialize (Cav ltac:(nra)).
  specialize (cbh ltac:(nra)). specialize (cah ltac:(nra)).
  specialize (cbv ltac:(nra)). specialize (cav ltac:(nra)).
  assert (HpnaX : findPNA O [rev h] T 0 H horizontal = cy).
  { apply findPNA_first. fold cy.
    unfold convergedAt, areaBelowAt, halfArea, computeAreaOneSide.
    cbn [fold_left]. apply Qlt_bool_intro.
    rewrite Abh, abh. subst T. rewrite HT.
    setoid_replace ((B - 0) * (cy - 0) - (B - t - t) * (cy - t)
                    - (B * H - (B - 2 * t) * (H - 2 * t)) / 2)
      with 0 by (subst cy; field).
    change (Qabs 0) with 0. nra. }
  assert (HpnaY : findPNA O [rev h] T 0 B vertical = cx).
  { apply findPNA_first. fold cx.
    unfold convergedAt, areaBelowAt, halfArea, computeAreaOneSide.
    cbn [fold_left]. apply Qlt_bool_intro.
    rewrite Abv, abv. subst T. rewrite HT.
    setoid_replace ((cx - 0) * (H - 0) - (cx - t) * (H - t - t)
                    - (B * H - (B - 2 * t) * (H - 2 * t)) / 2)
      with 0 by (subst cx; field).
    change (Qabs 0) with 0. nra. }
  rewrite HpnaX, HpnaY. cbn [pnaX pnaY Zx Zy].
  split; [reflexivity|]. split; [reflexivity|].
  unfold computePlasticModulus. cbn [fold_left].
  rewrite !firstMoment_polygon
    by (apply area_long;
        rewrite ?Abh, ?Aah, ?Abv, ?Aav, ?abh, ?aah, ?abv, ?aav; nra).
  rewrite Abh, Aah, Abv, Aav, abh, aah, abv, aav.
  set (Ya := y (polygonCentroid (clipPolygon O cy horizontal above))) in *.
  set (Yb := y (polygonCentroid (clipPolygon O cy horizontal below))) in *.
  set (Xa := x (polygonCentroid (clipPolygon O cx vertical above))) in *.
  set (Xb := x (polygonCentroid (clipPolygon O cx vertical below))) in *.
  set (ya := y (polygonCentroid (clipPolygon (rev h) cy horizontal above))) in *.
  set (yb := y (polygonCentroid (clipPolygon (rev h) cy horizontal below))) in *.
  set (xa := x (polygonCentroid (clipPolygon (rev h) cx vertical above))) in *.
  set (xb := x (polygonCentroid (clipPolygon (rev h) cx vertical below))) in *.
  setoid_replace Ya with ((cy + H) / 2) by (rewrite <- Cah; field).
  setoid_replace Yb with ((0 + cy) / 2) by (rewrite <- Cbh; field).
  setoid_replace Xa with ((cx + B) / 2) by (rewrite <- Cav; field).
  setoid_replace Xb with ((0 + cx) / 2) by (rewrite <- Cbv; field).
  setoid_replace ya with ((cy + (H - t)) / 2) by (rewrite <- cah; field).
  setoid_replace yb with ((t + cy) / 2) by (rewrite <- cbh; field).
  setoid_replace xa with ((cx + (B - t)) / 2) by (rewrite <- cav; field).
  setoid_replace xb with ((t + cx) / 2) by (rewrite <- cbv; field).
  setoid_replace cy with (H / 2) by (subst cy; field).
  setoid_replace cx with (B / 2) by (subst cx; field).
  split.
  - setoid_replace ((B - 0) * (H - H / 2) * ((H / 2 + H) / 2 - H / 2)
                    - (B - t - t) * (H - t - H / 2)
                      * ((H / 2 + (H - t)) / 2 - H / 2))
      with ((B * H ^ 2 - (B - 2 * t) * (H - 2 * t) ^ 2) / 8) by field.
    setoid_replace ((B - 0) * (H / 2 - 0) * ((0 + H / 2) / 2 - H / 2)
                    - (B - t - t) * (H / 2 - t) * ((t + H / 2) / 2 - H / 2))
      with (- ((B * H ^ 2 - (B - 2 * t) * (H - 2 * t) ^ 2) / 8)) by field.
    rewrite Qabs_opp.
    rewrite Qabs_pos; [field|].
    apply Qle_shift_div_l; [lra|].
    assert (0 < B - 2 * t) by lra. assert (0 < H - 2 * t) by lra.
    assert ((H - 2 * t) ^ 2 <= H ^ 2) by nra.
    nra.
  - setoid_replace ((B - B / 2) * (H - 0) * ((B / 2 + B) / 2 - B / 2)
                    - (B - t - B / 2) * (H - t - t)
                      * ((B / 2 + (B - t)) / 2 - B / 2))
      with ((H * B ^ 2 - (H - 2 * t) * (B - 2 * t) ^ 2) / 8) by field.
    setoid_replace ((B / 2 - 0) * (H - 0) * ((0 + B / 2) / 2 - B / 2)
                    - (B / 2 - t) * (H - t - t) * ((t + B / 2) / 2 - B / 2))
      with (- ((H * B ^ 2 - (H - 2 * t) * (B - 2 * t) ^ 2) / 8)) by field.
    rewrite Qabs_opp.
    rewrite Qabs_pos; [field|].
    apply Qle_shift_div_l; [lra|].
    assert (0 < B - 2 * t) by lra. assert (0 < H - 2 * t) by lra.
    assert ((B - 2 * t) ^ 2 <= B ^ 2) by nra.
    nra.
Qed.

End HollowRectangleEngines.

(** The hollow-rectangle template with its parameters in the declared
    ranges: the wall used is [t], cut down to [min(B, H) / 2 - 0.01] when
    it is larger; it is at least 1/16 and leaves a hole at least 0.02
    wide and high, and the generated section is the hollow rectangle
    with that wall.  With [b = B - 2 t] and [h = H - 2 t] the engines
    return the area [B H - b h], the centroid and both neutral axes
    through the centre, [Ix = (B H^3 - b h^3) / 12],
    [Iy = (H B^3 - h b^3) / 12], the elastic moduli [Ix / (H / 2)] and
    [Iy / (B / 2)], and the plastic moduli [(B H^2 - b h^2) / 4] and
    [(H B^2 - h b^2) / 4].  The product of inertia they return is
    [B H b h / 2] and not 0: the hole is made clockwise, where
    [polygonIxyOrigin] has the opposite sign, and that signed value is
    subtracted. *)
Theorem hollow_rectangle_template_properties
        (Math_sqrt : Q -> Q) (Math_atan2 : Q -> Q -> Q)
        (params : String.string -> Q) :
  inRange ShapeTemplates.hollowRectangleTemplate params ->
  let B := params "B"%string in
  let H := params "H"%string in
  let t := Qmin (params "t"%string) (Qmin B H / 2 - (1 # 100)) in
  let b := B - 2 * t in
  let h := H - 2 * t in
  let s := ShapeTemplates.generateGeometry
             ShapeTemplates.hollowRectangleTemplate params in
  let p := computeSectionProperties Math_sqrt Math_atan2 s in
  s = hollowRect B H t /\
  1 # 16 <= t /\ 1 # 50 <= b /\ 1 # 50 <= h /\
  area (elastic p) == B * H - b * h /\
  centroidX (elastic p) == B / 2 /\
  centroidY (elastic p) == H / 2 /\
  Ix (elastic p) == (B * H ^ 3 - b * h ^ 3) / 12 /\
  Iy (elastic p) == (H * B ^ 3 - h * b ^ 3) / 12 /\
  Ixy (elastic p) == B * H * b * h / 2 /\
  Sx_top (elastic p) == (B * H ^ 3 - b * h ^ 3) / (6 * H) /\
  Sx_bot (elastic p) == (B * H ^ 3 - b * h ^ 3) / (6 * H) /\
  Sy_left (elastic p) == (H * B ^ 3 - h * b ^ 3) / (6 * B) /\
  Sy_right (elastic p) == (H * B ^ 3 - h * b ^ 3) / (6 * B) /\
  pnaX (plastic p) == H / 2 /\
  pnaY (plastic p) == B / 2 /\
  Zx (plastic p) == (B * H ^ 2 - b * h ^ 2) / 4 /\
  Zy (plastic p) == (H * B ^ 2 - h * b ^ 2) / 4.
Proof.
  intros Hr B H t b h s p.
  unfold inRange in Hr. cbn [ShapeTemplates.hollowRectangleTemplate
                             ShapeTemplates.parameters] in Hr.
  inversion Hr as [|pB l1 [HB1 HB2] Hr1]; subst pB l1.
  inversion Hr1 as [|pH l2 [HH1 HH2] Hr2]; subst pH l2.
  inversion Hr2 as [|pt l3 [Ht1 Ht2] _]; subst pt l3.
  cbn [ShapeTemplates.key ShapeTemplates.min ShapeTemplates.max] in *.
  fold B in HB1, HB2. fold H in HH1, HH2.
  set (t0 := params "t"%string) in *.
  set (m := Qmin B H / 2 - (1 # 100)) in *.
  assert (Hm : 2 * (m + (1 # 100)) == Qmin B H) by (subst m; field).
  pose proof (Q.le_min_l B H) as HmB. pose proof (Q.le_min_r B H) as HmH.
  assert (HmLow : 1 # 2 <= Qmin B H) by (apply Q.min_glb; assumption).
  assert (Ht : 1 # 16 <= t) by (subst t; apply Q.min_glb; lra).
  pose proof (Q.le_min_r t0 m) as Htm. fold t in Htm.
  assert (Hb : 1 # 50 <= b) by (subst b; lra).
  assert (Hh : 1 # 50 <= h) by (subst h; lra).
  assert (Hs : s = hollowRect B H t) by reflexivity.
  split; [exact Hs|]. split; [exact Ht|]. split; [exact Hb|].
  split; [exact Hh|].
  pose proof (hollow_elastic B H t ltac:(lra) ltac:(unfold b in Hb; lra)
                ltac:(unfold h in Hh; lra) Math_sqrt Math_atan2) as He.
  pose proof (hollow_plastic B H t ltac:(lra) ltac:(unfold b in Hb; lra)
                ltac:(unfold h in Hh; lra)) as Hp.
  cbv zeta in He, Hp. subst p. rewrite Hs.
  cbn [computeSectionProperties elastic plastic].
  destruct He as (H1 & H2 & H3 & H4 & H5 & H6 & H7 & H8 & H9 & H10).
  destruct Hp as (H11 & H12 & H13 & H14).
  rewrite H1, H2, H3, H4, H5, H6, H7, H8, H9, H10, H11, H12, H13, H14.
  subst b h.
  repeat (split; [reflexivity|]).
  split; [field|]. split; [field|]. split; reflexivity.
Qed.

Lemma hollow_rectangle_template_properties_witness :
  inRange ShapeTemplates.hollowRectangleTemplate (params_B_H_t 8 10 6) /\
  ShapeTemplates.generateGeometry ShapeTemplates.hollowRectangleTemplate
                                  (params_B_H_t 8 10 6)
  = hollowRect (params_B_H_t 8 10 6 "B"%string)
               (params_B_H_t 8 10 6 "H"%string)
               (Qmin (params_B_H_t 8 10 6 "t"%string)
                     (Qmin (params_B_H_t 8 10 6 "B"%string)
                           (params_B_H_t 8 10 6 "H"%string) / 2
                      - (1 # 100))).
Proof.
  assert (H : inRange ShapeTemplates.hollowRectangleTemplate
                      (params_B_H_t 8 10 6)).
  { unfold inRange. cbn [ShapeTemplates.hollowRectangleTemplate
                         ShapeTemplates.parameters].
    repeat constructor; vm_compute; discriminate. }
  split; [exact H|].
  apply (hollow_rectangle_template_properties floor_sqrt no_atan2
           (params_B_H_t 8 10 6) H).
Defined.

(** *** The wide flange *)



Section WideFlange.
Variables d bf tf wl wr : Q.
Hypothesis flange : 1 # 100000 <= tf.
Hypothesis clear : 1 # 100000 <= d - 2 * tf.
Hypothesis overhang : 1 # 100000 <= wl.
Hypothesis web : 1 # 100000 <= wr - wl.
Hypothesis centred : wl + wr == bf.

Lemma wideFlange_signedArea :
  signedPolygonArea (wideFlange d bf tf wl wr)
  == 2 * bf * tf + (wr - wl) * (d - 2 * tf).
Proof.
  pose proof centred as Hc. unfold wideFlange. explicit_sums.
  setoid_replace bf with (wl + wr) by lra. field.
Qed.

Lemma wideFlange_area_positive :
  1 # 10000000000 <= 2 * bf * tf + (wr - wl) * (d - 2 * tf).
Proof.
  pose proof flange. pose proof clear. pose proof overhang. pose proof web.
  pose proof centred. nra.
Qed.

Lemma wideFlange_area :
  polygonArea (wideFlange d bf tf wl wr)
  == 2 * bf * tf + (wr - wl) * (d - 2 * tf).
Proof.
  unfold polygonArea. rewrite wideFlange_signedArea.
  apply Qabs_pos. pose proof wideFlange_area_positive. lra.
Qed.

Lemma wideFlange_centroid :
  2 * x (polygonCentroid (wideFlange d bf tf wl wr)) == bf /\
  2 * y (polygonCentroid (wideFlange d bf tf wl wr)) == d.
Proof.
  pose proof wideFlange_area_positive as Hpos.
  assert (Ha : eps12 <= polygonArea (wideFlange d bf tf wl wr))
    by (rewrite wideFlange_area; lra).
  destruct (polygonCentroid_closed _ Ha) as [Hx Hy].
  rewrite Hx, Hy, wideFlange_signedArea.
  pose proof centred as Hc.
  unfold wideFlange. explicit_sums.
  split; setoid_replace bf with (wl + wr) by lra; field;
    intros E; nra.
Qed.

Lemma wideFlange_moments :
  polygonIxOrigin (wideFlange d bf tf wl wr)
  == (bf * d ^ 3 - (bf - (wr - wl)) * (d - 2 * tf) ^ 3) / 12
     + (2 * bf * tf + (wr - wl) * (d - 2 * tf)) * (d / 2) ^ 2 /\
  polygonIyOrigin (wideFlange d bf tf wl wr)
  == (2 * tf * bf ^ 3 + (d - 2 * tf) * (wr - wl) ^ 3) / 12
     + (2 * bf * tf + (wr - wl) * (d - 2 * tf)) * (bf / 2) ^ 2 /\
  polygonIxyOrigin (wideFlange d bf tf wl wr)
  == (2 * bf * tf + (wr - wl) * (d - 2 * tf)) * (bf / 2) * (d / 2).
Proof.
  pose proof centred as Hc. unfold wideFlange.
  split; [|split]; explicit_sums;
    setoid_replace bf with (wl + wr) by lra; field.
Qed.

End WideFlange.

Section WideFlangeElastic.
Variables d bf tf wl wr : Q.
Hypothesis flange : 1 # 100000 <= tf.
Hypothesis clear : 1 # 100000 <= d - 2 * tf.
Hypothesis overhang : 1 # 100000 <= wl.
Hypothesis web : 1 # 100000 <= wr - wl.
Hypothesis centred : wl + wr == bf.

Lemma wideFlange_centroidal_nonneg :
  0 <= (bf * d ^ 3 - (bf - (wr - wl)) * (d - 2 * tf) ^ 3) / 12 /\
  0 <= (2 * tf * bf ^ 3 + (d - 2 * tf) * (wr - wl) ^ 3) / 12.
Proof.
  pose proof flange as Hf. pose proof clear as Hcl.
  pose proof overhang as Ho. pose proof web as Hw. pose proof centred as Hc.
  assert (cube : forall a, 0 <= a -> 0 <= a ^ 3).
  { intros a Ha. setoid_replace (a ^ 3) with (a * a ^ 2) by ring.
    apply Qmult_le_0_compat; nra. }
  assert (P2 : (d - 2 * tf) ^ 3 <= d ^ 3).
  { assert (E : d ^ 3 - (d - 2 * tf) ^ 3
                == 2 * tf * (d ^ 2 + d * (d - 2 * tf) + (d - 2 * tf) ^ 2))
      by ring.
    assert (0 <= 2 * tf * (d ^ 2 + d * (d - 2 * tf) + (d - 2 * tf) ^ 2))
      by (apply Qmult_le_0_compat; nra).
    lra. }
  pose proof (cube (d - 2 * tf) ltac:(lra)) as P3.
  pose proof (cube (wr - wl) ltac:(lra)) as P4.
  pose proof (cube bf ltac:(lra)) as P5.
  assert (P6 : 0 <= (bf - (wr - wl)) * (d ^ 3 - (d - 2 * tf) ^ 3))
    by (apply Qmult_le_0_compat; lra).
  pose proof (cube d ltac:(lra)) as P0.
  assert (P7 : 0 <= (wr - wl) * d ^ 3)
    by (apply Qmult_le_0_compat; lra).
  assert (P8 : 0 <= tf * bf ^ 3) by (apply Qmult_le_0_compat; lra).
  assert (P9 : 0 <= (d - 2 * tf) * (wr - wl) ^ 3)
    by (apply Qmult_le_0_compat; lra).
  split; apply Qle_shift_div_l; try lra.
Qed.

Lemma wideFlange_composite :
  let cmp := composite (wideFlange d bf tf wl wr) [] in
  c_area cmp == 2 * bf * tf + (wr - wl) * (d - 2 * tf) /\
  2 * c_centroidX cmp == bf /\
  2 * c_centroidY cmp == d /\
  c_Ix cmp == (bf * d ^ 3 - (bf - (wr - wl)) * (d - 2 * tf) ^ 3) / 12 /\
  c_Iy cmp == (2 * tf * bf ^ 3 + (d - 2 * tf) * (wr - wl) ^ 3) / 12 /\
  c_Ixy cmp == 0.
Proof.
  cbv zeta. unfold composite.
  cbn [map combine fold_left c_area c_centroidX c_centroidY c_Ix c_Iy c_Ixy].
  pose proof (wideFlange_area d bf tf wl wr flange clear overhang web centred)
    as Ha.
  destruct (wideFlange_centroid d bf tf wl wr flange clear overhang web
              centred) as [Hcx Hcy].
  destruct (wideFlange_moments d bf tf wl wr centred) as (Hix & Hiy & Hixy).
  pose proof (wideFlange_area_positive d bf tf wl wr flange clear overhang
                web centred) as Hpos.
  destruct wideFlange_centroidal_nonneg as [Nx Ny].
  set (W := wideFlange d bf tf wl wr) in *.
  set (A := 2 * bf * tf + (wr - wl) * (d - 2 * tf)) in *.
  set (ix := (bf * d ^ 3 - (bf - (wr - wl)) * (d - 2 * tf) ^ 3) / 12) in *.
  set (iy := (2 * tf * bf ^ 3 + (d - 2 * tf) * (wr - wl) ^ 3) / 12) in *.
  clearbody W A ix iy.
  assert (Hx : x (polygonCentroid W) == bf / 2)
    by (apply (Qmult_inj_l _ _ 2); [lra | rewrite Hcx; field]).
  assert (Hy : y (polygonCentroid W) == d / 2)
    by (apply (Qmult_inj_l _ _ 2); [lra | rewrite Hcy; field]).
  assert (Sx : 0 <= A * (d / 2) ^ 2).
  { apply Qmult_le_0_compat; [lra|]. apply Qsqr_nonneg. }
  assert (Sy : 0 <= A * (bf / 2) ^ 2).
  { apply Qmult_le_0_compat; [lra|]. apply Qsqr_nonneg. }
  rewrite Hx, Hy, Hix, Hiy, Hixy, Ha.
  rewrite (Qabs_pos (ix + _)) by lra.
  rewrite (Qabs_pos (iy + _)) by lra.
  assert (An : ~ A == 0) by lra.
  split; [ring|].
  split; [field; lra|]. split; [field; lra|].
  split; [field; lra|]. split; [field; lra|]. field; lra.
Qed.

Lemma wideFlange_elastic (Math_sqrt : Q -> Q) (Math_atan2 : Q -> Q -> Q) :
  let e := computeElasticProperties Math_sqrt Math_atan2
             {| outerBoundary := wideFlange d bf tf wl wr; holes := [] |} in
  let tw := wr - wl in
  area e == 2 * bf * tf + tw * (d - 2 * tf) /\
  centroidX e == bf / 2 /\
  centroidY e == d / 2 /\
  Ix e == (bf * d ^ 3 - (bf - tw) * (d - 2 * tf) ^ 3) / 12 /\
  Iy e == (2 * tf * bf ^ 3 + (d - 2 * tf) * tw ^ 3) / 12 /\
  Ixy e == 0 /\
  Sx_top e == (bf * d ^ 3 - (bf - tw) * (d - 2 * tf) ^ 3) / (6 * d) /\
  Sx_bot e == (bf * d ^ 3 - (bf - tw) * (d - 2 * tf) ^ 3) / (6 * d) /\
  Sy_left e == (2 * tf * bf ^ 3 + (d - 2 * tf) * tw ^ 3) / (6 * bf) /\
  Sy_right e == (2 * tf * bf ^ 3 + (d - 2 * tf) * tw ^ 3) / (6 * bf) /\
  theta_principal e = 0.
Proof.
  pose proof flange as Hf. pose proof clear as Hcl.
  pose proof overhang as Ho. pose proof web as Hw. pose proof centred as Hc.
  destruct wideFlange_composite as (Harea & HcX & HcY & HIx & HIy & HIxy).
  cbv zeta in Harea, HcX, HcY, HIx, HIy, HIxy.
  pose proof (wideFlange_area_positive d bf tf wl wr flange clear overhang
                web centred) as Hpos.
  cbv zeta. unfold computeElasticProperties.
  cbn [outerBoundary holes map].
  assert (Hccw : ensureCCW (wideFlange d bf tf wl wr)
                 = wideFlange d bf tf wl wr).
  { unfold ensureCCW. rewrite Qlt_bool_elim_false; [reflexivity|].
    rewrite (wideFlange_signedArea d bf tf wl wr centred). lra. }
  rewrite Hccw. unfold elasticOfNormalised.
  assert (Hnet : elasticNetArea (wideFlange d bf tf wl wr) []
                 == 2 * bf * tf + (wr - wl) * (d - 2 * tf)).
  { unfold elasticNetArea. cbn [map fold_left].
    rewrite (wideFlange_area d bf tf wl wr flange clear overhang web centred).
    ring. }
  rewrite Qlt_bool_elim_false by (rewrite Hnet; lra).
  set (cmp := composite _ _) in *.
  assert (Hext : extremeFibers (c_centroidX cmp) (c_centroidY cmp)
                   (concat [wideFlange d bf tf wl wr])
                 = (Finite (d - c_centroidY cmp), Finite (0 - c_centroidY cmp),
                    Finite (bf - c_centroidX cmp),
                    Finite (0 - c_centroidX cmp))).
  { unfold extremeFibers, wideFlange.
    cbn [concat app fold_left ext_ltb x y]. decide_lt. reflexivity. }
  rewrite Hext.
  cbn [area centroidX centroidY Ix Iy Ixy Sx_top Sx_bot Sy_left Sy_right
       theta_principal].
  rewrite !sectionModulus_finite by (first [left; lra|right; lra]).
  rewrite (Qlt_bool_elim_false eps12 (Qabs (c_Ixy cmp)))
    by (rewrite HIxy; cbn; lra).
  rewrite (Qabs_pos (d - c_centroidY cmp)) by lra.
  rewrite (Qabs_neg (0 - c_centroidY cmp)) by lra.
  rewrite (Qabs_pos (bf - c_centroidX cmp)) by lra.
  rewrite (Qabs_neg (0 - c_centroidX cmp)) by lra.
  setoid_replace (c_centroidX cmp) with (bf / 2) by (rewrite <- HcX; field).
  setoid_replace (c_centroidY cmp) with (d / 2) by (rewrite <- HcY; field).
  rewrite Hnet, HIx, HIy, HIxy.
  split; [reflexivity|]. split; [reflexivity|]. split; [reflexivity|].
  split; [reflexivity|]. split; [reflexivity|]. split; [reflexivity|].
  split; [field; lra|]. split; [field; lra|].
  split; [field; lra|]. split; [field; lra|]. reflexivity.
Qed.

End WideFlangeElastic.

Ltac nonzero_conditions :=
  repeat (match goal with |- _ /\ _ => split end);
  first [lra | let E := fresh "E" in intros E; nra].

Section WideFlangeFragments.
Variables d bf tf wl wr c : Q.
Hypothesis flange : 1 # 100000 <= tf.
Hypothesis clear : 1 # 100000 <= d - 2 * tf.
Hypothesis overhang : 1 # 100000 <= wl.
Hypothesis web : 1 # 100000 <= wr - wl.
Hypothesis centred : wl + wr == bf.

(** A horizontal cut through the web. *)
Lemma wideFlange_below_horizontal :
  tf < c -> c < d - tf ->
  let F := clipPolygon (wideFlange d bf tf wl wr) c horizontal below in
  polygonArea F == bf * tf + (wr - wl) * (c - tf) /\
  polygonArea F * y (polygonCentroid F)
  == bf * tf ^ 2 / 2 + (wr - wl) * (c ^ 2 - tf ^ 2) / 2.
Proof.
  intros H0 H1. cbv zeta.
  pose proof flange as Hf. pose proof clear as Hcl.
  pose proof overhang as Ho. pose proof web as Hw. pose proof centred as Hc.
  unfold wideFlange. explicit_clip.
  rewrite !intersect_horizontal by (cbn [x y]; first [left; lra|right; lra]).
  cbn [x y].
  set (F := [_; _; _; _; _; _; _; _]).
  assert (Hs : signedPolygonArea F == bf * tf + (wr - wl) * (c - tf))
    by (subst F; explicit_sums; setoid_replace bf with (wl + wr) by lra;
        field; lra).
  assert (Hpos : 1 # 10000000000 <= bf * tf + (wr - wl) * (c - tf)) by nra.
  assert (Ha : polygonArea F == bf * tf + (wr - wl) * (c - tf))
    by (unfold polygonArea; rewrite Hs; apply Qabs_pos; lra).
  split; [exact Ha|].
  destruct (polygonCentroid_closed F ltac:(rewrite Ha; lra)) as [_ Hy].
  rewrite Hy, Hs, Ha. subst F. explicit_sums.
  setoid_replace bf with (wl + wr) by lra. field.
  nonzero_conditions.
Qed.

Lemma wideFlange_above_horizontal :
  tf < c -> c < d - tf ->
  let F := clipPolygon (wideFlange d bf tf wl wr) c horizontal above in
  polygonArea F == bf * tf + (wr - wl) * (d - tf - c) /\
  polygonArea F * y (polygonCentroid F)
  == bf * tf * (d - tf / 2) + (wr - wl) * ((d - tf) ^ 2 - c ^ 2) / 2.
Proof.
  intros H0 H1. cbv zeta.
  pose proof flange as Hf. pose proof clear as Hcl.
  pose proof overhang as Ho. pose proof web as Hw. pose proof centred as Hc.
  unfold wideFlange. explicit_clip.
  rewrite !intersect_horizontal by (cbn [x y]; first [left; lra|right; lra]).
  cbn [x y].
  set (F := [_; _; _; _; _; _; _; _]).
  assert (Hs : signedPolygonArea F == bf * tf + (wr - wl) * (d - tf - c))
    by (subst F; explicit_sums; setoid_replace bf with (wl + wr) by lra;
        field; lra).
  assert (Hpos : 1 # 10000000000 <= bf * tf + (wr - wl) * (d - tf - c))
    by nra.
  assert (Ha : polygonArea F == bf * tf + (wr - wl) * (d - tf - c))
    by (unfold polygonArea; rewrite Hs; apply Qabs_pos; lra).
  split; [exact Ha|].
  destruct (polygonCentroid_closed F ltac:(rewrite Ha; lra)) as [_ Hy].
  rewrite Hy, Hs, Ha. subst F. explicit_sums.
  setoid_replace bf with (wl + wr) by lra. field.
  nonzero_conditions.
Qed.

(** A vertical cut through the web. *)
Lemma wideFlange_below_vertical :
  wl < c -> c < wr ->
  let F := clipPolygon (wideFlange d bf tf wl wr) c vertical below in
  polygonArea F == c * d - wl * (d - 2 * tf) /\
  polygonArea F * x (polygonCentroid F)
  == d * c ^ 2 / 2 - (d - 2 * tf) * wl ^ 2 / 2.
Proof.
  intros H0 H1. cbv zeta.
  pose proof flange as Hf. pose proof clear as Hcl.
  pose proof overhang as Ho. pose proof web as Hw. pose proof centred as Hc.
  unfold wideFlange. explicit_clip.
  rewrite !intersect_vertical by (cbn [x y]; first [left; lra|right; lra]).
  cbn [x y].
  set (F := [_; _; _; _; _; _; _; _]).
  assert (Hs : signedPolygonArea F == c * d - wl * (d - 2 * tf))
    by (subst F; explicit_sums; field; lra).
  assert (Hpos : 1 # 10000000000 <= c * d - wl * (d - 2 * tf)) by nra.
  assert (Ha : polygonArea F == c * d - wl * (d - 2 * tf))
    by (unfold polygonArea; rewrite Hs; apply Qabs_pos; lra).
  split; [exact Ha|].
  destruct (polygonCentroid_closed F ltac:(rewrite Ha; lra)) as [Hx _].
  rewrite Hx, Hs, Ha. subst F. explicit_sums. field.
  nonzero_conditions.
Qed.

Lemma wideFlange_above_vertical :
  wl < c -> c < wr ->
  let F := clipPolygon (wideFlange d bf tf wl wr) c vertical above in
  polygonArea F == (bf - c) * d - (bf - wr) * (d - 2 * tf) /\
  polygonArea F * x (polygonCentroid F)
  == d * (bf ^ 2 - c ^ 2) / 2 - (d - 2 * tf) * (bf ^ 2 - wr ^ 2) / 2.
Proof.
  intros H0 H1. cbv zeta.
  pose proof flange as Hf. pose proof clear as Hcl.
  pose proof overhang as Ho. pose proof web as Hw. pose proof centred as Hc.
  unfold wideFlange. explicit_clip.
  rewrite !intersect_vertical by (cbn [x y]; first [left; lra|right; lra]).
  cbn [x y].
  set (F := [_; _; _; _; _; _; _; _]).
  assert (Hs : signedPolygonArea F
               == (bf - c) * d - (bf - wr) * (d - 2 * tf))
    by (subst F; explicit_sums; field; lra).
  assert (Hpos : 1 # 10000000000
                 <= (bf - c) * d - (bf - wr) * (d - 2 * tf)) by nra.
  assert (Ha : polygonArea F == (bf - c) * d - (bf - wr) * (d - 2 * tf))
    by (unfold polygonArea; rewrite Hs; apply Qabs_pos; lra).
  split; [exact Ha|].
  destruct (polygonCentroid_closed F ltac:(rewrite Ha; lra)) as [Hx _].
  rewrite Hx, Hs, Ha. subst F. explicit_sums. field.
  nonzero_conditions.
Qed.

End WideFlangeFragments.

(** The plastic modulus of a solid outline is the sum of the magnitudes
    of the first moments of its two fragments about the axis. *)
Lemma computePlasticModulus_solid (W : list Point) (c : Q) (dir : Direction) :
  (3 <= length (clipPolygon W c dir above))%nat ->
  (3 <= length (clipPolygon W c dir below))%nat ->
  computePlasticModulus W [] c dir
  = Qabs (polygonArea (clipPolygon W c dir above)
          * (coord dir (polygonCentroid (clipPolygon W c dir above)) - c))
    + Qabs (polygonArea (clipPolygon W c dir below)
            * (coord dir (polygonCentroid (clipPolygon W c dir below)) - c)).
Proof.
  intros Ha Hb. unfold computePlasticModulus. cbn [fold_left].
  rewrite !firstMoment_polygon by assumption.
  destruct dir; reflexivity.
Qed.

(** Two fragments of areas [aa] and [ab] with first moments [qa] and [qb]
    about the origin of the cut coordinate, whose first moments about
    the cut at [c] are [z / 2] and [- z / 2]. *)
Lemma plastic_sum (aa ma ab mb c qa qb ea eb z : Q) :
  aa == ea -> aa * ma == qa -> ab == eb -> ab * mb == qb ->
  0 <= z ->
  qa - ea * c == z / 2 ->
  qb - eb * c == - (z / 2) ->
  Qabs (aa * (ma - c)) + Qabs (ab * (mb - c)) == z.
Proof.
  intros Ea Qa Eb Qb Hz Ha Hb.
  setoid_replace (aa * (ma - c)) with (aa * ma - aa * c) by ring.
  setoid_replace (ab * (mb - c)) with (ab * mb - ab * c) by ring.
  rewrite Qa, Qb, Ea, Eb, Ha, Hb.
  rewrite Qabs_opp, Qabs_pos; [field|].
  apply Qle_shift_div_l; lra.
Qed.

Lemma wideFlange_Zx_nonneg (d bf tf wl wr : Q) :
  0 <= tf -> 0 <= d - 2 * tf -> 0 <= wl -> 0 <= wr - wl -> 0 <= bf ->
  0 <= bf * tf * (d - tf) + (wr - wl) * (d - 2 * tf) ^ 2 / 4.
Proof.
  intros.
  assert (0 <= bf * tf * (d - tf))
    by (apply Qmult_le_0_compat; [apply Qmult_le_0_compat|]; lra).
  assert (0 <= (wr - wl) * (d - 2 * tf) ^ 2)
    by (apply Qmult_le_0_compat; [lra | apply Qsqr_nonneg]).
  assert (0 <= (wr - wl) * (d - 2 * tf) ^ 2 / 4)
    by (apply Qle_shift_div_l; lra).
  lra.
Qed.

Lemma wideFlange_Zy_nonneg (d bf tf wl wr : Q) :
  0 <= tf -> 0 <= d - 2 * tf -> 0 <= wl -> 0 <= wr - wl -> 0 <= bf ->
  0 <= tf * bf ^ 2 / 2 + (d - 2 * tf) * (wr - wl) ^ 2 / 4.
Proof.
  intros.
  assert (0 <= tf * bf ^ 2)
    by (apply Qmult_le_0_compat; [lra | apply Qsqr_nonneg]).
  assert (0 <= (d - 2 * tf) * (wr - wl) ^ 2)
    by (apply Qmult_le_0_compat; [lra | apply Qsqr_nonneg]).
  assert (0 <= tf * bf ^ 2 / 2) by (apply Qle_shift_div_l; lra).
  assert (0 <= (d - 2 * tf) * (wr - wl) ^ 2 / 4)
    by (apply Qle_shift_div_l; lra).
  lra.
Qed.

Section WideFlangePlastic.
Variables d bf tf wl wr : Q.
Hypothesis flange : 1 # 100000 <= tf.
Hypothesis clear : 1 # 100000 <= d - 2 * tf.
Hypothesis overhang : 1 # 100000 <= wl.
Hypothesis web : 1 # 100000 <= wr - wl.
Hypothesis centred : wl + wr == bf.

Lemma wideFlange_pna :
  let W := wideFlange d bf tf wl wr in
  findPNA W [] (polygonArea W) 0 d horizontal = (0 + d) / 2 /\
  findPNA W [] (polygonArea W) 0 bf vertical = (0 + bf) / 2.
Proof.
  pose proof flange as Hf. pose proof clear as Hcl.
  pose proof overhang as Ho. pose proof web as Hw. pose proof centred as Hc.
  pose proof (wideFlange_area d bf tf wl wr flange clear overhang web centred)
    as HT.
  cbv zeta.
  set (cy := (0 + d) / 2). set (cx := (0 + bf) / 2).
  assert (Hcy : 2 * cy == d) by (subst cy; field).
  assert (Hcx : 2 * cx == bf) by (subst cx; field).
  destruct (wideFlange_below_horizontal d bf tf wl wr cy flange clear overhang
              web centred ltac:(lra) ltac:(lra)) as [Abh _].
  destruct (wideFlange_below_vertical d bf tf wl wr cx flange clear overhang
              web centred ltac:(lra) ltac:(lra)) as [Abv _].
  cbv zeta in Abh, Abv.
  split.
  - apply findPNA_first. fold cy.
    unfold convergedAt, areaBelowAt, halfArea, computeAreaOneSide.
    cbn [fold_left]. apply Qlt_bool_intro.
    rewrite Abh, HT.
    setoid_replace (bf * tf + (wr - wl) * (cy - tf)
                    - (2 * bf * tf + (wr - wl) * (d - 2 * tf)) / 2)
      with 0 by (subst cy; field).
    change (Qabs 0) with 0. nra.
  - apply findPNA_first. fold cx.
    unfold convergedAt, areaBelowAt, halfArea, computeAreaOneSide.
    cbn [fold_left]. apply Qlt_bool_intro.
    rewrite Abv, HT.
    setoid_replace (cx * d - wl * (d - 2 * tf)
                    - (2 * bf * tf + (wr - wl) * (d - 2 * tf)) / 2)
      with 0 by (subst cx; setoid_replace bf with (wl + wr) by lra; field).
    change (Qabs 0) with 0. nra.
Qed.

Lemma wideFlange_moduli :
  let W := wideFlange d bf tf wl wr in
  computePlasticModulus W [] ((0 + d) / 2) horizontal
  == bf * tf * (d - tf) + (wr - wl) * (d - 2 * tf) ^ 2 / 4 /\
  computePlasticModulus W [] ((0 + bf) / 2) vertical
  == tf * bf ^ 2 / 2 + (d - 2 * tf) * (wr - wl) ^ 2 / 4.
Proof.
  pose proof flange as Hf. pose proof clear as Hcl.
  pose proof overhang as Ho. pose proof web as Hw. pose proof centred as Hc.
  cbv zeta.
  assert (Hcy : 2 * ((0 + d) / 2) == d) by field.
  assert (Hcx : 2 * ((0 + bf) / 2) == bf) by field.
  destruct (wideFlange_below_horizontal d bf tf wl wr ((0 + d) / 2)
              flange clear overhang web centred ltac:(lra) ltac:(lra))
    as [Abh Qbh].
  destruct (wideFlange_above_horizontal d bf tf wl wr ((0 + d) / 2)
              flange clear overhang web centred ltac:(lra) ltac:(lra))
    as [Aah Qah].
  destruct (wideFlange_below_vertical d bf tf wl wr ((0 + bf) / 2)
              flange clear overhang web centred ltac:(lra) ltac:(lra))
    as [Abv Qbv].
  destruct (wideFlange_above_vertical d bf tf wl wr ((0 + bf) / 2)
              flange clear overhang web centred ltac:(lra) ltac:(lra))
    as [Aav Qav].
  cbv zeta in Abh, Qbh, Aah, Qah, Abv, Qbv, Aav, Qav.
  split.
  - rewrite computePlasticModulus_solid
      by (apply area_long; rewrite ?Abh, ?Aah; nra).
    cbn [coord].
    apply (plastic_sum _ _ _ _ _ _ _ _ _ _ Aah Qah Abh Qbh).
    + apply wideFlange_Zx_nonneg; lra.
    + field.
    + field.
  - rewrite computePlasticModulus_solid
      by (apply area_long; rewrite ?Abv, ?Aav; nra).
    cbn [coord].
    apply (plastic_sum _ _ _ _ _ _ _ _ _ _ Aav Qav Abv Qbv).
    + apply wideFlange_Zy_nonneg; lra.
    + setoid_replace bf with (wl + wr) by lra. field.
    + setoid_replace bf with (wl + wr) by lra. field.
Qed.

Lemma wideFlange_plastic :
  let p := computePlasticProperties
             {| outerBoundary := wideFlange d bf tf wl wr; holes := [] |} in
  let tw := wr - wl in
  pnaX p = (0 + d) / 2 /\
  pnaY p = (0 + bf) / 2 /\
  Zx p == bf * tf * (d - tf) + tw * (d - 2 * tf) ^ 2 / 4 /\
  Zy p == tf * bf ^ 2 / 2 + (d - 2 * tf) * tw ^ 2 / 4.
Proof.
  pose proof flange as Hf. pose proof clear as Hcl.
  pose proof overhang as Ho. pose proof web as Hw. pose proof centred as Hc.
  pose proof (wideFlange_area_positive d bf tf wl wr flange clear overhang
                web centred) as Hpos.
  pose proof (wideFlange_area d bf tf wl wr flange clear overhang web centred)
    as HT.
  destruct wideFlange_pna as [HpnaX HpnaY].
  destruct wideFlange_moduli as [HZx HZy].
  cbv zeta in HpnaX, HpnaY, HZx, HZy.
  cbv zeta. unfold computePlasticProperties.
  cbn [outerBoundary holes map].
  assert (Hccw : ensureCCW (wideFlange d bf tf wl wr)
                 = wideFlange d bf tf wl wr).
  { unfold ensureCCW. rewrite Qlt_bool_elim_false; [reflexivity|].
    rewrite (wideFlange_signedArea d bf tf wl wr centred). lra. }
  rewrite Hccw. unfold computeNetArea. cbn [fold_left].
  rewrite Qlt_bool_elim_false by (rewrite HT; lra).
  assert (Hbox : boundingBox (concat [wideFlange d bf tf wl wr])
                 = (Finite 0, Finite d, Finite 0, Finite bf)).
  { unfold boundingBox, wideFlange.
    cbn [concat app fold_left boundingStep ext_ltb x y].
    decide_lt. reflexivity. }
  rewrite Hbox, HpnaX, HpnaY. cbn [pnaX pnaY Zx Zy].
  split; [reflexivity|]. split; [reflexivity|].
  split; [exact HZx|exact HZy].
Qed.

End WideFlangePlastic.

(** The wide-flange template with its parameters in the declared ranges,
    the flanges not meeting ([d - 2 tf >= 1e-5]) and the web narrower
    than the flanges ([bf - tw >= 2e-5]): the engines return the area
    [2 bf tf + tw (d - 2 tf)], the centroid and both neutral axes through
    the centre, [Ix = (bf d^3 - (bf - tw) (d - 2 tf)^3) / 12],
    [Iy = (2 tf bf^3 + (d - 2 tf) tw^3) / 12], [Ixy = 0], the elastic
    moduli [Ix / (d / 2)] and [Iy / (bf / 2)], and the plastic moduli
    [Zx = bf tf (d - tf) + tw (d - 2 tf)^2 / 4] and
    [Zy = tf bf^2 / 2 + (d - 2 tf) tw^2 / 4]. *)
Theorem wide_flange_template_properties
        (Math_sqrt : Q -> Q) (Math_atan2 : Q -> Q -> Q)
        (params : String.string -> Q) :
  inRange ShapeTemplates.wideFlangeTemplate params ->
  let d := params "d"%string in
  let bf := params "bf"%string in
  let tf := params "tf"%string in
  let tw := params "tw"%string in
  1 # 100000 <= d - 2 * tf ->
  1 # 50000 <= bf - tw ->
  let p := computeSectionProperties Math_sqrt Math_atan2
             (ShapeTemplates.generateGeometry
                ShapeTemplates.wideFlangeTemplate params) in
  area (elastic p) == 2 * bf * tf + tw * (d - 2 * tf) /\
  centroidX (elastic p) == bf / 2 /\
  centroidY (elastic p) == d / 2 /\
  Ix (elastic p) == (bf * d ^ 3 - (bf - tw) * (d - 2 * tf) ^ 3) / 12 /\
  Iy (elastic p) == (2 * tf * bf ^ 3 + (d - 2 * tf) * tw ^ 3) / 12 /\
  Ixy (elastic p) == 0 /\
  Sx_top (elastic p)
  == (bf * d ^ 3 - (bf - tw) * (d - 2 * tf) ^ 3) / (6 * d) /\
  Sx_bot (elastic p)
  == (bf * d ^ 3 - (bf - tw) * (d - 2 * tf) ^ 3) / (6 * d) /\
  Sy_left (elastic p)
  == (2 * tf * bf ^ 3 + (d - 2 * tf) * tw ^ 3) / (6 * bf) /\
  Sy_right (elastic p)
  == (2 * tf * bf ^ 3 + (d - 2 * tf) * tw ^ 3) / (6 * bf) /\
  pnaX (plastic p) == d / 2 /\
  pnaY (plastic p) == bf / 2 /\
  Zx (plastic p) == bf * tf * (d - tf) + tw * (d - 2 * tf) ^ 2 / 4 /\
  Zy (plastic p) == tf * bf ^ 2 / 2 + (d - 2 * tf) * tw ^ 2 / 4.
Proof.
  intros Hr d bf tf tw Hclear Hweb p.
  unfold inRange in Hr. cbn [ShapeTemplates.wideFlangeTemplate
                             ShapeTemplates.parameters] in Hr.
  inversion Hr as [|p1 l1 [Hd1 Hd2] Hr1]; subst p1 l1.
  inversion Hr1 as [|p2 l2 [Hb1 Hb2] Hr2]; subst p2 l2.
  inversion Hr2 as [|p3 l3 [Hf1 Hf2] Hr3]; subst p3 l3.
  inversion Hr3 as [|p4 l4 [Hw1 Hw2] _]; subst p4 l4.
  cbn [ShapeTemplates.key ShapeTemplates.min ShapeTemplates.max] in *.
  fold d in Hd1, Hd2. fold bf in Hb1, Hb2. fold tf in Hf1, Hf2.
  fold tw in Hw1, Hw2.
  assert (Hwl : 1 # 100000 <= (bf - tw) / 2)
    by (apply Qle_shift_div_l; lra).
  assert (Hww : 1 # 100000 <= (bf - tw) / 2 + tw - (bf - tw) / 2) by lra.
  assert (Hcen : (bf - tw) / 2 + ((bf - tw) / 2 + tw) == bf) by field.
  pose proof (wideFlange_elastic d bf tf ((bf - tw) / 2) ((bf - tw) / 2 + tw)
                ltac:(lra) Hclear Hwl Hww Hcen Math_sqrt Math_atan2) as He.
  pose proof (wideFlange_plastic d bf tf ((bf - tw) / 2) ((bf - tw) / 2 + tw)
                ltac:(lra) Hclear Hwl Hww Hcen) as Hp.
  cbv zeta in He, Hp. subst p.
  change (ShapeTemplates.generateGeometry
            ShapeTemplates.wideFlangeTemplate params)
    with {| outerBoundary :=
              wideFlange d bf tf ((bf - tw) / 2) ((bf - tw) / 2 + tw);
            holes := [] |}.
  cbn [computeSectionProperties elastic plastic].
  destruct He as (H1 & H2 & H3 & H4 & H5 & H6 & H7 & H8 & H9 & H10 & _).
  destruct Hp as (H11 & H12 & H13 & H14).
  rewrite H1, H2, H3, H4, H5, H6, H7, H8, H9, H10, H11, H12, H13, H14.
  clear H1 H2 H3 H4 H5 H6 H7 H8 H9 H10 H11 H12 H13 H14 Hr Hr1 Hr2 Hr3.
  clearbody d bf tf tw.
  repeat (split; [field; lra|]). field.
Qed.

Lemma wide_flange_template_properties_witness :
  inRange ShapeTemplates.wideFlangeTemplate
          (params_d_bf_tf_tw 12 8 (3 # 4) (1 # 2)) /\
  Zx (plastic (computeSectionProperties floor_sqrt no_atan2
                 (ShapeTemplates.generateGeometry
                    ShapeTemplates.wideFlangeTemplate
                    (params_d_bf_tf_tw 12 8 (3 # 4) (1 # 2)))))
  == params_d_bf_tf_tw 12 8 (3 # 4) (1 # 2) "bf"%string
     * params_d_bf_tf_tw 12 8 (3 # 4) (1 # 2) "tf"%string
     * (params_d_bf_tf_tw 12 8 (3 # 4) (1 # 2) "d"%string
        - params_d_bf_tf_tw 12 8 (3 # 4) (1 # 2) "tf"%string)
     + params_d_bf_tf_tw 12 8 (3 # 4) (1 # 2) "tw"%string
       * (params_d_bf_tf_tw 12 8 (3 # 4) (1 # 2) "d"%string
          - 2 * params_d_bf_tf_tw 12 8 (3 # 4) (1 # 2) "tf"%string) ^ 2 / 4.
Proof.
  assert (H : inRange ShapeTemplates.wideFlangeTemplate
                      (params_d_bf_tf_tw 12 8 (3 # 4) (1 # 2))).
  { unfold inRange. cbn [ShapeTemplates.wideFlangeTemplate
                         ShapeTemplates.parameters].
    repeat constructor; vm_compute; discriminate. }
  split; [exact H|].
  apply (wide_flange_template_properties floor_sqrt no_atan2
           (params_d_bf_tf_tw 12 8 (3 # 4) (1 # 2)) H);
    vm_compute; discriminate.
Defined.

(** ** C9: the input is not mutated *)

Module StoreFacts.
Import Store.

Lemma stable_ret (A : Type) (n : nat) (a : A) : stable n (ret a).
Proof. intros h Hn. cbn. split; [lia|reflexivity]. Qed.

Lemma stable_read (A : Type) (n : nat) (f : store -> A) :
  stable n (fun h => (f h, h)).
Proof. intros h Hn. cbn. split; [lia|reflexivity]. Qed.

Lemma stable_bind (A B : Type) (n : nat) (m : M A) (k : A -> M B) :
  stable n m -> (forall a, stable n (k a)) -> stable n (bind m k).
Proof.
  intros Hm Hk h Hn. unfold bind.
  destruct (Hm h Hn) as [Hlen Hsame].
  destruct (m h) as [a h1]. cbn [snd] in *.
  destruct (Hk a h1 ltac:(lia)) as [Hlen' Hsame'].
  split; [lia|]. intros l Hl. rewrite Hsame', Hsame by exact Hl. reflexivity.
Qed.

Lemma stable_bind_fresh (B : Type) (n : nat) (m : M loc) (k : loc -> M B) :
  stable n m -> fresh n m ->
  (forall r, (n <= r)%nat -> stable n (k r)) ->
  stable n (bind m k).
Proof.
  intros Hm Hf Hk h Hn. unfold bind.
  destruct (Hm h Hn) as [Hlen Hsame]. specialize (Hf h Hn).
  destruct (m h) as [r h1]. cbn [fst snd] in *.
  destruct (Hk r Hf h1 ltac:(lia)) as [Hlen' Hsame'].
  split; [lia|]. intros l Hl. rewrite Hsame', Hsame by exact Hl. reflexivity.
Qed.

Lemma stable_alloc (n : nat) (o : obj) : stable n (alloc o).
Proof.
  intros h Hn. unfold alloc. cbn [snd]. rewrite length_app. cbn [length].
  split; [lia|]. intros l Hl. apply nth_error_app1. lia.
Qed.

Lemma fresh_alloc (n : nat) (o : obj) : fresh n (alloc o).
Proof. intros h Hn. exact Hn. Qed.

Lemma length_setAt (r : loc) (o : obj) (h : store) :
  length (setAt r o h) = length h.
Proof.
  revert r. induction h as [|o' h IH]; intros r;
    [destruct r; reflexivity|].
  destruct r as [|r]; cbn [setAt length]; [reflexivity|].
  rewrite IH. reflexivity.
Qed.

Lemma nth_error_setAt_other (r : loc) (o : obj) (h : store) (l : loc) :
  l <> r -> nth_error (setAt r o h) l = nth_error h l.
Proof.
  revert r l. induction h as [|o' h IH]; intros r l Hne;
    [destruct r; reflexivity|].
  destruct r as [|r], l as [|l]; cbn [setAt nth_error];
    try reflexivity; try congruence.
  apply IH. congruence.
Qed.

Lemma stable_setElements (n : nat) (r : loc) (elems : list loc) :
  (n <= r)%nat -> stable n (setElements r elems).
Proof.
  intros Hr h Hn. unfold setElements. cbn [snd]. rewrite length_setAt.
  split; [lia|]. intros l Hl. apply nth_error_setAt_other. lia.
Qed.

Lemma stable_reverse (n : nat) (r : loc) : (n <= r)%nat -> stable n (reverse r).
Proof.
  intros Hr. unfold reverse.
  apply stable_bind; [apply stable_read|intros elems].
  apply stable_bind; [apply stable_setElements, Hr|intros _].
  apply stable_ret.
Qed.

Lemma stable_push (n : nat) (r l : loc) : (n <= r)%nat -> stable n (push r l).
Proof.
  intros Hr. unfold push.
  apply stable_bind; [apply stable_read|intros elems].
  apply stable_setElements, Hr.
Qed.

Lemma stable_spread (n : nat) (r : loc) : stable n (spread r).
Proof.
  unfold spread. apply stable_bind; [apply stable_read|intros elems].
  apply stable_alloc.
Qed.

Lemma fresh_spread (n : nat) (r : loc) : fresh n (spread r).
Proof. intros h Hn. exact Hn. Qed.

Lemma stable_mapM (A B : Type) (n : nat) (f : A -> M B) (l : list A) :
  (forall a, stable n (f a)) -> stable n (mapM f l).
Proof.
  intros Hf. induction l as [|a l IH]; cbn [mapM]; [apply stable_ret|].
  apply stable_bind; [apply Hf|intros b].
  apply stable_bind; [exact IH|intros bs]. apply stable_ret.
Qed.

Lemma stable_foldM (A B : Type) (n : nat) (f : B -> A -> M B) (l : list A) :
  (forall acc a, stable n (f acc a)) -> forall acc, stable n (foldM f l acc).
Proof.
  intros Hf. induction l as [|a l IH]; intros acc; cbn [foldM];
    [apply stable_ret|].
  apply stable_bind; [apply Hf|intros acc']. apply IH.
Qed.

Lemma stable_mapArray (n : nat) (f : loc -> M loc) (r : loc) :
  (forall a, stable n (f a)) -> stable n (mapArray f r).
Proof.
  intros Hf. unfold mapArray.
  apply stable_bind; [apply stable_read|intros elems].
  apply stable_bind; [apply stable_mapM, Hf|intros rs].
  apply stable_alloc.
Qed.

Lemma stable_flatWith (n : nat) (first rest : loc) :
  stable n (flatWith first rest).
Proof.
  unfold flatWith.
  apply stable_bind; [apply stable_read|intros restElems].
  apply stable_bind; [apply stable_alloc|intros nested].
  apply stable_bind; [apply stable_read|intros arrays].
  apply stable_bind;
    [apply stable_mapM; intros a; apply stable_read|intros parts].
  apply stable_alloc.
Qed.

Lemma stable_polygonsOf (n : nat) (r : loc) : stable n (polygonsOf r).
Proof.
  unfold polygonsOf.
  apply stable_bind; [apply stable_read|intros arrays].
  apply stable_mapM. intros a. apply stable_read.
Qed.

(** Winding normalisation writes only to the copy it has made. *)
Lemma stable_ensureCCW (n : nat) (vertices : loc) :
  stable n (ensureCCW vertices).
Proof.
  unfold ensureCCW.
  apply stable_bind; [apply stable_read|intros vs].
  destruct (Qlt_bool _ _); [|apply stable_ret].
  apply stable_bind_fresh; [apply stable_spread|apply fresh_spread|].
  intros copy Hcopy. apply stable_reverse, Hcopy.
Qed.

Lemma stable_ensureCW (n : nat) (vertices : loc) :
  stable n (ensureCW vertices).
Proof.
  unfold ensureCW.
  apply stable_bind; [apply stable_read|intros vs].
  destruct (Qlt_bool _ _); [|apply stable_ret].
  apply stable_bind_fresh; [apply stable_spread|apply fresh_spread|].
  intros copy Hcopy. apply stable_reverse, Hcopy.
Qed.

Lemma stable_intersect (n : nat) (p1 p2 : loc) (c : Q) (dir : Direction) :
  stable n (intersect p1 p2 c dir).
Proof.
  unfold intersect.
  apply stable_bind; [apply stable_read|intros a].
  apply stable_bind; [apply stable_read|intros b].
  apply stable_alloc.
Qed.

Lemma stable_clipStep (n : nat) (output : loc) (c : Q) (dir : Direction)
      (side : Side) (edge : loc * loc) :
  (n <= output)%nat -> stable n (clipStep output c dir side edge).
Proof.
  intros Hout. destruct edge as [current next]. unfold clipStep.
  apply stable_bind; [apply stable_read|intros cur].
  apply stable_bind; [apply stable_read|intros nxt].
  destruct (isInside cur c dir side), (isInside nxt c dir side); cbn [negb].
  - apply stable_bind; [apply stable_push, Hout|intros _]. apply stable_ret.
  - apply stable_bind; [apply stable_push, Hout|intros _].
    apply stable_bind; [apply stable_intersect|intros X].
    apply stable_push, Hout.
  - apply stable_bind; [apply stable_intersect|intros X].
    apply stable_push, Hout.
  - apply stable_ret.
Qed.

(** The clipper pushes only onto the array it has made. *)
Lemma stable_clipPolygon (n : nat) (vertices : loc) (c : Q)
      (dir : Direction) (side : Side) :
  stable n (clipPolygon vertices c dir side).
Proof.
  unfold clipPolygon.
  apply stable_bind; [apply stable_read|intros elems].
  destruct (length elems <? 3)%nat; [apply stable_alloc|].
  apply stable_bind_fresh; [apply stable_alloc|apply fresh_alloc|].
  intros output Hout.
  apply stable_bind; [|intros _; apply stable_ret].
  apply stable_foldM. intros _ edge. apply stable_clipStep, Hout.
Qed.

Lemma stable_computeAreaOneSide (n : nat) (outer holes : loc) (c : Q)
      (dir : Direction) (side : Side) :
  stable n (computeAreaOneSide outer holes c dir side).
Proof.
  unfold computeAreaOneSide.
  apply stable_bind; [apply stable_clipPolygon|intros outerClipped].
  apply stable_bind; [apply stable_read|intros outerVs].
  apply stable_bind; [apply stable_read|intros holeArrays].
  apply stable_foldM. intros area hole.
  apply stable_bind; [apply stable_clipPolygon|intros holeClipped].
  apply stable_bind; [apply stable_read|intros holeVs].
  apply stable_ret.
Qed.

Lemma stable_computePlasticModulus (n : nat) (outer holes : loc) (pna : Q)
      (dir : Direction) :
  stable n (computePlasticModulus outer holes pna dir).
Proof.
  unfold computePlasticModulus.
  apply stable_bind; [apply stable_clipPolygon|intros outerAbove].
  apply stable_bind; [apply stable_clipPolygon|intros outerBelow].
  apply stable_bind; [apply stable_read|intros aboveVs].
  apply stable_bind; [apply stable_read|intros belowVs].
  apply stable_bind; [apply stable_read|intros holeArrays].
  apply stable_bind; [|intros moments; apply stable_ret].
  apply stable_foldM. intros [momentAbove momentBelow] hole.
  apply stable_bind; [apply stable_clipPolygon|intros holeAbove].
  apply stable_bind; [apply stable_clipPolygon|intros holeBelow].
  apply stable_bind; [apply stable_read|intros habove].
  apply stable_bind; [apply stable_read|intros hbelow].
  apply stable_ret.
Qed.

Lemma stable_findPNA_loop (n : nat) (outer holes : loc) (totalArea : Q)
      (dir : Direction) (remaining : nat) :
  forall lo hi,
    stable n (findPNA_loop outer holes totalArea dir remaining lo hi).
Proof.
  induction remaining as [|remaining IH]; intros lo hi; cbn [findPNA_loop];
    [apply stable_ret|].
  apply stable_bind; [apply stable_computeAreaOneSide|intros areaBelow].
  destruct (Qlt_bool (Qabs _) _); [apply stable_ret|].
  destruct (Qlt_bool areaBelow _); apply IH.
Qed.

Lemma stable_computePlasticProperties (n : nat) (section : SectionRef) :
  stable n (computePlasticProperties section).
Proof.
  unfold computePlasticProperties, findPNA.
  apply stable_bind; [apply stable_ensureCCW|intros outer].
  apply stable_bind;
    [apply stable_mapArray; intros a; apply stable_ensureCW|intros holes].
  apply stable_bind; [apply stable_read|intros outerVs].
  apply stable_bind; [apply stable_polygonsOf|intros holesVs].
  destruct (Qlt_bool _ eps12); [apply stable_ret|].
  apply stable_bind; [apply stable_flatWith|intros allVerts].
  apply stable_bind; [apply stable_read|intros verts].
  destruct (boundingBox verts) as [[[yMin yMax] xMin] xMax].
  destruct yMin, yMax, xMin, xMax; try apply stable_ret.
  apply stable_bind; [apply stable_findPNA_loop|intros pnaX].
  apply stable_bind; [apply stable_computePlasticModulus|intros Zx].
  apply stable_bind; [apply stable_findPNA_loop|intros pnaY].
  apply stable_bind; [apply stable_computePlasticModulus|intros Zy].
  apply stable_ret.
Qed.

Lemma stable_computeElasticProperties (n : nat)
      (Math_sqrt : Q -> Q) (Math_atan2 : Q -> Q -> Q) (section : SectionRef) :
  stable n (computeElasticProperties Math_sqrt Math_atan2 section).
Proof.
  unfold computeElasticProperties.
  apply stable_bind; [apply stable_ensureCCW|intros outer].
  apply stable_bind;
    [apply stable_mapArray; intros a; apply stable_ensureCW|intros holes].
  apply stable_bind; [apply stable_read|intros outerVs].
  apply stable_bind; [apply stable_polygonsOf|intros holesVs].
  destruct (Qlt_bool _ eps12); [apply stable_ret|].
  apply stable_bind; [apply stable_flatWith|intros _]. apply stable_ret.
Qed.

(** C9.  [computeSectionProperties] never mutates its input: every
    object the store holds before the call, so the outer-boundary array,
    every hole array and every Point in them, is the same object after
    the call; winding normalisation reverses a copy it has made, not the
    array it was given. *)
Theorem computeSectionProperties_frame
        (Math_sqrt : Q -> Q) (Math_atan2 : Q -> Q -> Q)
        (section : SectionRef) (h : store) :
  let h' := snd (computeSectionProperties Math_sqrt Math_atan2 section h) in
  forall l o, nth_error h l = Some o -> nth_error h' l = Some o.
Proof.
  cbv zeta. intros l o Hl.
  assert (Hst : stable (length h)
                  (computeSectionProperties Math_sqrt Math_atan2 section)).
  { unfold computeSectionProperties.
    apply stable_bind; [apply stable_computeElasticProperties|intros e].
    apply stable_bind; [apply stable_computePlasticProperties|intros p].
    apply stable_ret. }
  destruct (Hst h (Nat.le_refl _)) as [_ Hsame].
  rewrite Hsame; [exact Hl|].
  apply nth_error_Some. congruence.
Qed.

Lemma computeSectionProperties_frame_witness :
  nth_error
    (snd (computeSectionProperties floor_sqrt no_atan2 rect_ref cw_store))
    4%nat
  = Some (OArray [3; 2; 1; 0]%nat).
Proof.
  apply (computeSectionProperties_frame floor_sqrt no_atan2 rect_ref cw_store
                                        4%nat (OArray [3; 2; 1; 0]%nat)).
  reflexivity.
Defined.

(** *** The store engines compute what the pure engines compute *)

Lemma extends_refl (h : store) : extends h h.
Proof. split; [lia|reflexivity]. Qed.

Lemma extends_trans (h1 h2 h3 : store) :
  extends h1 h2 -> extends h2 h3 -> extends h1 h3.
Proof.
  intros [L1 S1] [L2 S2]. split; [lia|].
  intros l Hl. rewrite S2 by lia. apply S1, Hl.
Qed.

Lemma stable_extends (A : Type) (m : M A) (h : store) :
  stable (length h) m -> extends h (snd (m h)).
Proof. intros Hst. apply (Hst h). lia. Qed.

Lemma extends_pointIn (h h' : store) (l : loc) :
  extends h h' -> (l < length h)%nat -> pointIn h' l = pointIn h l.
Proof. intros [_ S] Hl. unfold pointIn. rewrite S by exact Hl. reflexivity. Qed.

Lemma extends_elementsIn (h h' : store) (r : loc) :
  extends h h' -> (r < length h)%nat -> elementsIn h' r = elementsIn h r.
Proof. intros [_ S] Hr. unfold elementsIn. rewrite S by exact Hr. reflexivity. Qed.

Lemma extends_closedArray (h h' : store) (r : loc) :
  extends h h' -> closedArray h r -> closedArray h' r.
Proof.
  intros He [Hr Hel]. pose proof He as [L _]. split; [lia|].
  rewrite (extends_elementsIn h h' r He Hr).
  intros l Hl. specialize (Hel l Hl). lia.
Qed.

Lemma extends_polygonIn (h h' : store) (r : loc) :
  extends h h' -> closedArray h r -> polygonIn h' r = polygonIn h r.
Proof.
  intros He [Hr Hel]. unfold polygonIn.
  rewrite (extends_elementsIn h h' r He Hr).
  apply map_ext_in. intros l Hl. apply extends_pointIn; auto.
Qed.

Lemma extends_represents (h h' : store) (outer holes : loc)
      (O : list Point) (Hs : list (list Point)) :
  extends h h' ->
  represents h outer holes O Hs -> represents h' outer holes O Hs.
Proof.
  intros He (Ho & Eo & Hh & Hcl & Ehs). pose proof He as [L _].
  unfold represents.
  rewrite (extends_elementsIn h h' holes He Hh).
  split; [apply (extends_closedArray h h'); assumption|].
  split; [rewrite (extends_polygonIn h h') by assumption; exact Eo|].
  split; [lia|].
  split; [intros a Ha; apply (extends_closedArray h h'); auto|].
  rewrite <- Ehs. apply map_ext_in. intros a Ha.
  apply extends_polygonIn; auto.
Qed.

Lemma mapM_read (A B : Type) (f : store -> A -> B) (l : list A) (h : store) :
  mapM (fun a => fun h => (f h a, h)) l h = (map (f h) l, h).
Proof.
  induction l as [|a l IH]; [reflexivity|].
  cbn [mapM map]. unfold bind at 1. unfold bind at 1.
  rewrite IH. reflexivity.
Qed.

Lemma setAt_app (h : store) (o o' : obj) (t : store) :
  setAt (length h) o (h ++ o' :: t) = h ++ o :: t.
Proof.
  induction h as [|a h IH]; [reflexivity|].
  cbn [length app setAt]. rewrite IH. reflexivity.
Qed.

Lemma nth_error_app_here (h : store) (o : obj) (t : store) :
  nth_error (h ++ o :: t) (length h) = Some o.
Proof.
  rewrite nth_error_app2 by lia. rewrite Nat.sub_diag. reflexivity.
Qed.

Lemma extends_app (h t : store) : extends h (h ++ t).
Proof.
  split; [rewrite length_app; lia|].
  intros l Hl. apply nth_error_app1, Hl.
Qed.

Lemma elementsIn_app_here (h : store) (elems : list loc) (t : store) :
  elementsIn (h ++ OArray elems :: t) (length h) = elems.
Proof. unfold elementsIn. rewrite nth_error_app_here. reflexivity. Qed.

Lemma reverse_copy (r : loc) (h : store) :
  (copy <- spread r ;; reverse copy) h
  = (length h, h ++ [OArray (rev (elementsIn h r))]).
Proof.
  unfold bind, spread, reverse, bind, elementsOf, alloc, setElements, ret.
  rewrite elementsIn_app_here, setAt_app. reflexivity.
Qed.

Lemma reversed_copy_contents (r : loc) (h : store) :
  closedArray h r ->
  closedArray (h ++ [OArray (rev (elementsIn h r))]) (length h) /\
  polygonIn (h ++ [OArray (rev (elementsIn h r))]) (length h)
  = rev (polygonIn h r).
Proof.
  intros [Hr Hel]. split.
  - split; [rewrite length_app; cbn [length]; lia|].
    rewrite elementsIn_app_here. intros l Hl. apply in_rev in Hl.
    specialize (Hel l Hl). rewrite length_app. lia.
  - unfold polygonIn. rewrite elementsIn_app_here, map_rev. f_equal.
    apply map_ext_in. intros l Hl.
    apply extends_pointIn; [apply extends_app|apply Hel, Hl].
Qed.

Lemma ensureCCW_run (vertices : loc) (h : store) :
  ensureCCW vertices h
  = if Qlt_bool (signedPolygonArea (polygonIn h vertices)) 0
    then (length h, h ++ [OArray (rev (elementsIn h vertices))])
    else (vertices, h).
Proof.
  unfold ensureCCW. unfold bind at 1. unfold polygonOf at 1.
  destruct (Qlt_bool _ _); [apply reverse_copy|reflexivity].
Qed.

Lemma ensureCW_run (vertices : loc) (h : store) :
  ensureCW vertices h
  = if Qlt_bool 0 (signedPolygonArea (polygonIn h vertices))
    then (length h, h ++ [OArray (rev (elementsIn h vertices))])
    else (vertices, h).
Proof.
  unfold ensureCW. unfold bind at 1. unfold polygonOf at 1.
  destruct (Qlt_bool _ _); [apply reverse_copy|reflexivity].
Qed.

(** Winding normalisation returns an array that holds the normalised
    polygon. *)
Lemma ensureCCW_contents (vertices : loc) (h : store) :
  closedArray h vertices ->
  closedArray (snd (ensureCCW vertices h)) (fst (ensureCCW vertices h)) /\
  polygonIn (snd (ensureCCW vertices h)) (fst (ensureCCW vertices h))
  = pure_ensureCCW (polygonIn h vertices).
Proof.
  intros Hc. rewrite ensureCCW_run. unfold pure_ensureCCW.
  destruct (Qlt_bool (signedPolygonArea (polygonIn h vertices)) 0);
    cbn [fst snd].
  - apply reversed_copy_contents, Hc.
  - split; [exact Hc|reflexivity].
Qed.

Lemma ensureCW_contents (vertices : loc) (h : store) :
  closedArray h vertices ->
  closedArray (snd (ensureCW vertices h)) (fst (ensureCW vertices h)) /\
  polygonIn (snd (ensureCW vertices h)) (fst (ensureCW vertices h))
  = pure_ensureCW (polygonIn h vertices).
Proof.
  intros Hc. rewrite ensureCW_run. unfold pure_ensureCW.
  destruct (Qlt_bool 0 (signedPolygonArea (polygonIn h vertices)));
    cbn [fst snd].
  - apply reversed_copy_contents, Hc.
  - split; [exact Hc|reflexivity].
Qed.

Lemma length_clipStore (h : store) (outs : list loc) (xs : list Point) :
  length (clipStore h outs xs) = (length h + 1 + length xs)%nat.
Proof.
  unfold clipStore. rewrite length_app. cbn [length].
  rewrite length_map. lia.
Qed.

Lemma pointIn_clipStore (h : store) (outs : list loc) (xs : list Point)
      (l : loc) :
  l <> length h -> pointIn (clipStore h outs xs) l = clipPoint h xs l.
Proof.
  intros Hne. unfold pointIn, clipPoint, clipStore.
  destruct (l <? length h)%nat eqn:E.
  - apply Nat.ltb_lt in E. rewrite nth_error_app1 by exact E. reflexivity.
  - apply Nat.ltb_ge in E. rewrite nth_error_app2 by exact E.
    destruct (l - length h)%nat as [|k] eqn:Ek; [lia|].
    cbn [nth_error]. replace (S k - 1)%nat with k by lia.
    rewrite nth_error_map.
    destruct (nth_error xs k) as [p|] eqn:En; cbn [option_map].
    + symmetry. apply nth_error_nth with (d := origin) in En. exact En.
    + apply nth_error_None in En. rewrite nth_overflow by exact En.
      reflexivity.
Qed.

Lemma clipPoint_old (h : store) (xs : list Point) (l : loc) :
  (l < length h)%nat -> clipPoint h xs l = pointIn h l.
Proof.
  intros Hl. unfold clipPoint.
  apply Nat.ltb_lt in Hl. rewrite Hl. reflexivity.
Qed.

Lemma clipPoint_more (h : store) (xs more : list Point) (l : loc) :
  l <> length h -> (l < length h + 1 + length xs)%nat ->
  clipPoint h (xs ++ more) l = clipPoint h xs l.
Proof.
  intros Hne Hl. unfold clipPoint.
  destruct (l <? length h)%nat eqn:E; [reflexivity|].
  apply Nat.ltb_ge in E. apply app_nth1. lia.
Qed.

Lemma clipPoint_new (h : store) (xs : list Point) (p : Point) :
  clipPoint h (xs ++ [p]) (length h + 1 + length xs)%nat = p.
Proof.
  unfold clipPoint.
  replace (length h + 1 + length xs <? length h)%nat with false
    by (symmetry; apply Nat.ltb_ge; lia).
  replace (length h + 1 + length xs - length h - 1)%nat
    with (length xs) by lia.
  apply nth_middle.
Qed.

Lemma push_clipStore (h : store) (outs : list loc) (xs : list Point)
      (l : loc) :
  push (length h) l (clipStore h outs xs)
  = (tt, clipStore h (outs ++ [l]) xs).
Proof.
  unfold push, bind, elementsOf, setElements, clipStore.
  rewrite elementsIn_app_here, setAt_app. reflexivity.
Qed.

Lemma intersect_clipStore (h : store) (outs : list loc) (xs : list Point)
      (p1 p2 : loc) (c : Q) (dir : Direction) :
  (p1 < length h)%nat -> (p2 < length h)%nat ->
  intersect p1 p2 c dir (clipStore h outs xs)
  = ((length h + 1 + length xs)%nat,
     clipStore h outs
               (xs ++ [pure_intersect (pointIn h p1) (pointIn h p2) c dir])).
Proof.
  intros H1 H2. unfold intersect, bind, pointAt, alloc.
  rewrite length_clipStore.
  rewrite !pointIn_clipStore by lia. rewrite !clipPoint_old by lia.
  unfold clipStore. rewrite map_app, <- app_assoc. reflexivity.
Qed.

Lemma clipInvariant_push_old (h : store) (outs : list loc) (xs : list Point)
      (P : list Point) (l : loc) :
  (l < length h)%nat ->
  clipInvariant h outs xs P ->
  clipInvariant h (outs ++ [l]) xs (P ++ [pointIn h l]).
Proof.
  intros Hl [HP Hv]. split.
  - rewrite map_app, HP. cbn [map]. rewrite clipPoint_old by exact Hl.
    reflexivity.
  - intros l' Hl'. apply in_app_or in Hl'. destruct Hl' as [Hl'|[<-|[]]].
    + apply Hv, Hl'.
    + lia.
Qed.

Lemma clipInvariant_push_new (h : store) (outs : list loc) (xs : list Point)
      (P : list Point) (p : Point) :
  clipInvariant h outs xs P ->
  clipInvariant h (outs ++ [length h + 1 + length xs])%nat (xs ++ [p])
                (P ++ [p]).
Proof.
  intros [HP Hv]. split.
  - rewrite map_app. cbn [map]. rewrite clipPoint_new. f_equal.
    rewrite <- HP. apply map_ext_in. intros l Hl.
    apply clipPoint_more; apply Hv, Hl.
  - intros l' Hl'. rewrite length_app. cbn [length].
    apply in_app_or in Hl'. destruct Hl' as [Hl'|[<-|[]]].
    + destruct (Hv l' Hl'). lia.
    + lia.
Qed.

(** One turn of the clipper on the store is one turn of the pure
    clipper on the Points. *)
Lemma clipStep_clipStore (h : store) (outs : list loc) (xs : list Point)
      (P : list Point) (c : Q) (dir : Direction) (side : Side)
      (current next : loc) :
  (current < length h)%nat -> (next < length h)%nat ->
  clipInvariant h outs xs P ->
  exists outs' xs',
    clipStep (length h) c dir side (current, next) (clipStore h outs xs)
    = (tt, clipStore h outs' xs') /\
    clipInvariant h outs' xs'
      (pure_clipStep c dir side P (pointIn h current, pointIn h next)).
Proof.
  intros Hc Hn Hinv. unfold clipStep, pure_clipStep.
  unfold bind at 1. unfold pointAt at 1.
  unfold bind at 1. unfold pointAt at 1.
  rewrite !pointIn_clipStore by lia. rewrite !clipPoint_old by lia.
  destruct (isInside (pointIn h current) c dir side),
           (isInside (pointIn h next) c dir side); cbn [negb].
  - exists (outs ++ [current]), xs. split.
    + unfold bind. rewrite push_clipStore. reflexivity.
    + apply clipInvariant_push_old; assumption.
  - eexists _, _. split.
    + unfold bind. rewrite push_clipStore.
      rewrite intersect_clipStore by assumption.
      rewrite push_clipStore. reflexivity.
    + apply clipInvariant_push_new, clipInvariant_push_old; assumption.
  - eexists _, _. split.
    + unfold bind. rewrite intersect_clipStore by assumption.
      rewrite push_clipStore. reflexivity.
    + apply clipInvariant_push_new. assumption.
  - exists outs, xs. split; [reflexivity|assumption].
Qed.

Lemma clipLoop_clipStore (h : store) (c : Q) (dir : Direction) (side : Side)
      (edges : list (loc * loc)) :
  (forall e, In e edges -> (fst e < length h)%nat /\ (snd e < length h)%nat) ->
  forall outs xs P,
    clipInvariant h outs xs P ->
    exists outs' xs',
      foldM (fun _ edge => clipStep (length h) c dir side edge) edges tt
            (clipStore h outs xs)
      = (tt, clipStore h outs' xs') /\
      clipInvariant h outs' xs'
        (fold_left (pure_clipStep c dir side)
                   (map (fun e => (pointIn h (fst e), pointIn h (snd e))) edges)
                   P).
Proof.
  induction edges as [|[current next] edges IH]; intros Hedges outs xs P Hinv.
  - exists outs, xs. split; [reflexivity|exact Hinv].
  - destruct (Hedges (current, next) (or_introl eq_refl)) as [Hc Hn].
    cbn [fst snd] in Hc, Hn.
    destruct (clipStep_clipStore h outs xs P c dir side current next Hc Hn Hinv)
      as (outs1 & xs1 & Erun & Hinv1).
    destruct (IH (fun e He => Hedges e (or_intror He)) outs1 xs1 _ Hinv1)
      as (outs2 & xs2 & Erun2 & Hinv2).
    exists outs2, xs2. split.
    + cbn [foldM]. unfold bind at 1. rewrite Erun. exact Erun2.
    + cbn [map fold_left fst snd]. exact Hinv2.
Qed.

Lemma cyclic_locs_points (h : store) (elems : list loc) :
  map (fun e => (pointIn h (fst e), pointIn h (snd e))) (cyclic_locs elems)
  = cyclic_pairs (map (pointIn h) elems).
Proof.
  unfold cyclic_locs, cyclic_pairs. rewrite map_map, length_map.
  apply map_ext_in. intros i Hi. apply in_seq in Hi. cbn [fst snd].
  assert (Hj : ((i + 1) mod length elems < length elems)%nat)
    by (apply Nat.mod_upper_bound; lia).
  f_equal.
  - rewrite nth_indep with (d' := pointIn h 0%nat)
      by (rewrite length_map; lia).
    symmetry. apply map_nth.
  - rewrite nth_indep with (d' := pointIn h 0%nat)
      by (rewrite length_map; lia).
    symmetry. apply map_nth.
Qed.

Lemma cyclic_locs_In (elems : list loc) (e : loc * loc) :
  In e (cyclic_locs elems) -> In (fst e) elems /\ In (snd e) elems.
Proof.
  unfold cyclic_locs. intros He. apply in_map_iff in He.
  destruct He as [i [<- Hi]]. apply in_seq in Hi. cbn [fst snd].
  split; apply nth_In; [lia|apply Nat.mod_upper_bound; lia].
Qed.

Lemma clipPolygon_run (vertices : loc) (c : Q) (dir : Direction)
      (side : Side) (h : store) :
  clipPolygon vertices c dir side h
  = if (length (elementsIn h vertices) <? 3)%nat
    then (length h, h ++ [OArray []])
    else (length h,
          snd (foldM (fun _ edge => clipStep (length h) c dir side edge)
                     (cyclic_locs (elementsIn h vertices)) tt
                     (clipStore h [] []))).
Proof.
  unfold clipPolygon. unfold bind at 1. unfold elementsOf at 1.
  destruct (length (elementsIn h vertices) <? 3)%nat; [reflexivity|].
  unfold bind at 1. unfold alloc at 1.
  change (h ++ [OArray []]) with (clipStore h [] []).
  unfold bind at 1.
  destruct (foldM _ _ _ _) as [u h']. reflexivity.
Qed.

(** The clipper returns a new array that holds the clipped polygon. *)
Lemma clipPolygon_contents (vertices : loc) (c : Q) (dir : Direction)
      (side : Side) (h : store) :
  closedArray h vertices ->
  closedArray (snd (clipPolygon vertices c dir side h))
              (fst (clipPolygon vertices c dir side h)) /\
  polygonIn (snd (clipPolygon vertices c dir side h))
            (fst (clipPolygon vertices c dir side h))
  = pure_clipPolygon (polygonIn h vertices) c dir side.
Proof.
  intros [Hr Hel]. rewrite clipPolygon_run. unfold pure_clipPolygon.
  replace (length (polygonIn h vertices))
    with (length (elementsIn h vertices))
    by (unfold polygonIn; rewrite length_map; reflexivity).
  destruct (length (elementsIn h vertices) <? 3)%nat; cbn [fst snd].
  - split.
    + split; [rewrite length_app; cbn [length]; lia|].
      rewrite elementsIn_app_here. intros l [].
    + unfold polygonIn. rewrite elementsIn_app_here. reflexivity.
  - assert (Hinv0 : clipInvariant h [] [] [])
      by (split; [reflexivity|intros l []]).
    destruct (clipLoop_clipStore h c dir side
                (cyclic_locs (elementsIn h vertices))
                (fun e He =>
                   conj (Hel _ (proj1 (cyclic_locs_In _ e He)))
                        (Hel _ (proj2 (cyclic_locs_In _ e He))))
                [] [] [] Hinv0)
      as (outs & xs & Erun & [HP Hv]).
    rewrite Erun. cbn [snd]. split.
    + split; [rewrite length_clipStore; lia|].
      unfold clipStore at 1. rewrite elementsIn_app_here.
      intros l Hl. rewrite length_clipStore. apply Hv, Hl.
    + rewrite cyclic_locs_points in HP.
      unfold polygonIn at 1. unfold clipStore at 2.
      rewrite elementsIn_app_here. fold (polygonIn h vertices) in HP.
      rewrite <- HP.
      apply map_ext_in. intros l Hl. apply pointIn_clipStore.
      apply Hv, Hl.
Qed.

Lemma bind_run (A B : Type) (m : M A) (k : A -> M B) (h : store) :
  bind m k h = k (fst (m h)) (snd (m h)).
Proof. unfold bind. destruct (m h). reflexivity. Qed.

Lemma polygonOf_run (r : loc) (h : store) :
  polygonOf r h = (polygonIn h r, h).
Proof. reflexivity. Qed.

Lemma elementsOf_run (r : loc) (h : store) :
  elementsOf r h = (elementsIn h r, h).
Proof. reflexivity. Qed.

Lemma ret_run (A : Type) (a : A) (h : store) : ret a h = (a, h).
Proof. reflexivity. Qed.

Ltac run_binds :=
  repeat (first [rewrite bind_run | rewrite polygonOf_run
                | rewrite elementsOf_run | rewrite ret_run];
          cbv beta; cbn [fst snd]).

Lemma run_extends (A : Type) (m : M A) (h : store) :
  (forall n, stable n m) -> extends h (snd (m h)).
Proof. intros Hst. apply stable_extends, Hst. Qed.

Lemma clipPolygon_extends (vertices : loc) (c : Q) (dir : Direction)
      (side : Side) (h : store) :
  extends h (snd (clipPolygon vertices c dir side h)).
Proof. apply run_extends. intros n. apply stable_clipPolygon. Qed.

Lemma map_polygonIn_extends (h h' : store) (arrays : list loc) :
  extends h h' ->
  (forall a, In a arrays -> closedArray h a) ->
  map (polygonIn h') arrays = map (polygonIn h) arrays.
Proof.
  intros He Hcl. apply map_ext_in. intros a Ha.
  apply extends_polygonIn; auto.
Qed.

(** Clipping the holes one after the other and subtracting their areas. *)
Lemma holeAreas_value (c : Q) (dir : Direction) (side : Side)
      (arrays : list loc) :
  forall h acc,
    (forall a, In a arrays -> closedArray h a) ->
    fst (foldM
           (fun area hole =>
              holeClipped <- clipPolygon hole c dir side ;;
              holeVs <- polygonOf holeClipped ;;
              ret (area - polygonArea holeVs))
           arrays acc h)
    = fold_left
        (fun area hole => area - polygonArea (pure_clipPolygon hole c dir side))
        (map (polygonIn h) arrays) acc.
Proof.
  induction arrays as [|a arrays IH]; intros h acc Hcl; [reflexivity|].
  cbn [foldM map fold_left]. run_binds.
  pose proof (clipPolygon_contents a c dir side h (Hcl a (or_introl eq_refl)))
    as [_ Hval].
  pose proof (clipPolygon_extends a c dir side h) as Hext.
  rewrite IH.
  - rewrite Hval.
    rewrite (map_polygonIn_extends h _ arrays Hext)
      by (intros a' Ha'; apply Hcl; right; exact Ha').
    reflexivity.
  - intros a' Ha'. apply (extends_closedArray h); [exact Hext|].
    apply Hcl. right. exact Ha'.
Qed.

Lemma computeAreaOneSide_value (outer holes : loc) (c : Q) (dir : Direction)
      (side : Side) (h : store) (O : list Point) (Hs : list (list Point)) :
  represents h outer holes O Hs ->
  fst (computeAreaOneSide outer holes c dir side h)
  = pure_computeAreaOneSide O Hs c dir side.
Proof.
  intros (Ho & Eo & Hh & Hcl & Ehs).
  unfold computeAreaOneSide, pure_computeAreaOneSide. run_binds.
  pose proof (clipPolygon_contents outer c dir side h Ho) as [_ Hval].
  pose proof (clipPolygon_extends outer c dir side h) as Hext.
  rewrite (extends_elementsIn h _ holes Hext Hh).
  rewrite holeAreas_value.
  - rewrite Hval, Eo.
    rewrite (map_polygonIn_extends h _ _ Hext Hcl), Ehs. reflexivity.
  - intros a Ha. apply (extends_closedArray h); auto.
Qed.

Lemma computeAreaOneSide_extends (outer holes : loc) (c : Q) (dir : Direction)
      (side : Side) (h : store) :
  extends h (snd (computeAreaOneSide outer holes c dir side h)).
Proof.
  apply run_extends. intros n. apply stable_computeAreaOneSide.
Qed.

(** The search on the store returns the value of the pure search. *)
Lemma findPNA_loop_value (outer holes : loc) (totalArea : Q)
      (dir : Direction) (O : list Point) (Hs : list (list Point))
      (remaining : nat) :
  forall iter lo hi h,
    represents h outer holes O Hs ->
    fst (findPNA_loop outer holes totalArea dir remaining lo hi h)
    = pna_value (pure_findPNA_loop O Hs totalArea dir remaining iter lo hi).
Proof.
  induction remaining as [|remaining IH]; intros iter lo hi h Hrep;
    [reflexivity|].
  cbn [findPNA_loop pure_findPNA_loop]. rewrite bind_run. cbv beta.
  rewrite (computeAreaOneSide_value outer holes ((lo + hi) / 2) dir below
                                    h O Hs Hrep).
  pose proof (computeAreaOneSide_extends outer holes ((lo + hi) / 2) dir
                                         below h) as Hext.
  pose proof (extends_represents h _ outer holes O Hs Hext Hrep) as Hrep1.
  unfold areaBelowAt.
  destruct (Qlt_bool (Qabs _) _); [reflexivity|].
  destruct (Qlt_bool _ _); apply IH; exact Hrep1.
Qed.

Lemma findPNA_value (outer holes : loc) (totalArea minVal maxVal : Q)
      (dir : Direction) (O : list Point) (Hs : list (list Point))
      (h : store) :
  represents h outer holes O Hs ->
  fst (findPNA outer holes totalArea minVal maxVal dir h)
  = pure_findPNA O Hs totalArea minVal maxVal dir.
Proof. intros Hrep. apply findPNA_loop_value. exact Hrep. Qed.

(** Clipping the holes on both sides and subtracting their moments. *)
Lemma holeMoments_value (pna : Q) (dir : Direction) (arrays : list loc) :
  forall h acc,
    (forall a, In a arrays -> closedArray h a) ->
    fst (foldM
           (fun '(momentAbove, momentBelow) hole =>
              holeAbove <- clipPolygon hole pna dir above ;;
              holeBelow <- clipPolygon hole pna dir below ;;
              habove <- polygonOf holeAbove ;;
              hbelow <- polygonOf holeBelow ;;
              ret (momentAbove - firstMomentAboutAxis habove pna dir,
                   momentBelow - firstMomentAboutAxis hbelow pna dir))
           arrays acc h)
    = fold_left
        (fun '(momentAbove, momentBelow) hole =>
           let holeAbove := pure_clipPolygon hole pna dir above in
           let holeBelow := pure_clipPolygon hole pna dir below in
           (momentAbove - firstMomentAboutAxis holeAbove pna dir,
            momentBelow - firstMomentAboutAxis holeBelow pna dir))
        (map (polygonIn h) arrays) acc.
Proof.
  induction arrays as [|a arrays IH]; intros h [mA mB] Hcl; [reflexivity|].
  cbn [foldM map fold_left]. run_binds.
  pose proof (Hcl a (or_introl eq_refl)) as Ha.
  pose proof (clipPolygon_contents a pna dir above h Ha) as [Hc1 Hv1].
  pose proof (clipPolygon_extends a pna dir above h) as He1.
  set (h1 := snd (clipPolygon a pna dir above h)) in *.
  set (r1 := fst (clipPolygon a pna dir above h)) in *.
  pose proof (clipPolygon_contents a pna dir below h1
                (extends_closedArray h h1 a He1 Ha)) as [_ Hv2].
  pose proof (clipPolygon_extends a pna dir below h1) as He2.
  set (h2 := snd (clipPolygon a pna dir below h1)) in *.
  set (r2 := fst (clipPolygon a pna dir below h1)) in *.
  pose proof (extends_trans h h1 h2 He1 He2) as He.
  rewrite IH.
  - rewrite (extends_polygonIn h1 h2 r1 He2 Hc1), Hv1, Hv2.
    rewrite (extends_polygonIn h h1 a He1 Ha).
    rewrite (map_polygonIn_extends h h2 arrays He)
      by (intros a' Ha'; apply Hcl; right; exact Ha').
    reflexivity.
  - intros a' Ha'. apply (extends_closedArray h h2); [exact He|].
    apply Hcl. right. exact Ha'.
Qed.

Lemma computePlasticModulus_value (outer holes : loc) (pna : Q)
      (dir : Direction) (h : store) (O : list Point)
      (Hs : list (list Point)) :
  represents h outer holes O Hs ->
  fst (computePlasticModulus outer holes pna dir h)
  = pure_computePlasticModulus O Hs pna dir.
Proof.
  intros (Ho & Eo & Hh & Hcl & Ehs).
  unfold computePlasticModulus, pure_computePlasticModulus. run_binds.
  pose proof (clipPolygon_contents outer pna dir above h Ho) as [Hc1 Hv1].
  pose proof (clipPolygon_extends outer pna dir above h) as He1.
  set (h1 := snd (clipPolygon outer pna dir above h)) in *.
  set (r1 := fst (clipPolygon outer pna dir above h)) in *.
  pose proof (clipPolygon_contents outer pna dir below h1
                (extends_closedArray h h1 outer He1 Ho)) as [_ Hv2].
  pose proof (clipPolygon_extends outer pna dir below h1) as He2.
  set (h2 := snd (clipPolygon outer pna dir below h1)) in *.
  set (r2 := fst (clipPolygon outer pna dir below h1)) in *.
  pose proof (extends_trans h h1 h2 He1 He2) as He.
  rewrite (extends_elementsIn h h2 holes He Hh).
  rewrite (holeMoments_value pna dir (elementsIn h holes) h2)
    by (intros a Ha; apply (extends_closedArray h h2 a He (Hcl a Ha))).
  rewrite (extends_polygonIn h1 h2 r1 He2 Hc1), Hv1, Hv2.
  rewrite (extends_polygonIn h h1 outer He1 Ho), Eo.
  rewrite (map_polygonIn_extends h h2 _ He Hcl), Ehs.
  destruct (fold_left _ Hs _) as [mA mB]. reflexivity.
Qed.

Lemma ensureCW_extends (vertices : loc) (h : store) :
  extends h (snd (ensureCW vertices h)).
Proof. apply run_extends. intros n. apply stable_ensureCW. Qed.

Lemma ensureCCW_extends (vertices : loc) (h : store) :
  extends h (snd (ensureCCW vertices h)).
Proof. apply run_extends. intros n. apply stable_ensureCCW. Qed.

Lemma mapM_ensureCW_extends (arrays : list loc) (h : store) :
  extends h (snd (mapM ensureCW arrays h)).
Proof.
  apply run_extends. intros n. apply stable_mapM.
  intros a. apply stable_ensureCW.
Qed.

(** Normalising every hole gives arrays that hold the normalised holes. *)
Lemma mapM_ensureCW_contents (arrays : list loc) :
  forall h,
    (forall a, In a arrays -> closedArray h a) ->
    (forall r, In r (fst (mapM ensureCW arrays h)) ->
               closedArray (snd (mapM ensureCW arrays h)) r) /\
    map (polygonIn (snd (mapM ensureCW arrays h)))
        (fst (mapM ensureCW arrays h))
    = map pure_ensureCW (map (polygonIn h) arrays).
Proof.
  induction arrays as [|a arrays IH]; intros h Hcl.
  - cbn [mapM map]. rewrite ret_run. cbn [fst snd]. split; [intros r []|reflexivity].
  - cbn [mapM]. run_binds.
    pose proof (ensureCW_contents a h (Hcl a (or_introl eq_refl))) as [Hc1 Hv1].
    pose proof (ensureCW_extends a h) as He1.
    set (h1 := snd (ensureCW a h)) in *.
    set (r1 := fst (ensureCW a h)) in *.
    assert (Hcl1 : forall a', In a' arrays -> closedArray h1 a').
    { intros a' Ha'. apply (extends_closedArray h h1); [exact He1|].
      apply Hcl. right. exact Ha'. }
    destruct (IH h1 Hcl1) as [Hc2 Hv2].
    pose proof (mapM_ensureCW_extends arrays h1) as He2.
    set (h2 := snd (mapM ensureCW arrays h1)) in *.
    set (rs := fst (mapM ensureCW arrays h1)) in *.
    split.
    + intros r [<-|Hr]; [|apply Hc2, Hr].
      apply (extends_closedArray h1 h2); assumption.
    + cbn [map]. rewrite Hv2.
      rewrite (extends_polygonIn h1 h2 r1 He2 Hc1), Hv1.
      rewrite (map_polygonIn_extends h h1 arrays He1)
        by (intros a' Ha'; apply Hcl; right; exact Ha').
      reflexivity.
Qed.

(** After winding normalisation the two arrays the engines work on hold
    the normalised outer boundary and the normalised holes. *)
Lemma normalised_represents (section : SectionRef) (h : store) :
  wellFormed h section ->
  represents
    (snd (mapArray ensureCW (holesRef section)
                   (snd (ensureCCW (outerRef section) h))))
    (fst (ensureCCW (outerRef section) h))
    (fst (mapArray ensureCW (holesRef section)
                   (snd (ensureCCW (outerRef section) h))))
    (pure_ensureCCW (outerBoundary (sectionIn h section)))
    (map pure_ensureCW (holes (sectionIn h section))).
Proof.
  intros (Ho & Hh & Hcl).
  pose proof (ensureCCW_contents (outerRef section) h Ho) as [Hc1 Hv1].
  pose proof (ensureCCW_extends (outerRef section) h) as He1.
  set (h1 := snd (ensureCCW (outerRef section) h)) in *.
  set (outer := fst (ensureCCW (outerRef section) h)) in *.
  unfold mapArray. run_binds. unfold alloc. cbn [fst snd].
  rewrite (extends_elementsIn h h1 _ He1 Hh).
  set (arrays := elementsIn h (holesRef section)) in *.
  assert (Hcl1 : forall a, In a arrays -> closedArray h1 a).
  { intros a Ha. apply (extends_closedArray h h1); auto. }
  destruct (mapM_ensureCW_contents arrays h1 Hcl1) as [Hc2 Hv2].
  pose proof (mapM_ensureCW_extends arrays h1) as He2.
  set (h2 := snd (mapM ensureCW arrays h1)) in *.
  set (rs := fst (mapM ensureCW arrays h1)) in *.
  pose proof (extends_app h2 [OArray rs]) as He3.
  pose proof (extends_trans h1 h2 _ He2 He3) as He13.
  unfold represents. rewrite elementsIn_app_here.
  split; [apply (extends_closedArray h1); assumption|].
  split; [rewrite (extends_polygonIn h1) by assumption; exact Hv1|].
  split; [rewrite length_app; cbn [length]; lia|].
  split; [intros a Ha; apply (extends_closedArray h2); auto|].
  rewrite (map_polygonIn_extends h2 _ rs He3 Hc2), Hv2.
  rewrite (map_polygonIn_extends h h1 arrays He1 Hcl).
  reflexivity.
Qed.

Lemma normalised_extends (section : SectionRef) (h : store) :
  extends h (snd (mapArray ensureCW (holesRef section)
                           (snd (ensureCCW (outerRef section) h)))).
Proof.
  apply (extends_trans h (snd (ensureCCW (outerRef section) h)));
    [apply ensureCCW_extends|].
  apply run_extends. intros n. apply stable_mapArray.
  intros a. apply stable_ensureCW.
Qed.

Lemma polygonsOf_run (holes : loc) (h : store) :
  polygonsOf holes h = (map (polygonIn h) (elementsIn h holes), h).
Proof.
  unfold polygonsOf. rewrite bind_run, elementsOf_run. cbn [fst snd].
  apply (mapM_read loc (list Point) polygonIn).
Qed.

Lemma flatWith_run (outer holes : loc) (h : store) :
  flatWith outer holes h
  = (length (h ++ [OArray (outer :: elementsIn h holes)]),
     (h ++ [OArray (outer :: elementsIn h holes)])
     ++ [OArray (concat (map (elementsIn
                                (h ++ [OArray (outer :: elementsIn h holes)]))
                             (outer :: elementsIn h holes)))]).
Proof.
  unfold flatWith, bind, elementsOf, alloc.
  rewrite elementsIn_app_here.
  rewrite (mapM_read loc (list loc) elementsIn). reflexivity.
Qed.

(** [[outer, ...holes].flat()] holds all vertices, outer boundary first. *)
Lemma flatWith_contents (outer holes : loc) (h : store)
      (O : list Point) (Hs : list (list Point)) :
  represents h outer holes O Hs ->
  polygonIn (snd (flatWith outer holes h)) (fst (flatWith outer holes h))
  = concat (O :: Hs).
Proof.
  intros (Ho & Eo & Hh & Hcl & Ehs).
  rewrite flatWith_run. cbn [fst snd].
  set (h1 := h ++ [OArray (outer :: elementsIn h holes)]).
  pose proof (extends_app h [OArray (outer :: elementsIn h holes)]) as He1.
  fold h1 in He1.
  set (parts := map (elementsIn h1) (outer :: elementsIn h holes)).
  pose proof (extends_app h1 [OArray (concat parts)]) as He2.
  pose proof (extends_trans h h1 _ He1 He2) as He.
  unfold polygonIn at 1. rewrite elementsIn_app_here.
  rewrite concat_map. subst parts. rewrite map_map.
  rewrite <- Eo, <- Ehs.
  change (polygonIn h outer :: map (polygonIn h) (elementsIn h holes))
    with (map (polygonIn h) (outer :: elementsIn h holes)).
  f_equal. apply map_ext_in. intros a Ha.
  assert (Hca : closedArray h a) by (destruct Ha as [<-|Ha]; auto).
  rewrite (extends_elementsIn h h1 a He1 (proj1 Hca)).
  apply map_ext_in. intros l Hl.
  apply extends_pointIn; [exact He|apply Hca, Hl].
Qed.

Lemma flatWith_extends (outer holes : loc) (h : store) :
  extends h (snd (flatWith outer holes h)).
Proof. apply run_extends. intros n. apply stable_flatWith. Qed.

Lemma findPNA_extends (outer holes : loc) (totalArea minVal maxVal : Q)
      (dir : Direction) (h : store) :
  extends h (snd (findPNA outer holes totalArea minVal maxVal dir h)).
Proof. apply run_extends. intros n. apply stable_findPNA_loop. Qed.

Lemma computePlasticModulus_extends (outer holes : loc) (pna : Q)
      (dir : Direction) (h : store) :
  extends h (snd (computePlasticModulus outer holes pna dir h)).
Proof. apply run_extends. intros n. apply stable_computePlasticModulus. Qed.

(** The plastic engine on the store returns what the pure engine returns
    on the section the store holds. *)
Lemma computePlasticProperties_value (section : SectionRef) (h : store) :
  wellFormed h section ->
  fst (computePlasticProperties section h)
  = pure_computePlasticProperties (sectionIn h section).
Proof.
  intros Hwf.
  pose proof (normalised_represents section h Hwf) as Hrep.
  unfold computePlasticProperties, pure_computePlasticProperties.
  rewrite bind_run. cbv beta. rewrite bind_run. cbv beta.
  set (outerArr := fst (ensureCCW (outerRef section) h)) in *.
  set (h1 := snd (ensureCCW (outerRef section) h)) in *.
  set (holesArr := fst (mapArray ensureCW (holesRef section) h1)) in *.
  set (h2 := snd (mapArray ensureCW (holesRef section) h1)) in *.
  set (O := pure_ensureCCW (outerBoundary (sectionIn h section))) in *.
  set (Hs := map pure_ensureCW (holes (sectionIn h section))) in *.
  rewrite bind_run, polygonOf_run. cbv beta. cbn [fst snd].
  rewrite bind_run, polygonsOf_run. cbv beta. cbn [fst snd].
  pose proof Hrep as (_ & Eo & _ & _ & Ehs). rewrite Eo, Ehs.
  set (T := computeNetArea O Hs).
  destruct (Qlt_bool T eps12); [reflexivity|].
  rewrite bind_run. cbv beta.
  rewrite bind_run, polygonOf_run. cbv beta. cbn [fst snd].
  rewrite (flatWith_contents outerArr holesArr h2 O Hs Hrep).
  pose proof (extends_represents h2 _ outerArr holesArr O Hs
                (flatWith_extends outerArr holesArr h2) Hrep) as Hrep3.
  set (h3 := snd (flatWith outerArr holesArr h2)) in *.
  destruct (boundingBox (concat (O :: Hs))) as [[[yMin yMax] xMin] xMax].
  destruct yMin as [|yMin|], yMax as [|yMax|], xMin as [|xMin|],
           xMax as [|xMax|]; try reflexivity.
  rewrite bind_run. cbv beta.
  rewrite (findPNA_value outerArr holesArr T yMin yMax horizontal O Hs h3 Hrep3).
  pose proof (extends_represents h3 _ outerArr holesArr O Hs
                (findPNA_extends outerArr holesArr T yMin yMax horizontal h3) Hrep3)
    as Hrep4.
  set (h4 := snd (findPNA outerArr holesArr T yMin yMax horizontal h3)) in *.
  set (pX := pure_findPNA O Hs T yMin yMax horizontal).
  rewrite bind_run. cbv beta.
  rewrite (computePlasticModulus_value outerArr holesArr pX horizontal h4 O Hs Hrep4).
  pose proof (extends_represents h4 _ outerArr holesArr O Hs
                (computePlasticModulus_extends outerArr holesArr pX horizontal h4)
                Hrep4) as Hrep5.
  set (h5 := snd (computePlasticModulus outerArr holesArr pX horizontal h4)) in *.
  rewrite bind_run. cbv beta.
  rewrite (findPNA_value outerArr holesArr T xMin xMax vertical O Hs h5 Hrep5).
  pose proof (extends_represents h5 _ outerArr holesArr O Hs
                (findPNA_extends outerArr holesArr T xMin xMax vertical h5) Hrep5)
    as Hrep6.
  set (h6 := snd (findPNA outerArr holesArr T xMin xMax vertical h5)) in *.
  set (pY := pure_findPNA O Hs T xMin xMax vertical).
  rewrite bind_run. cbv beta.
  rewrite (computePlasticModulus_value outerArr holesArr pY vertical h6 O Hs Hrep6).
  reflexivity.
Qed.

(** The elastic engine on the store returns what the pure engine returns
    on the section the store holds. *)
Lemma computeElasticProperties_value
      (Math_sqrt : Q -> Q) (Math_atan2 : Q -> Q -> Q)
      (section : SectionRef) (h : store) :
  wellFormed h section ->
  fst (computeElasticProperties Math_sqrt Math_atan2 section h)
  = pure_computeElasticProperties Math_sqrt Math_atan2 (sectionIn h section).
Proof.
  intros Hwf.
  pose proof (normalised_represents section h Hwf) as Hrep.
  unfold computeElasticProperties, pure_computeElasticProperties.
  rewrite bind_run. cbv beta. rewrite bind_run. cbv beta.
  set (outerArr := fst (ensureCCW (outerRef section) h)) in *.
  set (h1 := snd (ensureCCW (outerRef section) h)) in *.
  set (holesArr := fst (mapArray ensureCW (holesRef section) h1)) in *.
  set (h2 := snd (mapArray ensureCW (holesRef section) h1)) in *.
  set (O := pure_ensureCCW (outerBoundary (sectionIn h section))) in *.
  set (Hs := map pure_ensureCW (holes (sectionIn h section))) in *.
  rewrite bind_run, polygonOf_run. cbv beta. cbn [fst snd].
  rewrite bind_run, polygonsOf_run. cbv beta. cbn [fst snd].
  pose proof Hrep as (_ & Eo & _ & _ & Ehs). rewrite Eo, Ehs.
  destruct (Qlt_bool (elasticNetArea O Hs) eps12) eqn:E.
  - unfold elasticOfNormalised. rewrite E. reflexivity.
  - rewrite bind_run. reflexivity.
Qed.

Lemma extends_wellFormed (h h' : store) (section : SectionRef) :
  extends h h' -> wellFormed h section -> wellFormed h' section.
Proof.
  intros He (Ho & Hh & Hcl). pose proof He as [L _].
  unfold wellFormed. rewrite (extends_elementsIn h h' _ He Hh).
  split; [apply (extends_closedArray h h'); assumption|].
  split; [lia|].
  intros a Ha. apply (extends_closedArray h h'); auto.
Qed.

Lemma extends_sectionIn (h h' : store) (section : SectionRef) :
  extends h h' -> wellFormed h section ->
  sectionIn h' section = sectionIn h section.
Proof.
  intros He (Ho & Hh & Hcl). unfold sectionIn.
  rewrite (extends_polygonIn h h' _ He Ho).
  rewrite (extends_elementsIn h h' _ He Hh).
  rewrite (map_polygonIn_extends h h' _ He Hcl). reflexivity.
Qed.

(** On a store that holds the section, the store engines return the
    properties the pure engines compute for that section, and the
    section the store holds after the call is the one it held before. *)
Theorem computeSectionProperties_refines
        (Math_sqrt : Q -> Q) (Math_atan2 : Q -> Q -> Q)
        (section : SectionRef) (h : store) :
  wellFormed h section ->
  fst (computeSectionProperties Math_sqrt Math_atan2 section h)
  = pure_computeSectionProperties Math_sqrt Math_atan2 (sectionIn h section)
  /\
  sectionIn (snd (computeSectionProperties Math_sqrt Math_atan2 section h))
            section
  = sectionIn h section.
Proof.
  intros Hwf. split.
  - unfold computeSectionProperties, pure_computeSectionProperties.
    rewrite bind_run. cbv beta. rewrite bind_run. cbv beta.
    rewrite ret_run. cbn [fst].
    rewrite (computeElasticProperties_value _ _ section h Hwf).
    assert (He : extends h (snd (computeElasticProperties
                                   Math_sqrt Math_atan2 section h))).
    { apply run_extends. intros n. apply stable_computeElasticProperties. }
    rewrite (computePlasticProperties_value section _
               (extends_wellFormed h _ section He Hwf)).
    rewrite (extends_sectionIn h _ section He Hwf). reflexivity.
  - apply extends_sectionIn; [|exact Hwf].
    apply run_extends. intros n. unfold computeSectionProperties.
    apply stable_bind; [apply stable_computeElasticProperties|intros e].
    apply stable_bind; [apply stable_computePlasticProperties|intros p].
    apply stable_ret.
Qed.

End StoreFacts.
